(** * ExtractV3.js: the adaptive prefix-exploration engine

    A shallow embedding of [ExtractV3.js] (the v3 extractor of the
    autocomplete API) and the properties of its retry handler, frontier,
    concurrency controller and snapshotter.

    The script is single-threaded JavaScript: asynchronous functions run
    without interruption from one [await] to the next.  The embedding
    therefore cuts [queryAPI] and [processPrefix] at their [await]s and
    gives one state transformer per uninterrupted segment; a run of the
    program is a sequence of such segments, chosen by the event loop
    (arrival of HTTP responses, expiry of timers, the scheduler of the
    queue).

    The queue is an instance of the p-queue package.  It holds the jobs
    handed to it and starts the first of them when its two limits allow
    ([concurrency] jobs at a time, [intervalCap] jobs per [interval]);
    when it does so is the queue's affair, and is a step of its own in
    the event loop below.

    The Numbers of JavaScript are IEEE 754 doubles.  The counters, the
    delays and the times of the script are whole numbers far below 2^53,
    on which the arithmetic of the script is exact: they are integers
    here.  The other Numbers are rationals, and an operation on them is
    the exact one rounded to the nearest double ([round_double]): a
    sample of [Math.random()] is a double in [0, 1), and the product of
    line 51 and the quotient of line 195 are rounded in this way.
    [currentConcurrency * 0.9] is taken over the rationals, where its
    floor is the one the script computes for the integers 5 to 80
    (lemma [scaled_down_double]).

    The second part is [api-rate-limit-test.js], the probe with which the
    rate limit of the API was measured: a sequential loop, embedded as a
    function of the outcomes of its requests. *)

From Stdlib Require Import Ascii String ZArith QArith Qround Qabs Qpower.
From Stdlib Require Import Lia Lqa.
From stdpp Require Import base tactics option list strings relations.

Local Open Scope string_scope.
Local Open Scope list_scope.
Local Open Scope Z_scope.

Set Warnings "-register-all".

(** ** Configuration (lines 5-30) *)

Definition BASE_DELAY_MS : Z := 500.
Definition JITTER_MS : Z := 200.
Definition RATE_LIMIT_COOLDOWN_MS : Z := 1000.
Definition MAX_RESULTS_PER_QUERY : Z := 15.

(** [[...'0123456789abcdefghijklmnopqrstuvwxyz+.-', '%20']]: spreading a
    string gives its characters as one-character strings. *)
Definition spread (s : string) : list string :=
  (λ c, String c EmptyString) <$> String.list_ascii_of_string s.

Definition VALID_CHARACTERS : list string :=
  spread "0123456789abcdefghijklmnopqrstuvwxyz+.-" ++ ["%20"].

Definition INITIAL_CONCURRENCY : Z := 26.
Definition MIN_CONCURRENCY : Z := 5.
Definition MAX_CONCURRENCY : Z := 80.
Definition CONCURRENCY_ADJUSTMENT_UP : Z := 1.
Definition CONCURRENCY_ADJUSTMENT_DOWN_FACTOR : Q := 9 # 10.

Definition BACKLOG_HIGH_THRESHOLD : Z := 100.
Definition BACKLOG_LOW_THRESHOLD : Z := 20.

Definition PROGRESS_FILE : string := "extracted_names_dynamicV3.json".
Definition NAMES_FILE : string := "names_only_dynamicV3.json".

(** Options of [new PQueue({...})] (lines 39-43) and the other literals of
    the script. *)
Definition INTERVAL_CAP : Z := 80.
Definition INTERVAL_MS : Z := 60000.
Definition MAX_ATTEMPTS : Z := 5.
Definition SAVE_INCREMENT : Z := 500.
Definition MONITOR_PERIOD_MS : Z := 5000.
Definition HTTP_TIMEOUT_MS : Z := 520.

(** ** JavaScript values

    What [response.data] can be after axios has parsed a body, with
    [undefined] for an absent property. *)

Inductive json : Type :=
  | JUndefined
  | JNull
  | JBool (b : bool)
  | JNum (q : Q)
  | JStr (s : string)
  | JArr (items : list json)
  | JObj (fields : list (string * json)).

(** Truthiness, as used by [||]. *)
Definition truthy (v : json) : bool :=
  match v with
  | JUndefined | JNull => false
  | JBool b => b
  | JNum q => negb (Qeq_bool q 0)
  | JStr s => negb (String.eqb s "")
  | JArr _ | JObj _ => true
  end.

(** [a || b] *)
Definition js_or (a b : json) : json := if truthy a then a else b.

(** Own property of a parsed object; the last of several equal keys wins. *)
Fixpoint obj_get (k : string) (fields : list (string * json)) : json :=
  match fields with
  | [] => JUndefined
  | (k', v) :: rest =>
      match obj_get k rest with
      | JUndefined => if String.eqb k k' then v else JUndefined
      | w => w
      end
  end.

(** [v.results]: reading a property of [undefined] or [null] throws a
    TypeError ([None]); primitives and arrays have no such property. *)
Definition get_results (v : json) : option json :=
  match v with
  | JUndefined | JNull => None
  | JObj fields => Some (obj_get "results" fields)
  | JBool _ | JNum _ | JStr _ | JArr _ => Some JUndefined
  end.

(** SameValueZero, the equality of [Set]: primitives by value, objects and
    arrays by identity (two parsed values are never the same object). *)
Definition same_value_zero (a b : json) : bool :=
  match a, b with
  | JUndefined, JUndefined => true
  | JNull, JNull => true
  | JBool x, JBool y => Bool.eqb x y
  | JNum x, JNum y => Qeq_bool x y
  | JStr x, JStr y => String.eqb x y
  | _, _ => false
  end.

(** A JavaScript [Set] keeps its elements in insertion order. *)
Module JSSet.
Section ops.
Context {A : Type} (eqb : A → A → bool).

Definition has (x : A) (s : list A) : bool := existsb (eqb x) s.

Definition add (x : A) (s : list A) : list A :=
  if has x s then s else s ++ [x].

Definition size (s : list A) : Z := Z.of_nat (length s).

End ops.
End JSSet.

(** ** Doubles

    The finite doubles are the rationals [m * 2 ^ e] with [|m| < 2 ^ 53]
    and [-1074 ≤ e ≤ 971]. *)
Definition is_double (q : Q) : Prop :=
  ∃ m e : Z, Z.abs m < 2 ^ 53 ∧ -1074 ≤ e ≤ 971 ∧ (q == inject_Z m * 2 ^ e)%Q.

(** The exponent of [q ≠ 0]: the [e] with [2 ^ e ≤ |q| < 2 ^ (e + 1)]. *)
Definition exponent (q : Q) : Z :=
  let a := Qabs q in
  if Qle_bool 1 a then Z.log2 (Qfloor a) else - Z.log2_up (Qceiling (/ a)).

(** The distance between the doubles around [q]: 53 bits from the
    exponent of [q] down, and 2^-1074 for the subnormal numbers. *)
Definition ulp (q : Q) : Q := (2 ^ (Z.max (exponent q) (-1022) - 52))%Q.

(** The integer nearest to [y], the even one of two (roundTiesToEven). *)
Definition round_half_even (y : Q) : Z :=
  let f := Qfloor y in
  match (y - inject_Z f ?= 1 # 2)%Q with
  | Lt => f
  | Gt => f + 1
  | Eq => if Z.even f then f else f + 1
  end.

(** The double nearest to [q], which is the result of the operation of
    JavaScript whose exact result is [q].  (For [|q|] below 2^1024; the
    script computes no larger number.) *)
Definition round_double (q : Q) : Q :=
  (inject_Z (round_half_even (q / ulp q)) * ulp q)%Q.

(** ** Math.random and [delay] (lines 50-53)

    A sample of [Math.random()] is a double in [0, 1). *)
Definition is_sample (r : Q) : Prop := is_double r ∧ (0 <= r)%Q ∧ (r < 1)%Q.

(** [Math.floor(Math.random() * JITTER_MS)] (line 51), for the sample
    [r]: the product is a double. *)
Definition jitter_of (r : Q) : Z :=
  Qfloor (round_double (r * inject_Z JITTER_MS)).

(** [delay(ms)] sleeps for [ms + jitter]; the value is the timer's length. *)
Definition delay (ms : Z) (r : Q) : Z := ms + jitter_of r.

(** [Math.max(MIN, Math.min(MAX, newConcurrency))] (line 83) *)
Definition clamp (newConcurrency : Z) : Z :=
  Z.max MIN_CONCURRENCY (Z.min MAX_CONCURRENCY newConcurrency).

(** [Math.floor(currentConcurrency * CONCURRENCY_ADJUSTMENT_DOWN_FACTOR)] *)
Definition scaled_down (c : Z) : Z :=
  Qfloor (inject_Z c * CONCURRENCY_ADJUSTMENT_DOWN_FACTOR).

(** ** The collaborators: axios, the console, the file system *)

(** How [await axios.get(url, { timeout: 520 })] ends. *)
Inductive http_outcome : Type :=
  | Fulfilled (data : json)        (* a 2xx response; [data] is its body *)
  | RejectedStatus (status : Z)    (* a response with another status *)
  | RejectedNoResponse.            (* timeout or network error *)

(** [error.response && error.response.status] of the rejection. *)
Definition error_status (o : http_outcome) : option Z :=
  match o with
  | RejectedStatus s => Some s
  | Fulfilled _ | RejectedNoResponse => None
  end.

Inductive log_line : Type :=
  | LogSaved (names : Z)                              (* line 65 *)
  | LogAdjusted (concurrency : Z)                     (* line 85 *)
  | LogBacklog (pending size backlog : Z)             (* line 96 *)
  | LogRetrying (prefix : string) (attempt backoffDelay : Z)  (* line 133 *)
  | LogFailed (prefix : string) (attempt : Z)         (* line 137 *)
  | LogComplete (requests names elapsed : Z)          (* lines 196-199 *)
  | LogSavedTo (filename : string).                   (* line 216 *)

(** [{ totalRequests, totalNames, names }], and [timeElapsedSeconds] in the
    final result: a decimal with two digits after the point, kept here as
    its number of hundredths (see [seconds_elapsed]). *)
Record snapshot : Type := mkSnapshot {
  snap_totalRequests : Z;
  snap_totalNames : Z;
  snap_names : list json;
  snap_timeElapsed : option Z
}.

Inductive content : Type :=
  | ProgressData (s : snapshot)
  | NamesOnly (names : list json).

(** One call [queryAPI(prefix, attempt)], with the time of its request. *)
Record call : Type := mkCall {
  call_time : Z;
  call_prefix : string;
  call_attempt : Z
}.

(** Where a started invocation of [processPrefix] is suspended. *)
Inductive cont : Type :=
  | AwaitResponse (prefix : string) (attempt : Z)
      (* line 117, in [queryAPI(prefix, attempt)] *)
  | AwaitRetry (prefix : string) (attempt : Z) (due : Z)
      (* lines 127 and 134; [queryAPI(prefix, attempt + 1)] follows *)
  | AwaitFinish (prefix : string) (due : Z).
      (* line 171 *)

Definition cont_prefix (k : cont) : string :=
  match k with
  | AwaitResponse p _ | AwaitRetry p _ _ | AwaitFinish p _ => p
  end.

(** ** The URL of a request (line 117)

    A string stands for the bytes of its UTF-8 form, which is what
    [encodeURIComponent] works on: the letters, the digits and
    [- _ . ! ~ * ' ( )] are kept, every other byte becomes [%XX] with two
    upper-case hexadecimal digits. *)

Definition API_URL : string := "http://35.200.185.69:8000/v3/autocomplete".

Definition unreserved (c : ascii) : bool :=
  let n := Z.of_N (N_of_ascii c) in
  ((48 <=? n) && (n <=? 57))
  || ((65 <=? n) && (n <=? 90))
  || ((97 <=? n) && (n <=? 122))
  || existsb (Ascii.eqb c) (String.list_ascii_of_string "-_.!~*'()").

Definition hex_digit (n : N) : ascii :=
  nth (N.to_nat n) (String.list_ascii_of_string "0123456789ABCDEF") "0"%char.

Definition percent_encode (c : ascii) : list ascii :=
  let n := N_of_ascii c in
  ["%"%char; hex_digit (n / 16); hex_digit (n mod 16)].

Definition encode_char (c : ascii) : list ascii :=
  if unreserved c then [c] else percent_encode c.

Definition encodeURIComponent (s : string) : string :=
  String.string_of_list_ascii (String.list_ascii_of_string s ≫= encode_char).

(** [`${API_URL}?query=${encodeURIComponent(prefix)}`] *)
Definition request_url (prefix : string) : string :=
  API_URL +:+ "?query=" +:+ encodeURIComponent prefix.

(** ** The state of a run *)

Record state : Type := mkState {
  (* [let currentConcurrency] (line 19) *)
  currentConcurrency : Z;
  (* [let totalRequests] (line 33) *)
  totalRequests : Z;
  (* [visitedPrefixes], a Set *)
  visitedPrefixes : list string;
  (* [discoveredNames], a Set *)
  discoveredNames : list json;
  (* [let lastSavedCount] (line 36) *)
  lastSavedCount : Z;
  (* [queue.concurrency] *)
  queueConcurrency : Z;
  (* the jobs [queue] holds and has not started: one prefix each *)
  waiting : list string;
  (* the jobs started and not settled *)
  running : list cont;
  (* jobs started in the current interval of the queue *)
  intervalCount : Z;
  (* when the current interval of the queue ends *)
  intervalEnd : Z;
  (* [Date.now()], in ms since the script started *)
  now : Z;
  (* when the timer of [monitorBacklog] fires next *)
  monitorDue : Z;
  (* [queue.onIdle()] has resolved *)
  finished : bool;
  (* history of [fs.writeFileSync], newest first *)
  files : list (string * content);
  (* history of [console.log] and [console.error], newest first *)
  console : list log_line;
  (* history of the calls of [queryAPI], newest first *)
  calls : list call;
  (* history of [queue.add], newest first *)
  added : list string;
  (* what [queryAPI] returned to [processPrefix], newest first *)
  answers : list (string * json);
  (* prefixes whose [processPrefix] threw *)
  rejected : list string
}.

(** Assignments to one variable of the state. *)
Definition set_currentConcurrency (v : Z) (st : state) : state :=
  mkState v (totalRequests st) (visitedPrefixes st) (discoveredNames st)
    (lastSavedCount st) (queueConcurrency st) (waiting st) (running st)
    (intervalCount st) (intervalEnd st) (now st) (monitorDue st) (finished st)
    (files st) (console st) (calls st) (added st) (answers st) (rejected st).
Definition set_totalRequests (v : Z) (st : state) : state :=
  mkState (currentConcurrency st) v (visitedPrefixes st) (discoveredNames st)
    (lastSavedCount st) (queueConcurrency st) (waiting st) (running st)
    (intervalCount st) (intervalEnd st) (now st) (monitorDue st) (finished st)
    (files st) (console st) (calls st) (added st) (answers st) (rejected st).
Definition set_visitedPrefixes (v : list string) (st : state) : state :=
  mkState (currentConcurrency st) (totalRequests st) v (discoveredNames st)
    (lastSavedCount st) (queueConcurrency st) (waiting st) (running st)
    (intervalCount st) (intervalEnd st) (now st) (monitorDue st) (finished st)
    (files st) (console st) (calls st) (added st) (answers st) (rejected st).
Definition set_discoveredNames (v : list json) (st : state) : state :=
  mkState (currentConcurrency st) (totalRequests st) (visitedPrefixes st) v
    (lastSavedCount st) (queueConcurrency st) (waiting st) (running st)
    (intervalCount st) (intervalEnd st) (now st) (monitorDue st) (finished st)
    (files st) (console st) (calls st) (added st) (answers st) (rejected st).
Definition set_lastSavedCount (v : Z) (st : state) : state :=
  mkState (currentConcurrency st) (totalRequests st) (visitedPrefixes st)
    (discoveredNames st) v (queueConcurrency st) (waiting st) (running st)
    (intervalCount st) (intervalEnd st) (now st) (monitorDue st) (finished st)
    (files st) (console st) (calls st) (added st) (answers st) (rejected st).
Definition set_queueConcurrency (v : Z) (st : state) : state :=
  mkState (currentConcurrency st) (totalRequests st) (visitedPrefixes st)
    (discoveredNames st) (lastSavedCount st) v (waiting st) (running st)
    (intervalCount st) (intervalEnd st) (now st) (monitorDue st) (finished st)
    (files st) (console st) (calls st) (added st) (answers st) (rejected st).
Definition set_waiting (v : list string) (st : state) : state :=
  mkState (currentConcurrency st) (totalRequests st) (visitedPrefixes st)
    (discoveredNames st) (lastSavedCount st) (queueConcurrency st) v
    (running st) (intervalCount st) (intervalEnd st) (now st) (monitorDue st)
    (finished st) (files st) (console st) (calls st) (added st) (answers st)
    (rejected st).
Definition set_running (v : list cont) (st : state) : state :=
  mkState (currentConcurrency st) (totalRequests st) (visitedPrefixes st)
    (discoveredNames st) (lastSavedCount st) (queueConcurrency st)
    (waiting st) v (intervalCount st) (intervalEnd st) (now st)
    (monitorDue st) (finished st) (files st) (console st) (calls st)
    (added st) (answers st) (rejected st).
Definition set_intervalCount (v : Z) (st : state) : state :=
  mkState (currentConcurrency st) (totalRequests st) (visitedPrefixes st)
    (discoveredNames st) (lastSavedCount st) (queueConcurrency st)
    (waiting st) (running st) v (intervalEnd st) (now st) (monitorDue st)
    (finished st) (files st) (console st) (calls st) (added st) (answers st)
    (rejected st).
Definition set_intervalEnd (v : Z) (st : state) : state :=
  mkState (currentConcurrency st) (totalRequests st) (visitedPrefixes st)
    (discoveredNames st) (lastSavedCount st) (queueConcurrency st)
    (waiting st) (running st) (intervalCount st) v (now st) (monitorDue st)
    (finished st) (files st) (console st) (calls st) (added st) (answers st)
    (rejected st).
Definition set_now (v : Z) (st : state) : state :=
  mkState (currentConcurrency st) (totalRequests st) (visitedPrefixes st)
    (discoveredNames st) (lastSavedCount st) (queueConcurrency st)
    (waiting st) (running st) (intervalCount st) (intervalEnd st) v
    (monitorDue st) (finished st) (files st) (console st) (calls st)
    (added st) (answers st) (rejected st).
Definition set_monitorDue (v : Z) (st : state) : state :=
  mkState (currentConcurrency st) (totalRequests st) (visitedPrefixes st)
    (discoveredNames st) (lastSavedCount st) (queueConcurrency st)
    (waiting st) (running st) (intervalCount st) (intervalEnd st) (now st) v
    (finished st) (files st) (console st) (calls st) (added st) (answers st)
    (rejected st).
Definition set_finished (v : bool) (st : state) : state :=
  mkState (currentConcurrency st) (totalRequests st) (visitedPrefixes st)
    (discoveredNames st) (lastSavedCount st) (queueConcurrency st)
    (waiting st) (running st) (intervalCount st) (intervalEnd st) (now st)
    (monitorDue st) v (files st) (console st) (calls st) (added st)
    (answers st) (rejected st).
Definition set_files (v : list (string * content)) (st : state) : state :=
  mkState (currentConcurrency st) (totalRequests st) (visitedPrefixes st)
    (discoveredNames st) (lastSavedCount st) (queueConcurrency st)
    (waiting st) (running st) (intervalCount st) (intervalEnd st) (now st)
    (monitorDue st) (finished st) v (console st) (calls st) (added st)
    (answers st) (rejected st).
Definition set_console (v : list log_line) (st : state) : state :=
  mkState (currentConcurrency st) (totalRequests st) (visitedPrefixes st)
    (discoveredNames st) (lastSavedCount st) (queueConcurrency st)
    (waiting st) (running st) (intervalCount st) (intervalEnd st) (now st)
    (monitorDue st) (finished st) (files st) v (calls st) (added st)
    (answers st) (rejected st).
Definition set_calls (v : list call) (st : state) : state :=
  mkState (currentConcurrency st) (totalRequests st) (visitedPrefixes st)
    (discoveredNames st) (lastSavedCount st) (queueConcurrency st)
    (waiting st) (running st) (intervalCount st) (intervalEnd st) (now st)
    (monitorDue st) (finished st) (files st) (console st) v (added st)
    (answers st) (rejected st).
Definition set_added (v : list string) (st : state) : state :=
  mkState (currentConcurrency st) (totalRequests st) (visitedPrefixes st)
    (discoveredNames st) (lastSavedCount st) (queueConcurrency st)
    (waiting st) (running st) (intervalCount st) (intervalEnd st) (now st)
    (monitorDue st) (finished st) (files st) (console st) (calls st) v
    (answers st) (rejected st).
Definition set_answers (v : list (string * json)) (st : state) : state :=
  mkState (currentConcurrency st) (totalRequests st) (visitedPrefixes st)
    (discoveredNames st) (lastSavedCount st) (queueConcurrency st)
    (waiting st) (running st) (intervalCount st) (intervalEnd st) (now st)
    (monitorDue st) (finished st) (files st) (console st) (calls st)
    (added st) v (rejected st).
Definition set_rejected (v : list string) (st : state) : state :=
  mkState (currentConcurrency st) (totalRequests st) (visitedPrefixes st)
    (discoveredNames st) (lastSavedCount st) (queueConcurrency st)
    (waiting st) (running st) (intervalCount st) (intervalEnd st) (now st)
    (monitorDue st) (finished st) (files st) (console st) (calls st)
    (added st) (answers st) v.

Definition initial : state :=
  {| currentConcurrency := INITIAL_CONCURRENCY;
     totalRequests := 0;
     visitedPrefixes := [];
     discoveredNames := [];
     lastSavedCount := 0;
     queueConcurrency := INITIAL_CONCURRENCY;
     waiting := [];
     running := [];
     intervalCount := 0;
     intervalEnd := INTERVAL_MS;
     now := 0;
     monitorDue := MONITOR_PERIOD_MS;
     finished := false;
     files := [];
     console := [];
     calls := [];
     added := [];
     answers := [];
     rejected := [] |}.

(** ** The functions of the script *)

Definition log (l : log_line) (st : state) : state :=
  set_console (l :: console st) st.

Definition writeFileSync (name : string) (c : content) (st : state) : state :=
  set_files ((name, c) :: files st) st.

(** [saveProgress] (lines 58-66) *)
Definition saveProgress (st : state) : state :=
  let progressData :=
    {| snap_totalRequests := totalRequests st;
       snap_totalNames := JSSet.size (discoveredNames st);
       snap_names := discoveredNames st;
       snap_timeElapsed := None |} in
  log (LogSaved (JSSet.size (discoveredNames st)))
    (writeFileSync PROGRESS_FILE (ProgressData progressData) st).

(** [maybeSaveProgress] (lines 71-76) *)
Definition maybeSaveProgress (st : state) : state :=
  if lastSavedCount st + SAVE_INCREMENT <=? JSSet.size (discoveredNames st)
  then saveProgress (set_lastSavedCount (JSSet.size (discoveredNames st)) st)
  else st.

(** [adjustConcurrency] (lines 82-86) *)
Definition adjustConcurrency (newConcurrency : Z) (st : state) : state :=
  let c := clamp newConcurrency in
  log (LogAdjusted c) (set_queueConcurrency c (set_currentConcurrency c st)).

(** The callback that [monitorBacklog] hands to [setInterval]
    (lines 92-105). *)
Definition monitorBacklog (st : state) : state :=
  let pending := Z.of_nat (length (running st)) in
  let size := Z.of_nat (length (waiting st)) in
  let backlog := pending + size in
  let st := log (LogBacklog pending size backlog) st in
  if BACKLOG_HIGH_THRESHOLD <? backlog then
    adjustConcurrency (scaled_down (currentConcurrency st)) st
  else if (backlog <? BACKLOG_LOW_THRESHOLD)
          && (currentConcurrency st <? MAX_CONCURRENCY) then
    adjustConcurrency (currentConcurrency st + CONCURRENCY_ADJUSTMENT_UP) st
  else st.

(** *** [queryAPI] (lines 114-141), cut at its [await]s *)

(** Lines 115-117: count the attempt and send the request. *)
Definition queryAPI_enter (prefix : string) (attempt : Z) (st : state) : state :=
  set_calls (mkCall (now st) prefix attempt :: calls st)
    (set_totalRequests (totalRequests st + 1) st).

(** How a segment of [queryAPI] ends: with [return v], or suspended in
    [await delay(..)] for [ms] milliseconds before calling itself. *)
Inductive query_next : Type :=
  | Return (results : json)
  | Retry (ms : Z).

(** The [catch] block (lines 123-140); [status] is that of
    [error.response], if there is one; [r] is the sample [delay] draws. *)
Definition queryAPI_catch (prefix : string) (attempt : Z) (status : option Z)
    (r : Q) (st : state) : state * query_next :=
  if match status with Some s => s =? 429 | None => false end then
    (adjustConcurrency (scaled_down (currentConcurrency st)) st,
     Retry (delay RATE_LIMIT_COOLDOWN_MS r))
  else if attempt <=? MAX_ATTEMPTS then
    let backoffDelay := BASE_DELAY_MS * 2 ^ attempt in
    (log (LogRetrying prefix attempt backoffDelay) st,
     Retry (delay backoffDelay r))
  else
    (log (LogFailed prefix attempt) st, Return (JArr [])).

(** From the settlement of [axios.get] to the next [await] or [return]
    (lines 117-140).  A TypeError raised by [response.data.results] is
    thrown inside [try] and lands in [catch] like any other error. *)
Definition queryAPI_settle (prefix : string) (attempt : Z) (o : http_outcome)
    (r : Q) (st : state) : state * query_next :=
  match o with
  | Fulfilled data =>
      let st :=
        adjustConcurrency (currentConcurrency st + CONCURRENCY_ADJUSTMENT_UP) st in
      match get_results data with
      | Some v => (st, Return (js_or v (JArr [])))
      | None => queryAPI_catch prefix attempt None r st
      end
  | RejectedStatus _ | RejectedNoResponse =>
      queryAPI_catch prefix attempt (error_status o) r st
  end.

(** *** The queue and [processPrefix] (lines 147-172) *)

(** [queue.add(() => processPrefix(prefix))]: the job joins the queue; the
    queue starts it when its limits allow (label [LStart] below).  p-queue
    makes such a start in the same turn when it can; here each start is a
    step of the event loop, which may be taken at once or later. *)
Definition queue_add (prefix : string) (st : state) : state :=
  set_added (prefix :: added st) (set_waiting (waiting st ++ [prefix]) st).

(** The body of the loop of lines 161-167, for [newPrefix = prefix + char]. *)
Definition enqueue (newPrefix : string) (st : state) : state :=
  if negb (JSSet.has String.eqb newPrefix (visitedPrefixes st))
  then queue_add newPrefix st
  else st.

(** The loop of lines 161-167. *)
Definition expand (prefix : string) (st : state) : state :=
  foldl (λ s char, enqueue (prefix +:+ char) s) st VALID_CHARACTERS.

(** Lines 149-152, up to the first [await]: [None] when the invocation
    returns at once. *)
Definition processPrefix_begin (prefix : string) (st : state)
    : state * option cont :=
  if JSSet.has String.eqb prefix (visitedPrefixes st) then (st, None)
  else
    let st :=
      set_visitedPrefixes (JSSet.add String.eqb prefix (visitedPrefixes st)) st in
    (queryAPI_enter prefix 1 st, Some (AwaitResponse prefix 1)).

(** [results.forEach(name => discoveredNames.add(name))] *)
Definition add_names (items : list json) (names : list json) : list json :=
  foldl (λ s name, JSSet.add same_value_zero name s) names items.

(** Lines 153-171, from the value of [await queryAPI(prefix)] to the last
    [await].  Only an array has [forEach]: on anything else line 153 throws
    and the invocation is rejected ([None]). *)
Definition processPrefix_resume (prefix : string) (results : json) (r : Q)
    (st : state) : state * option cont :=
  let st := set_answers ((prefix, results) :: answers st) st in
  match results with
  | JArr items =>
      let st := set_discoveredNames (add_names items (discoveredNames st)) st in
      let st := maybeSaveProgress st in
      let st :=
        if Z.of_nat (length items) =? MAX_RESULTS_PER_QUERY
        then expand prefix st else st in
      (st, Some (AwaitFinish prefix (now st + delay BASE_DELAY_MS r)))
  | _ => (set_rejected (prefix :: rejected st) st, None)
  end.

(** *** [extractAllNames] (lines 177-207) and [saveToFile] *)

Definition saveToFile (filename : string) (data : content) (st : state) : state :=
  log (LogSavedTo filename) (writeFileSync filename data st).

(** Lines 178-187: the initial jobs. *)
Definition extractAllNames_begin (st : state) : state :=
  foldl (λ s char, queue_add char s) st VALID_CHARACTERS.

(** [x.toFixed(2)] for [0 ≤ x < 10^21]: the decimal [n / 100] with two
    digits after the point, for the integer [n] that makes [n / 100]
    nearest to [x], the larger one of two.  The value is [n]. *)
Definition toFixed2 (x : Q) : Z := Qfloor (x * 100 + (1 # 2))%Q.

(** [((Date.now() - startTime) / 1000).toFixed(2)] (line 195) after [ms]
    milliseconds, in hundredths of a second; the quotient is a double.
    [parseFloat] of line 205 gives the double nearest to this decimal,
    which [JSON.stringify] writes as the same decimal. *)
Definition seconds_elapsed (ms : Z) : Z :=
  toFixed2 (round_double (inject_Z ms / 1000)).

(** Lines 192-206 and 221-224, once [queue.onIdle()] has resolved. *)
Definition extractAllNames_end (st : state) : state :=
  let st := saveProgress st in
  let secondsElapsed := seconds_elapsed (now st) in
  let st :=
    log (LogComplete (totalRequests st) (JSSet.size (discoveredNames st))
           secondsElapsed)
      st in
  let results :=
    {| snap_totalRequests := totalRequests st;
       snap_totalNames := JSSet.size (discoveredNames st);
       snap_names := discoveredNames st;
       snap_timeElapsed := Some secondsElapsed |} in
  let st := saveToFile PROGRESS_FILE (ProgressData results) st in
  let st := saveToFile NAMES_FILE (NamesOnly (snap_names results)) st in
  set_finished true st.

(** ** The event loop

    What can happen next in a run: the queue starts a job, a request
    settles, a timer expires, time passes. *)
Inductive label : Type :=
  | LStart
      (* the queue starts its first waiting job *)
  | LResponse (i : nat) (o : http_outcome) (r : Q)
      (* the request of job [i] settles with [o]; [r] is the sample drawn
         by the [delay] that the segment ends in *)
  | LWake (i : nat)
      (* the retry timer of job [i] expires *)
  | LFinish (i : nat)
      (* the last timer of job [i] expires: the job is settled *)
  | LMonitor
      (* the timer of [monitorBacklog] expires *)
  | LInterval
      (* the interval of the queue ends, its count starts again *)
  | LIdle
      (* [queue.onIdle()] resolves *)
  | LTime (dt : Z).
      (* [dt] milliseconds pass *)

(** The limits of the queue: [intervalCap] jobs per interval and
    [concurrency] jobs at a time.  The count of the interval starts again
    with [LInterval]; the limits only ever hold a start back. *)
Definition queue_allows (st : state) : bool :=
  (intervalCount st <? INTERVAL_CAP)
  && (Z.of_nat (length (running st)) <? queueConcurrency st).

Definition exec (l : label) (st : state) : option state :=
  match l with
  | LStart =>
      match waiting st with
      | prefix :: rest =>
          if queue_allows st then
            let st := set_intervalCount (intervalCount st + 1)
                        (set_waiting rest st) in
            match processPrefix_begin prefix st with
            | (st, Some k) => Some (set_running (running st ++ [k]) st)
            | (st, None) => Some st
            end
          else None
      | [] => None
      end
  | LResponse i o r =>
      match running st !! i with
      | Some (AwaitResponse prefix attempt) =>
          match queryAPI_settle prefix attempt o r st with
          | (st, Retry ms) =>
              Some (set_running
                      (<[i := AwaitRetry prefix attempt (now st + ms)]> (running st))
                      st)
          | (st, Return results) =>
              match processPrefix_resume prefix results r st with
              | (st, Some k) => Some (set_running (<[i := k]> (running st)) st)
              | (st, None) => Some (set_running (delete i (running st)) st)
              end
          end
      | _ => None
      end
  | LWake i =>
      match running st !! i with
      | Some (AwaitRetry prefix attempt due) =>
          if due <=? now st then
            let st := queryAPI_enter prefix (attempt + 1) st in
            Some (set_running
                    (<[i := AwaitResponse prefix (attempt + 1)]> (running st)) st)
          else None
      | _ => None
      end
  | LFinish i =>
      match running st !! i with
      | Some (AwaitFinish prefix due) =>
          if due <=? now st
          then Some (set_running (delete i (running st)) st)
          else None
      | _ => None
      end
  | LMonitor =>
      if monitorDue st <=? now st
      then Some (monitorBacklog (set_monitorDue (now st + MONITOR_PERIOD_MS) st))
      else None
  | LInterval =>
      if intervalEnd st <=? now st
      then Some (set_intervalCount 0 (set_intervalEnd (now st + INTERVAL_MS) st))
      else None
  | LIdle =>
      match waiting st, running st, finished st with
      | [], [], false => Some (extractAllNames_end st)
      | _, _, _ => None
      end
  | LTime dt =>
      if 0 <=? dt then Some (set_now (now st + dt) st) else None
  end.

Fixpoint run (ls : list label) (st : state) : option state :=
  match ls with
  | [] => Some st
  | l :: ls => st' ← exec l st; run ls st'
  end.

Definition step (st st' : state) : Prop := ∃ l, exec l st = Some st'.

(** The states of a run of the script. *)
Definition reachable (st : state) : Prop :=
  rtc step (extractAllNames_begin initial) st.

(** ** One call of [queryAPI] on its own

    [queryAPI] against a script of outcomes, one per request, each with
    the sample its [delay] would draw; between its segments only time
    passes.  [None]: the script ends while the call is still retrying. *)
Fixpoint queryAPI (script : list (http_outcome * Q)) (prefix : string)
    (attempt : Z) (st : state) : option (json * state) :=
  match script with
  | [] => None
  | (o, r) :: script =>
      match queryAPI_settle prefix attempt o r (queryAPI_enter prefix attempt st) with
      | (st, Return results) => Some (results, st)
      | (st, Retry ms) =>
          queryAPI script prefix (attempt + 1) (set_now (now st + ms) st)
      end
  end.

(** [processPrefix] on its own, in the same way; [r] is the sample of its
    last [delay].  The result tells whether the invocation was fulfilled
    ([true]) or rejected. *)
Definition processPrefix (script : list (http_outcome * Q)) (r : Q)
    (prefix : string) (st : state) : option (bool * state) :=
  if JSSet.has String.eqb prefix (visitedPrefixes st) then Some (true, st)
  else
    let st :=
      set_visitedPrefixes (JSSet.add String.eqb prefix (visitedPrefixes st)) st in
    '(results, st) ← queryAPI script prefix 1 st;
    match processPrefix_resume prefix results r st with
    | (st, Some (AwaitFinish _ due)) => Some (true, set_now due st)
    | (st, _) => Some (false, st)
    end.

(** * api-rate-limit-test.js: the probe of the rate limit

    [main] sends one request after the other and watches for the first
    429 and for the first success after it.  The script is sequential; a
    run is given by how the requests end, in order. *)

Module RateLimitTest.

Definition REQUEST_INTERVAL_MS : Z := 0.

(** How [await fetch(API_URL)] ends: with a response, whatever its
    status ([time] is what [Date.now()] returns while the response is
    handled), or with a rejection. *)
Inductive fetched : Type :=
  | Response (status : Z) (time : Z)
  | Failed.

Inductive log_line : Type :=
  | LogStarting                             (* line 16 *)
  | LogLimitReached (requests : Z)          (* line 31 *)
  | LogCooldownEnded (ms : Z)               (* line 39 *)
  | LogStatus (status requests : Z)         (* line 43 *)
  | LogFailed (requests : Z)                (* line 46 *)
  | LogFinished                             (* line 53 *)
  | LogTotal (requests : Z)                 (* line 54 *)
  | LogEstimated (ms : Z).                  (* line 56 *)

Record state : Type := mkState {
  (* [let requestCount] (line 13) *)
  requestCount : Z;
  (* [let rateLimited] (line 17) *)
  rateLimited : bool;
  (* [let rateLimitStartTime], [null] at first (line 18) *)
  rateLimitStartTime : option Z;
  (* [let cooldownDuration], [null] at first (line 19) *)
  cooldownDuration : option Z;
  (* history of [console.log] and [console.error], newest first *)
  console : list log_line
}.

Definition initial : state :=
  {| requestCount := 0;
     rateLimited := false;
     rateLimitStartTime := None;
     cooldownDuration := None;
     console := [] |}.

Definition log (l : log_line) (st : state) : state :=
  mkState (requestCount st) (rateLimited st) (rateLimitStartTime st)
    (cooldownDuration st) (l :: console st).

(** [response.ok]: the status is in the range 200-299. *)
Definition ok (status : Z) : bool := (200 <=? status) && (status <=? 299).

(** One turn of the loop (lines 22-47); [true] when it ends in [break]. *)
Definition turn (f : fetched) (st : state) : state * bool :=
  match f with
  | Response status time =>
      let st :=
        if rateLimited st then st
        else mkState (requestCount st + 1) (rateLimited st)
               (rateLimitStartTime st) (cooldownDuration st) (console st) in
      if status =? 429 then
        let st :=
          if rateLimited st then st
          else log (LogLimitReached (requestCount st)) st in
        (mkState (requestCount st) true (Some time) (cooldownDuration st)
           (console st),
         false)
      else if ok status then
        if rateLimited st then
          (* [Date.now() - rateLimitStartTime]; [null] counts as 0 *)
          let duration := time - default 0 (rateLimitStartTime st) in
          (log (LogCooldownEnded duration)
             (mkState (requestCount st) (rateLimited st)
                (rateLimitStartTime st) (Some duration) (console st)),
           true)
        else (st, false)
      else (log (LogStatus status (requestCount st)) st, false)
  | Failed => (log (LogFailed (requestCount st)) st, false)
  end.

(** The loop of lines 21-51 against the outcomes of its requests.
    [None]: the loop is still running when the outcomes are used up. *)
Fixpoint loop (fs : list fetched) (st : state) : option state :=
  match fs with
  | [] => None
  | f :: fs =>
      match turn f st with
      | (st, true) => Some st
      | (st, false) => loop fs st
      end
  end.

(** Lines 53-57. *)
Definition report (st : state) : state :=
  let st := log (LogTotal (requestCount st)) (log LogFinished st) in
  match cooldownDuration st with
  | Some ms => log (LogEstimated ms) st
  | None => st
  end.

(** [main] (lines 15-58). *)
Definition main (fs : list fetched) : option state :=
  report <$> loop fs (log LogStarting initial).

End RateLimitTest.

(** * The vocabulary of the properties *)

(** ** Outcomes of a request *)

(** A failure that is not a rate limit: a response whose status is not
    429, or no response at all. *)
Definition transient (o : http_outcome) : Prop :=
  match o with
  | RejectedStatus s => s ≠ 429
  | RejectedNoResponse => True
  | Fulfilled _ => False
  end.

(** Whether the outcome [o] of the request of [queryAPI(prefix, attempt)]
    makes the call return, rather than retry. *)
Definition ends_call (attempt : Z) (o : http_outcome) : bool :=
  match o with
  | Fulfilled data =>
      match get_results data with
      | Some _ => true
      | None => MAX_ATTEMPTS <? attempt
      end
  | RejectedStatus s => negb (s =? 429) && (MAX_ATTEMPTS <? attempt)
  | RejectedNoResponse => MAX_ATTEMPTS <? attempt
  end.

(** The body of a 2xx response has an array under [results], or a falsy
    value, or nothing; or it cannot be read at all. *)
Definition array_or_absent (o : http_outcome) : Prop :=
  match o with
  | Fulfilled data =>
      match get_results data with
      | Some v => truthy v = false ∨ ∃ items, v = JArr items
      | None => True
      end
  | RejectedStatus _ | RejectedNoResponse => True
  end.

(** One 429 for each sample of [rs]. *)
Definition rate_limited (rs : list Q) : list (http_outcome * Q) :=
  (λ r, (RejectedStatus 429, r)) <$> rs.

(** The state in which [queryAPI(prefix, attempt)] makes its next request
    after one 429 for each sample of [rs]. *)
Fixpoint after_rate_limits (p : string) (a : Z) (rs : list Q) (st : state)
    : state :=
  match rs with
  | [] => st
  | r :: rs =>
      let st := queryAPI_enter p a st in
      let st := adjustConcurrency (scaled_down (currentConcurrency st)) st in
      after_rate_limits p (a + 1) rs
        (set_now (now st + delay RATE_LIMIT_COOLDOWN_MS r) st)
  end.

(** ** The controller *)

(** The bound on the concurrency, and the queue following it. *)
Definition concurrency_ok (st : state) : Prop :=
  MIN_CONCURRENCY ≤ currentConcurrency st ≤ MAX_CONCURRENCY
  ∧ queueConcurrency st = currentConcurrency st.

(** [pending + size] of line 95. *)
Definition backlog (st : state) : Z :=
  Z.of_nat (length (running st)) + Z.of_nat (length (waiting st)).

(** ** Expansion *)

(** The children of [prefix] that the loop of lines 161-167 hands to the
    queue: one per character, in the order of the alphabet, those in
    [visited] left out. *)
Definition children (prefix : string) (visited : list string) : list string :=
  (λ char, prefix +:+ char)
    <$> filter (λ char, prefix +:+ char ∉ visited) VALID_CHARACTERS.

(** ** Snapshots *)

(** The snapshots written to [PROGRESS_FILE] so far, newest first. *)
Definition snapshots (st : state) : list snapshot :=
  omap (λ f, match f with
             | (name, ProgressData s) =>
                 if String.eqb name PROGRESS_FILE then Some s else None
             | (_, NamesOnly _) => None
             end) (files st).

(** The order of C9 on snapshots. *)
Definition snap_le (s1 s2 : snapshot) : Prop :=
  snap_names s1 ⊆ snap_names s2
  ∧ snap_totalRequests s1 ≤ snap_totalRequests s2.

(** A snapshot that holds no more than the current state. *)
Definition below_state (st : state) (s : snapshot) : Prop :=
  snap_names s ⊆ discoveredNames st ∧ snap_totalRequests s ≤ totalRequests st.

(** Newest first, each snapshot is above all the older ones. *)
Fixpoint descending (l : list snapshot) : Prop :=
  match l with
  | [] => True
  | s :: l => Forall (λ s', snap_le s' s) l ∧ descending l
  end.

(** Every snapshot is below the current state, and below the later ones. *)
Definition snap_inv (st : state) : Prop :=
  Forall (below_state st) (snapshots st) ∧ descending (snapshots st).

(** ** The steps of the event loop as a relation *)

(** The steps of the event loop as a relation, one rule for each way
    [exec] succeeds. *)
Inductive step_of : label → state → state → Prop :=
  | step_start_skip p rest st :
      waiting st = p :: rest → queue_allows st = true →
      p ∈ visitedPrefixes st →
      step_of LStart st
        (set_intervalCount (intervalCount st + 1) (set_waiting rest st))
  | step_start p rest st :
      waiting st = p :: rest → queue_allows st = true →
      p ∉ visitedPrefixes st →
      step_of LStart st
        (set_running (running st ++ [AwaitResponse p 1])
           (queryAPI_enter p 1
              (set_visitedPrefixes (visitedPrefixes st ++ [p])
                 (set_intervalCount (intervalCount st + 1)
                    (set_waiting rest st)))))
  | step_retry i p a o r ms st st1 :
      running st !! i = Some (AwaitResponse p a) →
      queryAPI_settle p a o r st = (st1, Retry ms) →
      step_of (LResponse i o r) st
        (set_running (<[i := AwaitRetry p a (now st1 + ms)]> (running st1)) st1)
  | step_return i p a o r v k st st1 st2 :
      running st !! i = Some (AwaitResponse p a) →
      queryAPI_settle p a o r st = (st1, Return v) →
      processPrefix_resume p v r st1 = (st2, Some k) →
      step_of (LResponse i o r) st (set_running (<[i := k]> (running st2)) st2)
  | step_reject i p a o r v st st1 st2 :
      running st !! i = Some (AwaitResponse p a) →
      queryAPI_settle p a o r st = (st1, Return v) →
      processPrefix_resume p v r st1 = (st2, None) →
      step_of (LResponse i o r) st (set_running (delete i (running st2)) st2)
  | step_wake i p a due st :
      running st !! i = Some (AwaitRetry p a due) → due ≤ now st →
      step_of (LWake i) st
        (set_running (<[i := AwaitResponse p (a + 1)]> (running st))
           (queryAPI_enter p (a + 1) st))
  | step_finish i p due st :
      running st !! i = Some (AwaitFinish p due) → due ≤ now st →
      step_of (LFinish i) st (set_running (delete i (running st)) st)
  | step_monitor st :
      monitorDue st ≤ now st →
      step_of LMonitor st
        (monitorBacklog (set_monitorDue (now st + MONITOR_PERIOD_MS) st))
  | step_interval st :
      intervalEnd st ≤ now st →
      step_of LInterval st
        (set_intervalCount 0 (set_intervalEnd (now st + INTERVAL_MS) st))
  | step_idle st :
      waiting st = [] → running st = [] → finished st = false →
      step_of LIdle st (extractAllNames_end st)
  | step_time dt st :
      0 ≤ dt → step_of (LTime dt) st (set_now (now st + dt) st).

(** ** A call of [queryAPI] as steps of the event loop *)

(** The steps of job [i] for [queryAPI script prefix attempt st]. *)
Fixpoint steps_of_call (i : nat) (script : list (http_outcome * Q))
    (prefix : string) (attempt : Z) (st : state) : list label :=
  match script with
  | [] => []
  | (o, r) :: script =>
      match queryAPI_settle prefix attempt o r (queryAPI_enter prefix attempt st) with
      | (_, Return _) => [LResponse i o r]
      | (st, Retry ms) =>
          [LResponse i o r; LTime ms; LWake i]
          ++ steps_of_call i script prefix (attempt + 1)
               (set_now (now st + ms) st)
      end
  end.

(** The sample of the last request of the call, which the last [delay] of
    [processPrefix] draws in the event loop. *)
Fixpoint last_sample (script : list (http_outcome * Q)) (prefix : string)
    (attempt : Z) (st : state) : Q :=
  match script with
  | [] => 0
  | (o, r) :: script =>
      match queryAPI_settle prefix attempt o r (queryAPI_enter prefix attempt st) with
      | (_, Return _) => r
      | (st, Retry ms) =>
          last_sample script prefix (attempt + 1) (set_now (now st + ms) st)
      end
  end.

(** ** Queries per prefix *)

(** The prefixes for which [queryAPI(prefix)] was called by
    [processPrefix] (the calls with [attempt = 1]), newest first. *)
Definition queried (st : state) : list string :=
  call_prefix <$> filter (λ c, call_attempt c = 1) (calls st).

(** The attempt number a job is at. *)
Definition cont_attempt (k : cont) : Z :=
  match k with
  | AwaitResponse _ a | AwaitRetry _ a _ => a
  | AwaitFinish _ _ => 1
  end.

(** No prefix was queried twice, the queried prefixes are visited, and
    the attempts of the jobs count from 1. *)
Definition once_inv (st : state) : Prop :=
  NoDup (queried st)
  ∧ queried st ⊆ visitedPrefixes st
  ∧ Forall (λ k, 1 ≤ cont_attempt k) (running st).

(** ** Prefixes as the nodes of a tree *)

(** The characters of a string. *)
Abbreviation chars := String.list_ascii_of_string.

(** The prefixes the script can build: a character of the alphabet, or a
    prefix followed by one. *)
Inductive is_node : string → Prop :=
  | node_root c : c ∈ VALID_CHARACTERS → is_node c
  | node_child p c : is_node p → c ∈ VALID_CHARACTERS → is_node (p +:+ c).

(** The prefix a job is still querying. *)
Definition unanswered (k : cont) : option string :=
  match k with
  | AwaitResponse p _ | AwaitRetry p _ _ => Some p
  | AwaitFinish _ _ => None
  end.

(** The frontier as a tree: the prefixes in the queue and in the jobs are
    nodes; whatever was handed to the queue is an initial prefix or the
    child of a prefix whose query returned 15 items; a prefix has at most
    one query, running or answered, and is then in the visited set. *)
Definition tree_inv_on (w : list string) (rn : list cont)
    (ans : list (string * json)) (ad vis : list string) : Prop :=
  Forall is_node w
  ∧ Forall (λ k, is_node (cont_prefix k)) rn
  ∧ Forall (λ x, is_node x.1) ans
  ∧ (∀ q, q ∈ ad →
       q ∈ VALID_CHARACTERS
       ∨ ∃ p c items,
           q = p +:+ c ∧ c ∈ VALID_CHARACTERS ∧ (p, JArr items) ∈ ans
           ∧ Z.of_nat (length items) = MAX_RESULTS_PER_QUERY)
  ∧ NoDup (omap unanswered rn ++ ans.*1)
  ∧ (∀ p, p ∈ omap unanswered rn ++ ans.*1 → p ∈ vis).

(** [tree_inv_on] of the state. *)
Definition tree_inv (st : state) : Prop :=
  tree_inv_on (waiting st) (running st) (answers st) (added st)
    (visitedPrefixes st).

(** ** Requests per window, and the runs used as examples *)

(** The requests sent in the window of [INTERVAL_MS] that starts at [t]. *)
Definition requests_in_window (t : Z) (st : state) : nat :=
  length (filter (λ c, t ≤ call_time c < t + INTERVAL_MS) (calls st)).

(** A whole run: every initial prefix is answered with one name, nothing
    is expanded, and the final state is saved twice. *)
Definition short_run : list label :=
  (VALID_CHARACTERS ≫= λ char,
     [LStart;
      LResponse 0 (Fulfilled (JObj [("results", JArr [JStr (char +:+ "x")])])) 0;
      LTime 500;
      LFinish 0])
  ++ [LIdle].

(** Two jobs start at time 0.  Every request is answered with 429 after
    100 ms, and every cooldown draws the largest jitter, so each job sends
    a request every 1299 ms. *)
Definition two_rate_limited_jobs : list label :=
  [LStart; LStart]
  ++ (replicate 46 () ≫= λ _,
        [LTime 100;
         LResponse 0 (RejectedStatus 429) (255 # 256);
         LResponse 1 (RejectedStatus 429) (255 # 256);
         LTime 1199;
         LWake 0;
         LWake 1]).

(** One job from its start to its end, alone in the queue, with a 2xx
    response at once. *)
Definition one_job (data : json) : list label :=
  [LStart; LResponse 0 (Fulfilled data) 0; LTime 500; LFinish 0].

(** Eighty jobs start within 40 seconds: the first finds 15 names and is
    expanded, the next 78 find nothing, and the last one is answered with
    429 and waits for its cooldown. *)
Definition eighty_jobs : list label :=
  one_job (JObj [("results",
                  JArr ((λ c, JStr ("0" +:+ c)) <$> take 15 VALID_CHARACTERS))])
  ++ (replicate 78 () ≫= λ _, one_job (JObj [("results", JArr [])]))
  ++ [LStart; LTime 100; LResponse 0 (RejectedStatus 429) 0; LTime 1000].

(** ** Reading a query string

    What the receiver of a URL does with a component: [%XX] stands for the
    byte with the hexadecimal code [XX], any other character for itself.
    [None]: a [%] that two hexadecimal digits do not follow. *)

Definition hex_value (c : ascii) : option N :=
  let n := N_of_ascii c in
  if (48 <=? n)%N && (n <=? 57)%N then Some (n - 48)%N
  else if (65 <=? n)%N && (n <=? 70)%N then Some (n - 55)%N
  else if (97 <=? n)%N && (n <=? 102)%N then Some (n - 87)%N
  else None.

Fixpoint percent_decode (l : list ascii) : option (list ascii) :=
  match l with
  | [] => Some []
  | c :: rest =>
      if Ascii.eqb c "%" then
        match rest with
        | hi :: lo :: rest' =>
            h ← hex_value hi;
            l ← hex_value lo;
            s ← percent_decode rest';
            Some (ascii_of_N (16 * h + l) :: s)
        | _ => None
        end
      else cons c <$> percent_decode rest
  end.

(** Whether the characters [%20], an encoded space, occur in a string. *)
Fixpoint has_encoded_space (l : list ascii) : bool :=
  match l with
  | [] => false
  | c :: rest =>
      match rest with
      | c1 :: c2 :: _ =>
          (Ascii.eqb c "%" && Ascii.eqb c1 "2" && Ascii.eqb c2 "0")
          || has_encoded_space rest
      | _ => false
      end
  end.

(** ** The progress file

    The number of names in the progress file: [totalNames] of the newest
    snapshot, none before the first one is written. *)
Definition saved_names (st : state) : Z :=
  from_option snap_totalNames 0 (head (snapshots st)).

(** ** Requests in flight *)

Definition awaits_response (k : cont) : bool :=
  match k with
  | AwaitResponse _ _ => true
  | AwaitRetry _ _ _ | AwaitFinish _ _ => false
  end.

(** The requests sent and not settled. *)
Definition in_flight (st : state) : nat :=
  length (filter (λ k, awaits_response k = true) (running st)).

(** ** More runs used as examples *)

(** Two jobs start; the first is answered with 429 and sends its request
    again after the cooldown. *)
Definition one_retry : list label :=
  [LStart; LStart; LResponse 0 (RejectedStatus 429) 0; LTime 1000; LWake 0].

(** A body with 15 names for the prefix "0". *)
Definition full_page : json :=
  JObj [("results", JArr ((λ c, JStr ("0" +:+ c)) <$> take 15 VALID_CHARACTERS))].

(** The first job starts and is answered with a full page. *)
Definition one_full_page : list label :=
  [LStart; LResponse 0 (Fulfilled full_page) 0].

(** ** Runs with samples of [Math.random()] *)

(** The sample of a step is one that [Math.random()] can return. *)
Definition samples_ok (l : label) : Prop :=
  match l with
  | LResponse _ _ r => is_sample r
  | _ => True
  end.

(** The least time between two requests for one prefix: the cooldown of
    line 127, which is also the first backoff of line 132. *)
Definition min_retry_ms : Z :=
  Eval cbv in Z.min RATE_LIMIT_COOLDOWN_MS (BASE_DELAY_MS * 2 ^ 1).

(** A job that waits for a retry waits until [min_retry_ms] after the
    requests made for its prefix. *)
Definition job_spaced (cs : list call) (k : cont) : Prop :=
  match k with
  | AwaitRetry p _ due =>
      ∀ c, c ∈ cs → call_prefix c = p → call_time c + min_retry_ms ≤ due
  | AwaitResponse _ _ | AwaitFinish _ _ => True
  end.

(** The calls of [queryAPI] are spaced: no call is in the future, the
    jobs are as above, and of two calls for one prefix the later ([calls]
    has the newest first) follows the earlier by [min_retry_ms] at
    least. *)
Definition spaced (st : state) : Prop :=
  Forall (λ c, call_time c ≤ now st) (calls st)
  ∧ Forall (job_spaced (calls st)) (running st)
  ∧ (∀ i j c1 c2,
       (i < j)%nat →
       calls st !! i = Some c1 → calls st !! j = Some c2 →
       call_prefix c1 = call_prefix c2 →
       call_time c2 + min_retry_ms ≤ call_time c1).

(** ** The concurrency in the log *)

(** The newest line [Adjusted concurrency: c] of the console. *)
Fixpoint last_adjusted (lines : list log_line) : option Z :=
  match lines with
  | [] => None
  | LogAdjusted c :: _ => Some c
  | _ :: lines => last_adjusted lines
  end.

(** ** The outcomes seen by the probe *)

(** The request was answered with 429. *)
Definition is_limit (f : RateLimitTest.fetched) : Prop :=
  match f with
  | RateLimitTest.Response status _ => status = 429
  | RateLimitTest.Failed => False
  end.

(** The request was answered with a status in the range 200-299. *)
Definition is_success (f : RateLimitTest.fetched) : Prop :=
  match f with
  | RateLimitTest.Response status _ => RateLimitTest.ok status = true
  | RateLimitTest.Failed => False
  end.

(** The request was answered at all. *)
Definition is_response (f : RateLimitTest.fetched) : bool :=
  match f with
  | RateLimitTest.Response _ _ => true
  | RateLimitTest.Failed => false
  end.

(** The time of the last 429 among [fs], and [t] if there is none. *)
Definition last_limit (t : Z) (fs : list RateLimitTest.fetched) : Z :=
  foldl (λ t f,
           match f with
           | RateLimitTest.Response status time =>
               if status =? 429 then time else t
           | RateLimitTest.Failed => t
           end) t fs.

(** ** The calls for one prefix *)

(** The calls of [queryAPI] for the prefix [p], newest first. *)
Definition calls_for (p : string) (st : state) : list call :=
  filter (λ c, call_prefix c = p) (calls st).

(** A job that is still querying has made as many requests for its prefix
    as its attempt number tells. *)
Definition job_counted (st : state) (k : cont) : Prop :=
  ∀ q, unanswered k = Some q →
       Z.of_nat (length (calls_for q st)) = cont_attempt k.

(** The calls for a prefix are numbered from 1, in the order in which
    they were made. *)
Definition attempts_inv (st : state) : Prop :=
  (∀ q, call_attempt <$> calls_for q st
        = reverse (seqZ 1 (Z.of_nat (length (calls_for q st)))))
  ∧ Forall (job_counted st) (running st).

(** ** The lines of [queryAPI] in the log *)

(** The lines written by neither line 133 nor line 137. *)
Definition quiet (l : log_line) : Prop :=
  match l with
  | LogRetrying _ _ _ | LogFailed _ _ => False
  | _ => True
  end.

(** The attempt of a line "Error fetching prefix p (attempt a) ...
    Retrying in ...". *)
Definition backoff_of (p : string) (l : log_line) : option Z :=
  match l with
  | LogRetrying q a _ => if decide (q = p) then Some a else None
  | _ => None
  end.

(** The attempts of [p] after which a retry with backoff was logged,
    newest first. *)
Definition backoffs (p : string) (st : state) : list Z :=
  omap (backoff_of p) (console st).

(** What a line of [queryAPI] in the log tells about the state: a retry
    was logged at an attempt from 1 to 5 with its delay, the request of
    that attempt was made and every request for the prefix that is on its
    way has a later attempt; a prefix was given up after more than 5
    attempts, which are all its requests, and its answer is empty. *)
Definition line_ok (st : state) (l : log_line) : Prop :=
  match l with
  | LogRetrying p a d =>
      1 ≤ a ≤ MAX_ATTEMPTS ∧ d = BASE_DELAY_MS * 2 ^ a
      ∧ a ≤ Z.of_nat (length (calls_for p st))
      ∧ ∀ a', AwaitResponse p a' ∈ running st → a < a'
  | LogFailed p a =>
      MAX_ATTEMPTS < a ∧ Z.of_nat (length (calls_for p st)) = a
      ∧ (p, JArr []) ∈ answers st
  | _ => True
  end.

Definition log_inv (st : state) : Prop :=
  Forall (line_ok st) (console st) ∧ ∀ p, NoDup (backoffs p st).

(** How a step moves the requests, the answers and the jobs. *)
Definition progress (st st' : state) : Prop :=
  (∀ p, (length (calls_for p st) ≤ length (calls_for p st'))%nat)
  ∧ (∀ p, p ∈ (answers st).*1 → calls_for p st' = calls_for p st)
  ∧ answers st ⊆ answers st'
  ∧ (∀ p a, AwaitResponse p a ∈ running st' →
       AwaitResponse p a ∈ running st
       ∨ Z.of_nat (length (calls_for p st)) < a).

(** The first job fails with no response six times in a row, each retry
    at the end of its backoff. *)
Definition six_failures : list label :=
  [LStart]
  ++ ([1; 2; 3; 4; 5] ≫= λ a,
        [LResponse 0 RejectedNoResponse 0; LTime (BASE_DELAY_MS * 2 ^ a);
         LWake 0])
  ++ [LResponse 0 RejectedNoResponse 0].

(** * Properties *)

Local Arguments expand : simpl never.
Local Arguments add_names : simpl never.
Local Arguments extractAllNames_begin : simpl never.
Local Arguments VALID_CHARACTERS : simpl never.
Local Arguments clamp : simpl never.
Local Arguments scaled_down : simpl never.
Local Arguments delay : simpl never.
Local Arguments Z.pow : simpl never.
Local Arguments Z.mul : simpl never.
Local Arguments Z.add : simpl never.

(** ** The embedding on small inputs *)

Example alphabet_size :
  length VALID_CHARACTERS = 40%nat ∧ last VALID_CHARACTERS = Some "%20".
Proof. by vm_compute. Qed.

Example scaled_down_26 : scaled_down 26 = 23 ∧ clamp (scaled_down 5) = 5.
Proof. by vm_compute. Qed.

Example delay_largest_jitter : delay 1000 (255 # 256) = 1199.
Proof. by vm_compute. Qed.

(** The product of line 51 and the quotient of line 195 are doubles: at
    the double 0.11499999999999999 the jitter is 23, not 22, and 1005 ms
    are 1.00 s, as [(1.005).toFixed(2)] is. *)
Example doubles_round :
  jitter_of (517913957147607 # 4503599627370496) = 23
  ∧ Qfloor ((517913957147607 # 4503599627370496) * 200) = 22
  ∧ seconds_elapsed 1005 = 100 ∧ seconds_elapsed 1015 = 101
  ∧ seconds_elapsed 5 = 1.
Proof. by vm_compute. Qed.

Example results_absent :
  (λ v, js_or v (JArr [])) <$> get_results (JObj [("count", JNum 3)])
  = Some (JArr [])
  ∧ get_results JNull = None.
Proof. by vm_compute. Qed.

Example names_are_a_set :
  add_names [JStr "ab"; JStr "ac"; JStr "ab"] [JStr "ac"]
  = [JStr "ac"; JStr "ab"].
Proof. by vm_compute. Qed.

(** The first job: "0" is visited when the job starts, one request is
    sent, two names come back, nothing is expanded, and the job is in its
    last delay. *)
Example first_job :
  (λ st, (visitedPrefixes st, totalRequests st, discoveredNames st,
          running st, length (waiting st), currentConcurrency st))
    <$> run [LStart;
             LResponse 0 (Fulfilled (JObj [("results",
                                            JArr [JStr "01"; JStr "02"])])) 0]
          (extractAllNames_begin initial)
  = Some (["0"], 1, [JStr "01"; JStr "02"], [AwaitFinish "0" 500], 39%nat, 27).
Proof. by vm_compute. Qed.

(** ** Arithmetic of the controller and of [delay] *)

Lemma scaled_down_div (c : Z) : scaled_down c = c * 9 / 10.
Proof.
  unfold scaled_down, CONCURRENCY_ADJUSTMENT_DOWN_FACTOR, Qfloor, Qmult, inject_Z.
  simpl Qnum. simpl Qden. reflexivity.
Qed.

Lemma scaled_down_lt (c : Z) : 0 < c → scaled_down c < c.
Proof.
  intros Hc. rewrite scaled_down_div.
  apply Z.div_lt_upper_bound; lia.
Qed.

Lemma clamp_bounds (n : Z) : MIN_CONCURRENCY ≤ clamp n ≤ MAX_CONCURRENCY.
Proof. unfold clamp, MIN_CONCURRENCY, MAX_CONCURRENCY. lia. Qed.

Lemma clamp_up (c : Z) :
  MIN_CONCURRENCY ≤ c ≤ MAX_CONCURRENCY →
  clamp (c + CONCURRENCY_ADJUSTMENT_UP) = Z.min MAX_CONCURRENCY (c + 1).
Proof.
  unfold clamp, MIN_CONCURRENCY, MAX_CONCURRENCY, CONCURRENCY_ADJUSTMENT_UP. lia.
Qed.

Lemma clamp_down (c : Z) :
  MIN_CONCURRENCY ≤ c ≤ MAX_CONCURRENCY →
  clamp (scaled_down c) = Z.max MIN_CONCURRENCY (c * 9 / 10).
Proof.
  intros Hc. pose proof (scaled_down_lt c) as Hlt.
  rewrite <- scaled_down_div.
  unfold clamp, MIN_CONCURRENCY, MAX_CONCURRENCY in *. lia.
Qed.

(** ** Powers of two *)

Lemma pow2_pos (k : Z) : (0 < 2 ^ k)%Q.
Proof. by apply Qpower_0_lt. Qed.

Lemma pow2_add (a b : Z) : (2 ^ (a + b) == 2 ^ a * 2 ^ b)%Q.
Proof. by apply Qpower_plus. Qed.

Lemma pow2_le (a b : Z) : a ≤ b → (2 ^ a <= 2 ^ b)%Q.
Proof. intros H. by apply Qpower_le_compat_l. Qed.

Lemma pow2_lt (a b : Z) : a < b → (2 ^ a < 2 ^ b)%Q.
Proof. intros H. by apply Qpower_lt_compat_l. Qed.

Lemma pow2_lt_inv (a b : Z) : (2 ^ a < 2 ^ b)%Q → a < b.
Proof. intros H. by apply (Qpower_lt_compat_l_inv 2). Qed.

Lemma pow2_Z (k : Z) : 0 ≤ k → (2 ^ k == inject_Z (2 ^ k))%Q.
Proof. intros H. symmetry. by apply (Zpower_Qpower 2). Qed.

Lemma pow2_opp (k : Z) : (2 ^ (- k) == / 2 ^ k)%Q.
Proof. apply Qpower_opp. Qed.

(** ** The exponent *)

Lemma Qabs_nonneg_eq (x : Q) : (0 <= x)%Q → Qabs x = x.
Proof.
  destruct x as [n d]. unfold Qle. simpl. intros H.
  rewrite Z.abs_eq; [done | lia].
Qed.

Lemma exponent_spec (x : Q) :
  (0 < x)%Q → (2 ^ exponent x <= x)%Q ∧ (x < 2 ^ (exponent x + 1))%Q.
Proof.
  intros Hx. unfold exponent. rewrite Qabs_nonneg_eq by lra. cbv zeta.
  destruct (Qle_bool 1 x) eqn:Hone.
  - apply Qle_bool_iff in Hone.
    assert (1 ≤ Qfloor x) as Hf.
    { rewrite <- (Qfloor_Z 1). by apply Qfloor_resp_le. }
    destruct (Z.log2_spec (Qfloor x)) as [Hlo Hhi]; [lia|].
    pose proof (Z.log2_nonneg (Qfloor x)) as Hnn.
    pose proof (Qfloor_le x) as Hle. pose proof (Qlt_floor x) as Hlt.
    rewrite !pow2_Z by lia. split.
    + rewrite Zle_Qle in Hlo. lra.
    + assert (Qfloor x + 1 ≤ 2 ^ (Z.log2 (Qfloor x) + 1)) as H1
        by (unfold Z.succ in Hhi; lia).
      rewrite Zle_Qle in H1. lra.
  - assert (x < 1)%Q as Hlt1.
    { destruct (Qlt_le_dec x 1) as [?|Hge]; [done|].
      apply Qle_bool_iff in Hge. congruence. }
    assert (1 < / x)%Q as Hinv.
    { apply Qlt_shift_inv_l; [done | lra]. }
    set (c := Qceiling (/ x)).
    pose proof (Qle_ceiling (/ x)) as Hc1.
    pose proof (Qceiling_lt (/ x)) as Hc2. fold c in Hc1, Hc2.
    assert (1 < c) as Hc.
    { rewrite Zlt_Qlt. change (inject_Z 1) with 1%Q. lra. }
    destruct (Z.log2_up_spec c Hc) as [Hlo Hhi].
    pose proof (Z.log2_up_pos c Hc) as Hk.
    set (k := Z.log2_up c) in *.
    assert (0 < / x)%Q as Hix by lra.
    split.
    + rewrite pow2_opp, pow2_Z by lia.
      rewrite Zle_Qle in Hhi.
      apply Qle_shift_inv_r.
      * pose proof (pow2_pos k). rewrite pow2_Z in H by lia. done.
      * assert (/ x * x == 1)%Q as E by (rewrite Qmult_comm; apply Qmult_inv_r; lra).
        assert (/ x * x <= inject_Z (2 ^ k) * x)%Q
          by (apply Qmult_le_compat_r; lra).
        lra.
    + replace (- k + 1) with (- (k - 1)) by lia.
      rewrite pow2_opp, pow2_Z by lia.
      assert (2 ^ (k - 1) ≤ c - 1) as H1.
      { replace (Z.pred k) with (k - 1) in Hlo by lia. lia. }
      rewrite Zle_Qle in H1.
      assert (0 < inject_Z (2 ^ (k - 1)))%Q as Hp.
      { pose proof (pow2_pos (k - 1)) as H. rewrite pow2_Z in H by lia. done. }
      apply Qlt_shift_inv_l; [done|].
      assert (/ x * x == 1)%Q as E by (rewrite Qmult_comm; apply Qmult_inv_r; lra).
      assert (inject_Z (2 ^ (k - 1)) * x < / x * x)%Q
        by (apply Qmult_lt_compat_r; lra).
      lra.
Qed.

(** ** Rounding to the nearest integer, ties to even *)

Lemma round_half_even_bounds (y : Q) :
  Qfloor y ≤ round_half_even y ≤ Qfloor y + 1.
Proof.
  unfold round_half_even. cbv zeta.
  destruct (Qcompare _ _); [destruct (Z.even _)|..]; lia.
Qed.


Lemma round_half_even_Z (n : Z) : round_half_even (inject_Z n) = n.
Proof.
  unfold round_half_even. cbv zeta. rewrite Qfloor_Z.
  destruct (Qcompare_spec (inject_Z n - inject_Z n) (1 # 2)) as [H|H|H];
    [lra | done | lra].
Qed.

Lemma round_half_even_mono (y y' : Q) :
  (y <= y')%Q → round_half_even y ≤ round_half_even y'.
Proof.
  intros Hle. pose proof (Qfloor_resp_le y y' Hle) as Hf.
  pose proof (round_half_even_bounds y) as Hb.
  pose proof (round_half_even_bounds y') as Hb'.
  destruct (decide (Qfloor y = Qfloor y')) as [Heq|Hne]; [|lia].
  clear Hb Hb'. unfold round_half_even. cbv zeta. rewrite <- Heq.
  destruct (Qcompare_spec (y - inject_Z (Qfloor y)) (1 # 2)) as [H|H|H];
    destruct (Qcompare_spec (y' - inject_Z (Qfloor y)) (1 # 2)) as [H'|H'|H'];
    try destruct (Z.even _); try lia; lra.
Qed.

Lemma round_half_even_le_Z (y : Q) (n : Z) :
  (y <= inject_Z n)%Q → round_half_even y ≤ n.
Proof.
  intros H. rewrite <- (round_half_even_Z n). by apply round_half_even_mono.
Qed.

Lemma round_half_even_ge_Z (y : Q) (n : Z) :
  (inject_Z n <= y)%Q → n ≤ round_half_even y.
Proof.
  intros H. rewrite <- (round_half_even_Z n) at 1.
  by apply round_half_even_mono.
Qed.

Lemma round_half_even_eq_Z (y : Q) (n : Z) :
  (y == inject_Z n)%Q → round_half_even y = n.
Proof.
  intros H. apply Z.le_antisymm.
  - apply round_half_even_le_Z. lra.
  - apply round_half_even_ge_Z. lra.
Qed.

(** ** Rounding to a double *)

Lemma ulp_pos (q : Q) : (0 < ulp q)%Q.
Proof. apply pow2_pos. Qed.

Lemma round_double_nonneg (x : Q) : (0 <= x)%Q → (0 <= round_double x)%Q.
Proof.
  intros Hx. unfold round_double. pose proof (ulp_pos x) as Hu.
  apply Qmult_le_0_compat; [|lra].
  change 0%Q with (inject_Z 0). rewrite <- Zle_Qle.
  apply round_half_even_ge_Z. change (inject_Z 0) with 0%Q.
  apply Qle_shift_div_l; [done | lra].
Qed.

(** [p] is on the grid of [x]: rounding [x] does not cross it. *)
Lemma round_double_le_grid (x p : Q) (n : Z) :
  (p == inject_Z n * ulp x)%Q → (x <= p)%Q → (round_double x <= p)%Q.
Proof.
  intros Hp Hx. unfold round_double. pose proof (ulp_pos x) as Hu.
  rewrite Hp. apply Qmult_le_compat_r; [|lra].
  rewrite <- Zle_Qle. apply round_half_even_le_Z.
  apply Qle_shift_div_r; [done | lra].
Qed.

Lemma round_double_ge_grid (x p : Q) (n : Z) :
  (p == inject_Z n * ulp x)%Q → (p <= x)%Q → (p <= round_double x)%Q.
Proof.
  intros Hp Hx. unfold round_double. pose proof (ulp_pos x) as Hu.
  rewrite Hp. apply Qmult_le_compat_r; [|lra].
  rewrite <- Zle_Qle. apply round_half_even_ge_Z.
  apply Qle_shift_div_l; [done | lra].
Qed.

Lemma exponent_mono (x y : Q) :
  (0 < x)%Q → (x <= y)%Q → exponent x ≤ exponent y.
Proof.
  intros Hx Hxy.
  destruct (exponent_spec x Hx) as [Hlo _].
  destruct (exponent_spec y) as [_ Hhi]; [lra|].
  assert (2 ^ exponent x < 2 ^ (exponent y + 1))%Q as H by lra.
  apply pow2_lt_inv in H. lia.
Qed.

(** Rounding is monotone. *)
Lemma round_double_mono (x y : Q) :
  (0 <= x)%Q → (x <= y)%Q → (round_double x <= round_double y)%Q.
Proof.
  intros Hx Hxy.
  destruct (Qlt_le_dec 0 x) as [Hpos|Hzero].
  - pose proof (exponent_mono x y Hpos Hxy) as He.
    destruct (exponent_spec x Hpos) as [_ Hxhi].
    destruct (exponent_spec y) as [Hylo _]; [lra|].
    destruct (decide (Z.max (exponent x) (-1022) = Z.max (exponent y) (-1022)))
      as [Heq|Hne].
    + unfold round_double, ulp. rewrite <- Heq.
      set (u := (2 ^ _)%Q). assert (0 < u)%Q as Hu by apply pow2_pos.
      apply Qmult_le_compat_r; [|lra].
      rewrite <- Zle_Qle. apply round_half_even_mono.
      unfold Qdiv. apply Qmult_le_compat_r; [done|].
      apply Qlt_le_weak. by apply Qinv_lt_0_compat.
    + set (cx := Z.max (exponent x) (-1022)) in *.
      assert (cx < exponent y ∧ -1022 < exponent y) as [Hc Hy] by lia.
      apply Qle_trans with (2 ^ exponent y)%Q.
      * apply (round_double_le_grid x _ (2 ^ (exponent y - cx + 52))).
        -- unfold ulp. fold cx. rewrite <- pow2_Z by lia.
           rewrite <- pow2_add. by replace (exponent y - cx + 52 + (cx - 52))
             with (exponent y) by lia.
        -- assert (2 ^ (exponent x + 1) <= 2 ^ exponent y)%Q
             by (apply pow2_le; lia).
           lra.
      * apply (round_double_ge_grid y _ (2 ^ 52)); [|done].
        unfold ulp. rewrite Z.max_l by lia. rewrite <- pow2_Z by lia.
        rewrite <- pow2_add. by replace (52 + (exponent y - 52))
          with (exponent y) by lia.
  - apply Qle_trans with 0%Q; [|apply round_double_nonneg; lra].
    apply (round_double_le_grid x 0 0); [|done]. 
    change (inject_Z 0) with 0%Q. lra.
Qed.

(** The integers below 2^53 are doubles. *)
Lemma round_double_Z (n : Z) :
  0 ≤ n < 2 ^ 53 → (round_double (inject_Z n) == inject_Z n)%Q.
Proof.
  intros [H0 H53]. destruct (decide (n = 0)) as [->|Hn].
  { apply Qle_antisym.
    - apply (round_double_le_grid _ _ 0); [|done]. change (inject_Z 0) with 0%Q. lra.
    - by apply round_double_nonneg. }
  assert (0 < inject_Z n)%Q as Hpos.
  { change 0%Q with (inject_Z 0). rewrite <- Zlt_Qlt. lia. }
  destruct (exponent_spec _ Hpos) as [Hlo Hhi].
  set (e := exponent (inject_Z n)) in *.
  assert (0 ≤ e ≤ 52) as He.
  { split.
    - assert (2 ^ 0 < 2 ^ (e + 1))%Q as H.
      { eapply Qle_lt_trans; [|exact Hhi]. change (2 ^ 0)%Q with (inject_Z 1).
        rewrite <- Zle_Qle. lia. }
      apply pow2_lt_inv in H. lia.
    - assert (2 ^ e < 2 ^ 53)%Q as H.
      { eapply Qle_lt_trans; [exact Hlo|]. rewrite (pow2_Z 53) by lia.
        by rewrite <- Zlt_Qlt. }
      apply pow2_lt_inv in H. lia. }
  assert (inject_Z n == inject_Z (n * 2 ^ (52 - e)) * ulp (inject_Z n))%Q as Hgrid.
  { unfold ulp. fold e. rewrite Z.max_l by lia. rewrite inject_Z_mult.
    rewrite <- (pow2_Z (52 - e)) by lia. rewrite <- Qmult_assoc, <- pow2_add.
    replace (52 - e + (e - 52)) with 0 by lia. change (2 ^ 0)%Q with 1%Q. lra. }
  apply Qle_antisym.
  - eapply round_double_le_grid; [exact Hgrid | lra].
  - eapply round_double_ge_grid; [exact Hgrid | lra].
Qed.



(** ** Doubles *)

(** A double is a multiple of [2 ^ k], or small. *)
Lemma double_grid (r : Q) (k : Z) :
  is_double r → (∃ t : Z, (r == inject_Z t * 2 ^ k)%Q) ∨ (r < 2 ^ (k + 52))%Q.
Proof.
  intros (m & e & Hm & He & Hr). destruct (Z.le_gt_cases k e) as [Hk|Hk].
  - left. exists (m * 2 ^ (e - k)). rewrite Hr, inject_Z_mult.
    rewrite <- (pow2_Z (e - k)) by lia. rewrite <- Qmult_assoc, <- pow2_add.
    by replace (e - k + k) with e by lia.
  - right. rewrite Hr.
    assert (inject_Z m < 2 ^ 53)%Q as Hm'.
    { rewrite (pow2_Z 53) by lia. rewrite <- Zlt_Qlt. lia. }
    pose proof (pow2_pos e) as He'.
    assert (inject_Z m * 2 ^ e < 2 ^ 53 * 2 ^ e)%Q as H1
      by (apply Qmult_lt_compat_r; lra).
    assert (2 ^ (53 + e) <= 2 ^ (k + 52))%Q as H2 by (apply pow2_le; lia).
    rewrite pow2_add in H2. lra.
Qed.

(** The doubles below the integer fraction [n / 2 ^ k] are at most
    [(n - 1) / 2 ^ k], as long as that is not small. *)
Lemma double_pred (r : Q) (n k : Z) :
  is_double r → 0 ≤ k → (r < inject_Z n * 2 ^ (- k))%Q →
  (2 ^ (52 - k) <= inject_Z (n - 1) * 2 ^ (- k))%Q →
  (r <= inject_Z (n - 1) * 2 ^ (- k))%Q.
Proof.
  intros Hr Hk Hlt Hbig. pose proof (pow2_pos (- k)) as Hp.
  destruct (double_grid r (- k) Hr) as [[t Ht]|Hsmall].
  - rewrite Ht in Hlt |- *. apply Qmult_lt_r in Hlt; [|done].
    rewrite <- Zlt_Qlt in Hlt. apply Qmult_le_compat_r; [|lra].
    rewrite <- Zle_Qle. lia.
  - replace (- k + 52) with (52 - k) in Hsmall by lia. lra.
Qed.

(** ** The jitter *)

Lemma jitter_mono (r r' : Q) :
  (0 <= r)%Q → (r <= r')%Q → jitter_of r ≤ jitter_of r'.
Proof.
  intros H0 Hle. unfold jitter_of. apply Qfloor_resp_le, round_double_mono.
  - apply Qmult_le_0_compat; [done | by vm_compute].
  - apply Qmult_le_compat_r; [done | by vm_compute].
Qed.

(** The largest double below 1. *)
Lemma sample_le (r : Q) :
  is_sample r → (r <= inject_Z (2 ^ 53 - 1) * 2 ^ (-53))%Q.
Proof.
  intros (Hd & _ & H1).
  apply (double_pred r (2 ^ 53) 53 Hd); [done | | by vm_compute].
  eapply Qlt_le_trans; [exact H1 | by vm_compute].
Qed.

Lemma jitter_bounds (r : Q) : is_sample r → 0 ≤ jitter_of r < JITTER_MS.
Proof.
  intros Hr. pose proof (sample_le r Hr) as Hle. destruct Hr as (_ & H0 & _).
  split.
  - change 0 with (jitter_of 0). by apply jitter_mono.
  - pose proof (jitter_mono _ _ H0 Hle) as H.
    assert (jitter_of (inject_Z (2 ^ 53 - 1) * 2 ^ (-53)) = 199) as E
      by (vm_compute; reflexivity).
    rewrite E in H. unfold JITTER_MS. lia.
Qed.

(** The jitter is the floor of the exact product, or one more where the
    product rounds up to a whole number. *)
Lemma jitter_floor (r : Q) :
  (0 <= r)%Q → (r < 1)%Q →
  Qfloor (r * inject_Z JITTER_MS) ≤ jitter_of r
  ≤ Qfloor (r * inject_Z JITTER_MS) + 1.
Proof.
  intros H0 H1. unfold jitter_of. set (x := (r * inject_Z JITTER_MS)%Q).
  assert (0 <= x)%Q as Hx0 by (apply Qmult_le_0_compat; [done | by vm_compute]).
  assert (x < 200)%Q as Hx1.
  { unfold x. change (inject_Z JITTER_MS) with 200%Q. lra. }
  pose proof (Qfloor_le x) as Hle. pose proof (Qlt_floor x) as Hlt.
  assert (0 ≤ Qfloor x < 200) as Hn.
  { split.
    - rewrite <- (Qfloor_Z 0). by apply Qfloor_resp_le.
    - rewrite Zlt_Qlt. change (inject_Z 200) with 200%Q. lra. }
  split.
  - rewrite <- (Qfloor_Z (Qfloor x)) at 1. apply Qfloor_resp_le.
    rewrite <- (round_double_Z (Qfloor x)) by lia.
    apply round_double_mono; [|done].
    change 0%Q with (inject_Z 0). rewrite <- Zle_Qle. lia.
  - rewrite <- (Qfloor_Z (Qfloor x + 1)). apply Qfloor_resp_le.
    rewrite <- (round_double_Z (Qfloor x + 1)) by lia.
    apply round_double_mono; [done | lra].
Qed.

(** No jitter below 1/200, and only there. *)
Lemma jitter_zero (r : Q) : is_sample r → jitter_of r = 0 ↔ (r < 1 # 200)%Q.
Proof.
  intros Hr. pose proof (jitter_bounds r Hr) as Hb.
  destruct Hr as (Hd & H0 & H1). split.
  - intros Hj. destruct (Qlt_le_dec r (1 # 200)) as [?|Hge]; [done|].
    pose proof (jitter_floor r H0 H1) as [Hfl _].
    assert (1 ≤ Qfloor (r * inject_Z JITTER_MS)); [|lia].
    rewrite <- (Qfloor_Z 1). apply Qfloor_resp_le.
    change (inject_Z JITTER_MS) with 200%Q. change (inject_Z 1) with 1%Q. lra.
  - intros Hlt.
    assert (r <= inject_Z (2 ^ 60 / 200 + 1 - 1) * 2 ^ (-60))%Q as Hle.
    { apply (double_pred r _ 60 Hd); [done | | by vm_compute].
      eapply Qlt_le_trans; [exact Hlt | by vm_compute]. }
    pose proof (jitter_mono _ _ H0 Hle) as H.
    assert (jitter_of (inject_Z (2 ^ 60 / 200 + 1 - 1) * 2 ^ (-60)) = 0) as E
      by (vm_compute; reflexivity).
    lia.
Qed.

Lemma sample_0 : is_sample 0.
Proof.
  split_and!; [|done|done]. exists 0, 0. split_and!; [done..|]. by vm_compute.
Qed.

Lemma dyadic_sample (n : Z) (k : positive) :
  0 ≤ n < 2 ^ Z.pos k → Z.pos k ≤ 53 → is_sample (n # 2 ^ k).
Proof.
  intros Hn Hk.
  assert (inject_Z (2 ^ Z.pos k) == 2 ^ Z.pos k)%Q as Epow
    by (symmetry; by apply pow2_Z).
  pose proof (pow2_pos (Z.pos k)) as Hpos.
  assert (n # 2 ^ k == inject_Z n * 2 ^ (- Z.pos k))%Q as E.
  { rewrite Qmake_Qdiv, Pos2Z.inj_pow, pow2_opp, Epow. done. }
  split_and!.
  - exists n, (- Z.pos k). split_and!; [|lia|lia|done].
    assert (2 ^ Z.pos k ≤ 2 ^ 53) by (apply Z.pow_le_mono_r; lia). lia.
  - unfold Qle. simpl. lia.
  - unfold Qlt. simpl. rewrite Pos2Z.inj_pow. lia.
Qed.

(** Samples of the examples: 0, or [n / 2 ^ k] written out. *)
Ltac sample :=
  first [ exact sample_0
        | apply (dyadic_sample _ 1); by vm_compute
        | apply (dyadic_sample _ 2); by vm_compute
        | apply (dyadic_sample _ 8); by vm_compute ].


(** Each jitter from 0 to 199 is the one of a sample. *)
Lemma jitter_reached (j : Z) :
  0 ≤ j < JITTER_MS → ∃ r, is_sample r ∧ jitter_of r = j.
Proof.
  intros Hj. exists (((32 * j + 24) / 25) # 256). split.
  - apply (dyadic_sample _ 8); [|done]. unfold JITTER_MS in Hj.
    change (2 ^ Z.pos 8) with 256. split.
    + apply Z.div_pos; lia.
    + apply Z.div_lt_upper_bound; lia.
  - assert (forallb (λ i, jitter_of (((32 * i + 24) / 25) # 256) =? i)
              (seqZ 0 JITTER_MS) = true) as Hall by (vm_compute; reflexivity).
    rewrite forallb_forall in Hall. apply Z.eqb_eq, Hall.
    apply list_elem_of_In, elem_of_seqZ. lia.
Qed.

(** Line 126 on doubles: for the concurrencies the script can have, the
    floor of the double [currentConcurrency * 0.9] is the floor of the
    exact nine tenths. *)
Lemma scaled_down_double (c : Z) :
  MIN_CONCURRENCY ≤ c ≤ MAX_CONCURRENCY →
  Qfloor (round_double (inject_Z c * round_double (9 # 10))) = scaled_down c.
Proof.
  intros Hc.
  assert (forallb
            (λ i, Qfloor (round_double (inject_Z i * round_double (9 # 10)))
                  =? scaled_down i)
            (seqZ MIN_CONCURRENCY (MAX_CONCURRENCY - MIN_CONCURRENCY + 1))
          = true) as Hall by (vm_compute; reflexivity).
  rewrite forallb_forall in Hall. apply Z.eqb_eq, Hall.
  apply list_elem_of_In, elem_of_seqZ.
  unfold MIN_CONCURRENCY, MAX_CONCURRENCY in *. lia.
Qed.

(** ** The time elapsed, in hundredths of a second *)


Lemma delay_bounds (ms : Z) (r : Q) :
  is_sample r → ms ≤ delay ms r < ms + JITTER_MS.
Proof. intros H. pose proof (jitter_bounds r H). unfold delay. lia. Qed.

(** ** Sets and the loops over the alphabet *)

Lemma has_elem_of (x : string) (s : list string) :
  JSSet.has String.eqb x s = true ↔ x ∈ s.
Proof.
  unfold JSSet.has. rewrite existsb_exists. setoid_rewrite String.eqb_eq.
  setoid_rewrite <- list_elem_of_In. split.
  - by intros (y & Hy & ->).
  - intros Hx. by exists x.
Qed.

Lemma has_not_elem_of (x : string) (s : list string) :
  JSSet.has String.eqb x s = false ↔ x ∉ s.
Proof. rewrite <- has_elem_of. destruct (JSSet.has _ _ _); naive_solver. Qed.

Lemma add_prefix_of {A} (eqb : A → A → bool) (x : A) (s : list A) :
  s `prefix_of` JSSet.add eqb x s.
Proof. unfold JSSet.add. case_match; [done | by apply prefix_app_r]. Qed.

Lemma prefix_of_subseteq {A} (l1 l2 : list A) : l1 `prefix_of` l2 → l1 ⊆ l2.
Proof. intros [k ->]. by apply list_subseteq_app_l. Qed.

Lemma add_names_prefix_of (items names : list json) :
  names `prefix_of` add_names items names.
Proof.
  unfold add_names. revert names.
  induction items as [|x items IH]; intros names; simpl; [done|].
  etrans; [apply (add_prefix_of same_value_zero x) | apply IH].
Qed.

Lemma state_eta (st : state) :
  set_added (added st) (set_waiting (waiting st) st) = st.
Proof. by destruct st. Qed.

Lemma enqueue_loop (prefix : string) (l : list string) (st : state) :
  let new :=
    (λ char, prefix +:+ char)
      <$> filter (λ char, prefix +:+ char ∉ visitedPrefixes st) l in
  foldl (λ s char, enqueue (prefix +:+ char) s) st l
  = set_added (reverse new ++ added st) (set_waiting (waiting st ++ new) st).
Proof.
  revert st. induction l as [|c l IH]; intros st; simpl.
  - rewrite app_nil_r. symmetry. apply state_eta.
  - rewrite IH. unfold enqueue.
    destruct (JSSet.has _ _ _) eqn:Hhas; simpl.
    + apply has_elem_of in Hhas. rewrite filter_cons_False by naive_solver.
      done.
    + apply has_not_elem_of in Hhas. rewrite filter_cons_True by done.
      simpl. rewrite reverse_cons, <- !(assoc_L (++)). done.
Qed.

Lemma expand_spec (prefix : string) (st : state) :
  expand prefix st
  = set_added (reverse (children prefix (visitedPrefixes st)) ++ added st)
      (set_waiting (waiting st ++ children prefix (visitedPrefixes st)) st).
Proof. apply enqueue_loop. Qed.

Lemma extractAllNames_begin_spec (st : state) :
  extractAllNames_begin st
  = set_added (reverse VALID_CHARACTERS ++ added st)
      (set_waiting (waiting st ++ VALID_CHARACTERS) st).
Proof.
  unfold extractAllNames_begin. generalize VALID_CHARACTERS as l. intros l.
  revert st. induction l as [|c l IH]; intros st; simpl.
  - rewrite app_nil_r. symmetry. apply state_eta.
  - rewrite IH. unfold queue_add. simpl.
    rewrite reverse_cons, <- !(assoc_L (++)). done.
Qed.

(** ** Runs *)

Lemma reachable_begin : reachable (extractAllNames_begin initial).
Proof. apply rtc_refl. Qed.

Lemma reachable_step (l : label) (st st' : state) :
  reachable st → exec l st = Some st' → reachable st'.
Proof. intros Hst Hl. eapply rtc_r; [exact Hst | by exists l]. Qed.

Lemma reachable_run (ls : list label) (st st' : state) :
  reachable st → run ls st = Some st' → reachable st'.
Proof.
  revert st. induction ls as [|l ls IH]; intros st Hst Hrun; simpl in Hrun.
  - by simplify_eq.
  - destruct (exec l st) as [st1|] eqn:Hl; simplify_eq/=.
    eapply IH; [|done]. by eapply reachable_step.
Qed.

(** Induction over the runs of the script. *)
Lemma reachable_invariant (P : state → Prop) :
  P (extractAllNames_begin initial) →
  (∀ l st st', reachable st → P st → exec l st = Some st' → P st') →
  ∀ st, reachable st → P st.
Proof.
  intros Hinit Hstep st Hst.
  eapply (rtc_ind_r P (extractAllNames_begin initial)); [done | | exact Hst].
  intros s s' Hs [l Hl] IH. by eapply Hstep.
Qed.

Local Arguments log : simpl never.
Local Arguments writeFileSync : simpl never.
Local Arguments saveProgress : simpl never.
Local Arguments maybeSaveProgress : simpl never.
Local Arguments adjustConcurrency : simpl never.
Local Arguments monitorBacklog : simpl never.
Local Arguments queryAPI_enter : simpl never.
Local Arguments queryAPI_catch : simpl never.
Local Arguments queryAPI_settle : simpl never.
Local Arguments queue_add : simpl never.
Local Arguments enqueue : simpl never.
Local Arguments processPrefix_begin : simpl never.
Local Arguments processPrefix_resume : simpl never.
Local Arguments saveToFile : simpl never.
Local Arguments extractAllNames_end : simpl never.

(** A property of the state holds along every step as soon as the
    segments of the script and the bookkeeping of the event loop keep it. *)
Lemma exec_preserves (P : state → Prop) :
  (∀ v st, P st → P (set_running v st)) →
  (∀ v st, P st → P (set_waiting v st)) →
  (∀ v st, P st → P (set_intervalCount v st)) →
  (∀ v st, P st → P (set_intervalEnd v st)) →
  (∀ v st, P st → P (set_monitorDue v st)) →
  (∀ dt st, 0 ≤ dt → P st → P (set_now (now st + dt) st)) →
  (∀ p st, P st → P (processPrefix_begin p st).1) →
  (∀ p a st, P st → P (queryAPI_enter p a st)) →
  (∀ p a o r st, P st → P (queryAPI_settle p a o r st).1) →
  (∀ p v r st, P st → P (processPrefix_resume p v r st).1) →
  (∀ st, P st → P (monitorBacklog st)) →
  (∀ st, P st → P (extractAllNames_end st)) →
  ∀ l st st', P st → exec l st = Some st' → P st'.
Proof.
  intros Hrun Hwait Hcount Hend Hmon Hnow Hbegin Henter Hsettle Hresume
    Hmonitor Hfinal l st st' HP Hl.
  destruct l as [|i o r|i|i| | | |dt]; simpl in Hl.
  - destruct (waiting st) as [|p rest]; [done|].
    destruct (queue_allows st); [|done].
    pose proof (Hbegin p _ (Hcount (intervalCount st + 1) _ (Hwait rest _ HP)))
      as HP'.
    destruct (processPrefix_begin p _) as [st1 [k|]]; simplify_eq/=; auto.
  - destruct (running st !! i) as [[p a|p a due|p due]|]; try done.
    pose proof (Hsettle p a o r _ HP) as HP1.
    destruct (queryAPI_settle p a o r st) as [st1 [v|ms]]; simpl in *.
    + pose proof (Hresume p v r _ HP1) as HP2.
      destruct (processPrefix_resume p v r st1) as [st2 [k|]];
        simplify_eq/=; auto.
    + simplify_eq. auto.
  - destruct (running st !! i) as [[p a|p a due|p due]|]; try done.
    destruct (due <=? now st); simplify_eq. auto.
  - destruct (running st !! i) as [[p a|p a due|p due]|]; try done.
    destruct (due <=? now st); simplify_eq. auto.
  - destruct (monitorDue st <=? now st); simplify_eq. auto.
  - destruct (intervalEnd st <=? now st); simplify_eq. auto.
  - destruct (waiting st), (running st), (finished st); simplify_eq. auto.
  - destruct (0 <=? dt) eqn:Hdt; simplify_eq. apply Hnow; [lia | done].
Qed.

(** ** The concurrency bound *)

Lemma adjustConcurrency_ok (n : Z) (st : state) :
  concurrency_ok (adjustConcurrency n st).
Proof. split; [apply clamp_bounds | done]. Qed.

Lemma queryAPI_catch_ok p a status r st :
  concurrency_ok st → concurrency_ok (queryAPI_catch p a status r st).1.
Proof.
  intros Hok. unfold queryAPI_catch.
  destruct (match status with Some s => s =? 429 | None => false end);
    [apply adjustConcurrency_ok|].
  by destruct (a <=? MAX_ATTEMPTS).
Qed.

Lemma queryAPI_settle_ok p a o r st :
  concurrency_ok st → concurrency_ok (queryAPI_settle p a o r st).1.
Proof.
  intros Hok. unfold queryAPI_settle.
  destruct o as [data|s|]; try by apply queryAPI_catch_ok.
  destruct (get_results data);
    [apply adjustConcurrency_ok | apply queryAPI_catch_ok, adjustConcurrency_ok].
Qed.

Lemma maybeSaveProgress_concurrency st :
  currentConcurrency (maybeSaveProgress st) = currentConcurrency st
  ∧ queueConcurrency (maybeSaveProgress st) = queueConcurrency st.
Proof. unfold maybeSaveProgress. by case_match. Qed.

Lemma processPrefix_resume_ok p v r st :
  concurrency_ok st → concurrency_ok (processPrefix_resume p v r st).1.
Proof.
  intros Hok. unfold processPrefix_resume, concurrency_ok.
  destruct v; try exact Hok. simpl.
  destruct (_ =? _); rewrite ?expand_spec; simpl;
    by destruct (maybeSaveProgress_concurrency
                   (set_discoveredNames (add_names items (discoveredNames st))
                      (set_answers ((p, JArr items) :: answers st) st)))
      as [-> ->].
Qed.

Lemma monitorBacklog_ok st : concurrency_ok st → concurrency_ok (monitorBacklog st).
Proof.
  intros Hok. unfold monitorBacklog.
  destruct (_ <? _); [apply adjustConcurrency_ok|].
  destruct (_ && _); [apply adjustConcurrency_ok | exact Hok].
Qed.

Lemma exec_concurrency_ok (l : label) (st st' : state) :
  concurrency_ok st → exec l st = Some st' → concurrency_ok st'.
Proof.
  apply exec_preserves; try done.
  - intros p s Hok. unfold processPrefix_begin. by destruct (JSSet.has _ _ _).
  - apply queryAPI_settle_ok.
  - apply processPrefix_resume_ok.
  - apply monitorBacklog_ok.
Qed.

(** ** The control law *)

Lemma queryAPI_catch_concurrency p a status r st :
  currentConcurrency (queryAPI_catch p a status r st).1
  = if match status with Some s => s =? 429 | None => false end
    then clamp (scaled_down (currentConcurrency st))
    else currentConcurrency st.
Proof.
  unfold queryAPI_catch.
  destruct (match status with Some s => s =? 429 | None => false end); [done|].
  by destruct (a <=? MAX_ATTEMPTS).
Qed.

Lemma queryAPI_settle_concurrency p a o r st :
  currentConcurrency (queryAPI_settle p a o r st).1
  = match o with
    | Fulfilled _ => clamp (currentConcurrency st + CONCURRENCY_ADJUSTMENT_UP)
    | RejectedStatus s =>
        if s =? 429 then clamp (scaled_down (currentConcurrency st))
        else currentConcurrency st
    | RejectedNoResponse => currentConcurrency st
    end.
Proof.
  unfold queryAPI_settle. destruct o as [data|s|].
  - destruct (get_results data); [done|].
    by rewrite queryAPI_catch_concurrency.
  - by rewrite queryAPI_catch_concurrency.
  - by rewrite queryAPI_catch_concurrency.
Qed.

Lemma monitorBacklog_concurrency st :
  currentConcurrency (monitorBacklog st)
  = if BACKLOG_HIGH_THRESHOLD <? backlog st then
      clamp (scaled_down (currentConcurrency st))
    else if (backlog st <? BACKLOG_LOW_THRESHOLD)
            && (currentConcurrency st <? MAX_CONCURRENCY) then
      clamp (currentConcurrency st + CONCURRENCY_ADJUSTMENT_UP)
    else currentConcurrency st.
Proof.
  unfold monitorBacklog, backlog.
  destruct (_ <? _); [done|]. by destruct (_ && _).
Qed.

(** ** The segments of [queryAPI] *)

Lemma queryAPI_cons o r script p a st :
  queryAPI ((o, r) :: script) p a st
  = match queryAPI_settle p a o r (queryAPI_enter p a st) with
    | (st', Return v) => Some (v, st')
    | (st', Retry ms) => queryAPI script p (a + 1) (set_now (now st' + ms) st')
    end.
Proof. reflexivity. Qed.

Lemma settle_429 p a r st :
  queryAPI_settle p a (RejectedStatus 429) r st
  = (adjustConcurrency (scaled_down (currentConcurrency st)) st,
     Retry (delay RATE_LIMIT_COOLDOWN_MS r)).
Proof. reflexivity. Qed.

Lemma catch_transient_retry p a r st :
  a ≤ MAX_ATTEMPTS →
  queryAPI_catch p a None r st
  = (log (LogRetrying p a (BASE_DELAY_MS * 2 ^ a)) st,
     Retry (delay (BASE_DELAY_MS * 2 ^ a) r)).
Proof.
  intros Ha. unfold queryAPI_catch.
  by destruct (Z.leb_spec a MAX_ATTEMPTS); [|lia].
Qed.

Lemma catch_transient_fail p a r st :
  MAX_ATTEMPTS < a →
  queryAPI_catch p a None r st = (log (LogFailed p a) st, Return (JArr [])).
Proof.
  intros Ha. unfold queryAPI_catch.
  by destruct (Z.leb_spec a MAX_ATTEMPTS); [lia|].
Qed.

Lemma settle_transient p a o r st :
  transient o →
  queryAPI_settle p a o r st = queryAPI_catch p a None r st.
Proof.
  destruct o as [data|s|]; simpl; intros Ho; [done| |done].
  unfold queryAPI_settle, queryAPI_catch, error_status.
  by destruct (Z.eqb_spec s 429).
Qed.

Lemma settle_fulfilled p a data v r st :
  get_results data = Some v →
  queryAPI_settle p a (Fulfilled data) r st
  = (adjustConcurrency (currentConcurrency st + CONCURRENCY_ADJUSTMENT_UP) st,
     Return (js_or v (JArr []))).
Proof. intros Hv. unfold queryAPI_settle. by rewrite Hv. Qed.

Lemma settle_ends p a o r st :
  ends_call a o = true → ∃ v, (queryAPI_settle p a o r st).2 = Return v.
Proof.
  unfold ends_call, queryAPI_settle, queryAPI_catch, error_status.
  destruct o as [data|s|].
  - destruct (get_results data); [by eexists|].
    intros Ha%Z.ltb_lt. destruct (Z.leb_spec a MAX_ATTEMPTS); [lia|by eexists].
  - destruct (s =? 429); [done|]. simpl.
    intros Ha%Z.ltb_lt. destruct (Z.leb_spec a MAX_ATTEMPTS); [lia|by eexists].
  - intros Ha%Z.ltb_lt. destruct (Z.leb_spec a MAX_ATTEMPTS); [lia|by eexists].
Qed.

Lemma settle_retries p a o r st :
  ends_call a o = false → ∃ ms, (queryAPI_settle p a o r st).2 = Retry ms.
Proof.
  unfold ends_call, queryAPI_settle, queryAPI_catch, error_status.
  destruct o as [data|s|].
  - destruct (get_results data); [done|].
    intros Ha%Z.ltb_ge. destruct (Z.leb_spec a MAX_ATTEMPTS); [by eexists|lia].
  - destruct (s =? 429); [by eexists|]. simpl.
    intros Ha%Z.ltb_ge. destruct (Z.leb_spec a MAX_ATTEMPTS); [by eexists|lia].
  - intros Ha%Z.ltb_ge. destruct (Z.leb_spec a MAX_ATTEMPTS); [by eexists|lia].
Qed.

(** [queryAPI] returns exactly when some request of the script ends the
    call; until then it is retrying. *)
Lemma queryAPI_returns script p a st :
  is_Some (queryAPI script p a st)
  ↔ ∃ k o r, script !! k = Some (o, r) ∧ ends_call (a + Z.of_nat k) o = true.
Proof.
  revert a st. induction script as [|[o r] script IH]; intros a st.
  - simpl. split; [by intros [? ?] | by intros (k & ? & ? & ? & _)].
  - rewrite queryAPI_cons.
    destruct (ends_call a o) eqn:Hends.
    + destruct (settle_ends p a o r (queryAPI_enter p a st) Hends) as [v Hv].
      destruct (queryAPI_settle _ _ _ _ _) as [st' next]; simpl in Hv; subst.
      split; [|by eexists]. intros _. exists 0%nat, o, r.
      by rewrite Z.add_0_r.
    + destruct (settle_retries p a o r (queryAPI_enter p a st) Hends) as [ms Hms].
      destruct (queryAPI_settle _ _ _ _ _) as [st' next]; simpl in Hms; subst.
      rewrite IH. split.
      * intros (k & o' & r' & Hk & He). exists (S k), o', r'.
        split; [done|].
        by replace (a + Z.of_nat (S k)) with (a + 1 + Z.of_nat k) by lia.
      * intros ([|k] & o' & r' & Hk & He); simplify_eq/=.
        { rewrite Z.add_0_r in He. congruence. }
        exists k, o', r'. split; [done|].
        by replace (a + 1 + Z.of_nat k) with (a + Z.of_nat (S k)) by lia.
Qed.

Lemma ends_call_transient a o :
  transient o → ends_call a o = (MAX_ATTEMPTS <? a).
Proof.
  destruct o as [data|s|]; simpl; [done| |done].
  intros Hs. by destruct (Z.eqb_spec s 429).
Qed.

(** The event loop wakes a retry only when its delay has elapsed, and the
    retry is the call [queryAPI(prefix, attempt + 1)]. *)
Lemma exec_response_retry i p a o r ms st st1 :
  running st !! i = Some (AwaitResponse p a) →
  queryAPI_settle p a o r st = (st1, Retry ms) →
  exec (LResponse i o r) st
  = Some (set_running (<[i := AwaitRetry p a (now st1 + ms)]> (running st1)) st1).
Proof. intros Hi Hs. simpl. by rewrite Hi, Hs. Qed.

Lemma exec_wake i p a due st :
  running st !! i = Some (AwaitRetry p a due) →
  exec (LWake i) st
  = if due <=? now st then
      Some (set_running (<[i := AwaitResponse p (a + 1)]> (running st))
              (queryAPI_enter p (a + 1) st))
    else None.
Proof. intros Hi. simpl. by rewrite Hi. Qed.

(** Six failures in a row, counted from [attempt]: what [queryAPI] does
    when the last of them is the sixth attempt. *)
Lemma queryAPI_transient_run script p a st :
  Forall (λ x, transient x.1) script →
  script ≠ [] →
  a + Z.of_nat (length script) = MAX_ATTEMPTS + 2 →
  ∃ st',
    queryAPI script p a st = Some (JArr [], st')
    ∧ totalRequests st' = totalRequests st + Z.of_nat (length script)
    ∧ currentConcurrency st' = currentConcurrency st
    ∧ console st'
      = LogFailed p (MAX_ATTEMPTS + 1)
          :: reverse ((λ k, LogRetrying p k (BASE_DELAY_MS * 2 ^ k))
                        <$> seqZ a (MAX_ATTEMPTS + 1 - a))
          ++ console st.
Proof.
  revert a st. induction script as [|[o r] script IH]; intros a st Htr Hne Hlen;
    [done|].
  apply Forall_cons in Htr as [Ho Htr]. simpl in Ho.
  rewrite queryAPI_cons, settle_transient by done.
  destruct script as [|x script].
  - simpl in Hlen. assert (a = MAX_ATTEMPTS + 1) as -> by lia.
    rewrite catch_transient_fail by lia.
    eexists. split; [done|].
    rewrite Z.sub_diag. unfold queryAPI_enter, log. simpl. by split_and!.
  - rewrite catch_transient_retry by (simpl in Hlen; lia).
    edestruct (IH (a + 1)) as (st' & -> & Htot & Hcur & Hcon);
      [done | done | simpl length in *; lia |].
    eexists. split; [done|].
    rewrite Htot, Hcur, Hcon. unfold queryAPI_enter, log. simpl.
    split_and!; [lia | done |].
    rewrite (seqZ_cons a) by (simpl length in *; lia).
    rewrite fmap_cons, reverse_cons, <- (assoc_L (++)). simpl.
    replace (Z.succ a) with (a + 1) by lia.
    by replace (Z.pred (MAX_ATTEMPTS + 1 - a)) with (MAX_ATTEMPTS + 1 - (a + 1))
      by lia.
Qed.

(** ** Rate limiting *)

Lemma queryAPI_rate_limited rs script p a st :
  queryAPI (rate_limited rs ++ script) p a st
  = queryAPI script p (a + Z.of_nat (length rs)) (after_rate_limits p a rs st).
Proof.
  revert a st. induction rs as [|r rs IH]; intros a st.
  - cbn. by rewrite Z.add_0_r.
  - change (rate_limited (r :: rs) ++ script)%list
      with ((RejectedStatus 429, r) :: (rate_limited rs ++ script))%list.
    rewrite queryAPI_cons, settle_429, IH.
    cbn [after_rate_limits length]. f_equal. lia.
Qed.

Lemma after_rate_limits_spec p a rs st :
  Forall is_sample rs →
  let st' := after_rate_limits p a rs st in
  let n := Z.of_nat (length rs) in
  totalRequests st' = totalRequests st + n
  ∧ now st + RATE_LIMIT_COOLDOWN_MS * n ≤ now st'
      ≤ now st + (RATE_LIMIT_COOLDOWN_MS + JITTER_MS - 1) * n
  ∧ (∃ cs, console st' = ((LogAdjusted <$> cs) ++ console st)%list)
  ∧ (call_attempt <$> calls st')
    = (reverse (seqZ a n) ++ (call_attempt <$> calls st))%list.
Proof.
  revert a st. induction rs as [|r rs IH]; intros a st Hrs.
  - cbn. split_and!; [lia | lia | lia | by exists [] | done].
  - apply Forall_cons in Hrs as [Hr Hrs].
    cbn [after_rate_limits length]. cbv zeta.
    set (st1 := set_now _ _).
    destruct (IH (a + 1) st1 Hrs) as (Htot & Hnow & [cs Hcon] & Hcalls).
    pose proof (delay_bounds RATE_LIMIT_COOLDOWN_MS r Hr) as Hd.
    assert (totalRequests st1 = totalRequests st + 1) as Htot1 by done.
    assert (now st1 = now st + delay RATE_LIMIT_COOLDOWN_MS r) as Hnow1 by done.
    assert (∃ c, console st1 = LogAdjusted c :: console st) as [c Hcon1]
      by (by eexists).
    assert (call_attempt <$> calls st1 = a :: (call_attempt <$> calls st))
      as Hcalls1 by done.
    rewrite Htot, Hcon, Hcalls, Htot1, Hcon1, Hcalls1.
    rewrite Hnow1 in Hnow. clear Htot Hcon Hcalls Htot1 Hcon1 Hcalls1 Hnow1.
    unfold RATE_LIMIT_COOLDOWN_MS, JITTER_MS in *.
    split_and!; [lia | lia | lia | | ].
    + exists (cs ++ [c])%list. by rewrite fmap_app, <- (assoc_L (++)).
    + rewrite (seqZ_cons a) by lia. rewrite reverse_cons, <- (assoc_L (++)).
      replace (Z.succ a) with (a + 1) by lia.
      by replace (Z.pred (Z.of_nat (S (length rs))))
        with (Z.of_nat (length rs)) by lia.
Qed.

(** ** What [queryAPI] returns *)

Lemma catch_returns_empty p a status r st st' v :
  queryAPI_catch p a status r st = (st', Return v) → v = JArr [].
Proof.
  unfold queryAPI_catch.
  destruct (match status with Some s => s =? 429 | None => false end); [done|].
  destruct (a <=? MAX_ATTEMPTS); [done|]. by intros [= _ <-].
Qed.

Lemma settle_array p a o r st st' v :
  array_or_absent o →
  queryAPI_settle p a o r st = (st', Return v) → ∃ items, v = JArr items.
Proof.
  unfold queryAPI_settle. destruct o as [data|s|]; simpl.
  - destruct (get_results data) as [v0|].
    + intros Hv0 [= _ <-]. unfold js_or.
      destruct Hv0 as [->|[items ->]]; by eexists.
    + intros _ ->%catch_returns_empty. by eexists.
  - intros _ ->%catch_returns_empty. by eexists.
  - intros _ ->%catch_returns_empty. by eexists.
Qed.

Lemma queryAPI_array script p a st v st' :
  Forall (λ x, array_or_absent x.1) script →
  queryAPI script p a st = Some (v, st') → ∃ items, v = JArr items.
Proof.
  revert a st. induction script as [|[o r] script IH]; intros a st Hok; [done|].
  apply Forall_cons in Hok as [Ho Hok]. rewrite queryAPI_cons.
  destruct (queryAPI_settle p a o r (queryAPI_enter p a st))
    as [st1 [v1|ms]] eqn:Hs.
  - intros [= <- <-]. by eapply settle_array.
  - by apply IH.
Qed.

Lemma processPrefix_resume_array p items r st :
  ∃ st' due, processPrefix_resume p (JArr items) r st
             = (st', Some (AwaitFinish p due)).
Proof. unfold processPrefix_resume. by eexists _, _. Qed.

(** ** Expansion and pruning *)

Lemma maybeSaveProgress_frame st :
  let st' := maybeSaveProgress st in
  waiting st' = waiting st ∧ added st' = added st
  ∧ visitedPrefixes st' = visitedPrefixes st ∧ running st' = running st
  ∧ calls st' = calls st ∧ answers st' = answers st
  ∧ discoveredNames st' = discoveredNames st
  ∧ totalRequests st' = totalRequests st ∧ now st' = now st.
Proof. unfold maybeSaveProgress. by case_match. Qed.

Lemma NoDup_VALID_CHARACTERS : NoDup VALID_CHARACTERS.
Proof. apply (bool_decide_unpack _). by vm_compute. Qed.

Lemma NoDup_children p visited : NoDup (children p visited).
Proof.
  unfold children. apply NoDup_fmap_2; [apply _|].
  apply NoDup_filter, NoDup_VALID_CHARACTERS.
Qed.

Lemma length_children p visited :
  (length (children p visited)
   + length (filter (λ char, p +:+ char ∈ visited) VALID_CHARACTERS)
   = length VALID_CHARACTERS)%nat.
Proof.
  unfold children. rewrite length_fmap, Nat.add_comm, <- length_app.
  apply Permutation_length.
  apply (filter_app_complement (λ char, p +:+ char ∈ visited)).
Qed.

(** What lines 153-171 do to the queue and to the sets, for an array. *)
Lemma processPrefix_resume_queue p items r st :
  let st' := (processPrefix_resume p (JArr items) r st).1 in
  let new :=
    if Z.of_nat (length items) =? MAX_RESULTS_PER_QUERY
    then children p (visitedPrefixes st) else [] in
  waiting st' = (waiting st ++ new)%list
  ∧ added st' = (reverse new ++ added st)%list
  ∧ visitedPrefixes st' = visitedPrefixes st
  ∧ discoveredNames st' = add_names items (discoveredNames st).
Proof.
  unfold processPrefix_resume. cbv zeta.
  set (st1 := set_discoveredNames _ _).
  destruct (maybeSaveProgress_frame st1)
    as (Hw & Ha & Hv & _ & _ & _ & Hd & _).
  destruct (_ =? _); cbn [fst]; rewrite ?expand_spec; simpl;
    rewrite ?Hw, ?Ha, ?Hv, ?Hd, ?app_nil_r; done.
Qed.

(** ** Snapshots *)

Lemma snap_inv_grow st st' :
  snapshots st' = snapshots st →
  discoveredNames st ⊆ discoveredNames st' →
  totalRequests st ≤ totalRequests st' →
  snap_inv st → snap_inv st'.
Proof.
  intros Hf Hn Ht [Hbelow Hdesc]. unfold snap_inv. rewrite Hf. split; [|done].
  eapply Forall_impl; [exact Hbelow|].
  intros s [Hs1 Hs2]. split; [by etrans | lia].
Qed.

Lemma snap_inv_write st st' s :
  snapshots st' = s :: snapshots st →
  snap_names s = discoveredNames st' →
  snap_totalRequests s = totalRequests st' →
  discoveredNames st ⊆ discoveredNames st' →
  totalRequests st ≤ totalRequests st' →
  snap_inv st → snap_inv st'.
Proof.
  intros Hf Hsn Hst Hn Ht [Hbelow Hdesc]. unfold snap_inv. rewrite Hf.
  assert (Forall (below_state st') (snapshots st)) as Hbelow'.
  { eapply Forall_impl; [exact Hbelow|].
    intros s' [Hs1 Hs2]. split; [by etrans | lia]. }
  split.
  - apply Forall_cons. split; [|done].
    split; [by rewrite Hsn | lia].
  - simpl. split; [|done].
    eapply Forall_impl; [exact Hbelow'|].
    intros s' [Hs1 Hs2]. split; [by rewrite Hsn | lia].
Qed.

Lemma saveProgress_inv st : snap_inv st → snap_inv (saveProgress st).
Proof. by eapply snap_inv_write. Qed.

Lemma maybeSaveProgress_inv st : snap_inv st → snap_inv (maybeSaveProgress st).
Proof.
  unfold maybeSaveProgress. case_match; [|done].
  intros Hinv. apply saveProgress_inv. revert Hinv. by apply snap_inv_grow.
Qed.

Lemma queryAPI_settle_files p a o r st :
  let st' := (queryAPI_settle p a o r st).1 in
  files st' = files st ∧ discoveredNames st' = discoveredNames st
  ∧ totalRequests st' = totalRequests st ∧ visitedPrefixes st' = visitedPrefixes st
  ∧ calls st' = calls st ∧ running st' = running st ∧ now st' = now st
  ∧ waiting st' = waiting st ∧ added st' = added st ∧ answers st' = answers st.
Proof.
  unfold queryAPI_settle, queryAPI_catch, error_status.
  destruct o as [data|s|]; [destruct (get_results data)|..];
    repeat case_match; done.
Qed.

Lemma monitorBacklog_files st :
  let st' := monitorBacklog st in
  files st' = files st ∧ discoveredNames st' = discoveredNames st
  ∧ totalRequests st' = totalRequests st ∧ visitedPrefixes st' = visitedPrefixes st
  ∧ calls st' = calls st ∧ running st' = running st ∧ now st' = now st
  ∧ waiting st' = waiting st ∧ added st' = added st ∧ answers st' = answers st.
Proof. unfold monitorBacklog. repeat case_match; done. Qed.

Lemma exec_snap_inv l st st' : snap_inv st → exec l st = Some st' → snap_inv st'.
Proof.
  apply exec_preserves; try done.
  - intros p s. unfold processPrefix_begin. case_match; [done|].
    apply snap_inv_grow; simpl; [done | done | lia].
  - intros p a s. apply snap_inv_grow; simpl; [done | done | lia].
  - intros p a o r s.
    destruct (queryAPI_settle_files p a o r s) as (Hf & Hn & Ht & _).
    apply snap_inv_grow; unfold snapshots; rewrite ?Hf, ?Hn, ?Ht; done.
  - intros p v r s Hinv. unfold processPrefix_resume.
    destruct v; try done. cbv zeta.
    assert (snap_inv (maybeSaveProgress
                        (set_discoveredNames (add_names items (discoveredNames s))
                           (set_answers ((p, JArr items) :: answers s) s))))
      as Hinv'.
    { apply maybeSaveProgress_inv. revert Hinv.
      apply snap_inv_grow; simpl; [done | | done].
      apply prefix_of_subseteq, add_names_prefix_of. }
    destruct (_ =? _); [|done]. cbn [fst]. rewrite expand_spec. done.
  - intros s.
    destruct (monitorBacklog_files s) as (Hf & Hn & Ht & _).
    apply snap_inv_grow; unfold snapshots; rewrite ?Hf, ?Hn, ?Ht; done.
  - intros s Hinv. unfold extractAllNames_end. cbv zeta.
    apply saveProgress_inv in Hinv. revert Hinv.
    generalize (saveProgress s). clear s. intros s Hinv.
    eapply snap_inv_write; [reflexivity | done | done | done | done | done].
Qed.

Lemma descending_lookup l i j s_new s_old :
  descending l → (i ≤ j)%nat →
  l !! i = Some s_new → l !! j = Some s_old → snap_le s_old s_new.
Proof.
  revert i j. induction l as [|s l IH]; intros i j Hdesc Hij Hi Hj; [done|].
  destruct Hdesc as [Hall Hdesc]. destruct i as [|i], j as [|j]; simplify_eq/=.
  - by split.
  - rewrite Forall_lookup in Hall. by eapply Hall.
  - lia.
  - eapply (IH i j); [done | lia | done | done].
Qed.

(** Along a step the set of names and the counter of requests only grow. *)
Lemma exec_grows l st st' :
  exec l st = Some st' →
  discoveredNames st `prefix_of` discoveredNames st'
  ∧ totalRequests st ≤ totalRequests st'.
Proof.
  intros Hl.
  apply (exec_preserves
           (λ s, discoveredNames st `prefix_of` discoveredNames s
                 ∧ totalRequests st ≤ totalRequests s) ) with l st;
    try done.
  - intros p s [Hn Ht]. unfold processPrefix_begin. case_match; [done|].
    simpl. split; [done | lia].
  - intros p a s [Hn Ht]. simpl. split; [done | lia].
  - intros p a o r s.
    destruct (queryAPI_settle_files p a o r s) as (_ & Hn & Ht & _).
    by rewrite Hn, Ht.
  - intros p v r s [Hn Ht]. unfold processPrefix_resume.
    destruct v; try done.
    destruct (processPrefix_resume_queue p items r s) as (_ & _ & _ & Hd).
    unfold processPrefix_resume in Hd. rewrite Hd. split.
    + etrans; [exact Hn | apply add_names_prefix_of].
    + cbv zeta.
      destruct (maybeSaveProgress_frame
                  (set_discoveredNames (add_names items (discoveredNames s))
                     (set_answers ((p, JArr items) :: answers s) s)))
        as (_ & _ & _ & _ & _ & _ & _ & Ht' & _).
      destruct (_ =? _); cbn [fst]; rewrite ?expand_spec; simpl; by rewrite Ht'.
  - intros s.
    destruct (monitorBacklog_files s) as (_ & Hn & Ht & _). by rewrite Hn, Ht.
Qed.

(** ** The steps of a run, case by case *)

Lemma exec_step_of l st st' : exec l st = Some st' ↔ step_of l st st'.
Proof.
  split.
  - destruct l as [|i o r|i|i| | | |dt]; simpl; intros Hl.
    + destruct (waiting st) as [|p rest] eqn:Hw; [done|].
      destruct (queue_allows st) eqn:Hq; [|done].
      unfold processPrefix_begin in Hl. simpl in Hl.
      destruct (JSSet.has String.eqb p (visitedPrefixes st)) eqn:Hhas.
      * simplify_eq. apply has_elem_of in Hhas.
        exact (step_start_skip p rest st Hw Hq Hhas).
      * simplify_eq. unfold JSSet.add. rewrite Hhas.
        apply has_not_elem_of in Hhas.
        exact (step_start p rest st Hw Hq Hhas).
    + destruct (running st !! i) as [[p a|p a due|p due]|] eqn:Hi; try done.
      destruct (queryAPI_settle p a o r st) as [st1 [v|ms]] eqn:Hs.
      * destruct (processPrefix_resume p v r st1) as [st2 [k|]] eqn:Hr;
          simplify_eq; [by eapply step_return | by eapply step_reject].
      * simplify_eq. by eapply step_retry.
    + destruct (running st !! i) as [[p a|p a due|p due]|] eqn:Hi; try done.
      destruct (Z.leb_spec due (now st)); simplify_eq. by eapply step_wake.
    + destruct (running st !! i) as [[p a|p a due|p due]|] eqn:Hi; try done.
      destruct (Z.leb_spec due (now st)); simplify_eq. by eapply step_finish.
    + destruct (Z.leb_spec (monitorDue st) (now st)); simplify_eq.
      by apply step_monitor.
    + destruct (Z.leb_spec (intervalEnd st) (now st)); simplify_eq.
      by apply step_interval.
    + destruct (waiting st) eqn:?, (running st) eqn:?, (finished st) eqn:?;
        simplify_eq. by apply step_idle.
    + destruct (Z.leb_spec 0 dt); simplify_eq. by apply step_time.
  - intros Hstep. destruct Hstep; simpl.
    + rewrite H, H0. unfold processPrefix_begin. simpl.
      apply has_elem_of in H1. by rewrite H1.
    + rewrite H, H0. unfold processPrefix_begin, JSSet.add. simpl.
      apply has_not_elem_of in H1. by rewrite H1.
    + by rewrite H, H0.
    + by rewrite H, H0, H1.
    + by rewrite H, H0, H1.
    + rewrite H. by destruct (Z.leb_spec due (now st)); [|lia].
    + rewrite H. by destruct (Z.leb_spec due (now st)); [|lia].
    + by destruct (Z.leb_spec (monitorDue st) (now st)); [|lia].
    + by destruct (Z.leb_spec (intervalEnd st) (now st)); [|lia].
    + by rewrite H, H0, H1.
    + by destruct (Z.leb_spec 0 dt); [|lia].
Qed.

(** ** At most one query per prefix *)

Lemma processPrefix_resume_frame p v r st :
  let st' := (processPrefix_resume p v r st).1 in
  calls st' = calls st ∧ visitedPrefixes st' = visitedPrefixes st
  ∧ running st' = running st ∧ totalRequests st' = totalRequests st
  ∧ now st' = now st.
Proof.
  unfold processPrefix_resume. destruct v; try done. cbv zeta.
  set (st1 := set_discoveredNames _ _).
  destruct (maybeSaveProgress_frame st1)
    as (_ & _ & Hv & Hr & Hc & _ & _ & Ht & Hn).
  destruct (_ =? _); cbn [fst]; rewrite ?expand_spec; simpl;
    by rewrite Hv, Hr, Hc, Ht, Hn.
Qed.

Lemma processPrefix_resume_cont p v r st st' k :
  processPrefix_resume p v r st = (st', Some k) →
  ∃ due, k = AwaitFinish p due.
Proof.
  unfold processPrefix_resume. destruct v; try done. intros [= _ <-]. by eexists.
Qed.

Lemma once_inv_frame st st' :
  calls st' = calls st → visitedPrefixes st' = visitedPrefixes st →
  running st' = running st → once_inv st → once_inv st'.
Proof. unfold once_inv, queried. by intros -> -> ->. Qed.

Lemma Forall_insert_attempt (l : list cont) i k :
  Forall (λ k, 1 ≤ cont_attempt k) l → 1 ≤ cont_attempt k →
  Forall (λ k, 1 ≤ cont_attempt k) (<[i := k]> l).
Proof. intros Hl Hk. by apply Forall_insert. Qed.

Lemma once_inv_intro st q v rn :
  queried st = q → visitedPrefixes st = v → running st = rn →
  NoDup q → q ⊆ v → Forall (λ k, 1 ≤ cont_attempt k) rn → once_inv st.
Proof. intros <- <- <- Hnd Hsub Hrun. by split_and!. Qed.

Lemma queried_enter p a st :
  queried (queryAPI_enter p a st)
  = if decide (a = 1) then p :: queried st else queried st.
Proof.
  unfold queried.
  change (calls (queryAPI_enter p a st)) with (mkCall (now st) p a :: calls st).
  rewrite filter_cons. simpl. by destruct (decide (a = 1)).
Qed.

Lemma step_once_inv l st st' : once_inv st → step_of l st st' → once_inv st'.
Proof.
  intros (Hnd & Hsub & Hrun) Hstep. destruct Hstep.
  - done.
  - eapply once_inv_intro;
      [apply (queried_enter p 1) | reflexivity | reflexivity | ..].
    + rewrite decide_True by done. apply NoDup_cons. split; [|done].
      intros Hp. by apply H1, Hsub.
    + rewrite decide_True by done.
      intros q [->|Hq]%elem_of_cons; simpl; [set_solver|].
      apply elem_of_app. left. by apply Hsub.
    + apply Forall_app. split; [done|]. by apply Forall_singleton.
  - destruct (queryAPI_settle_files p a o r st)
      as (_ & _ & _ & Hv & Hc & Hr & _).
    rewrite H0 in Hv, Hc, Hr. simpl in Hv, Hc, Hr.
    eapply once_inv_intro; [reflexivity | reflexivity | reflexivity | ..].
    + unfold queried. simpl. by rewrite Hc.
    + unfold queried. simpl. by rewrite Hc, Hv.
    + simpl. rewrite Hr. apply Forall_insert_attempt; [done|].
      rewrite Forall_lookup in Hrun. by apply (Hrun _ _ H).
  - destruct (queryAPI_settle_files p a o r st)
      as (_ & _ & _ & Hv & Hc & Hr & _).
    destruct (processPrefix_resume_frame p v r st1) as (Hc' & Hv' & Hr' & _).
    destruct (processPrefix_resume_cont _ _ _ _ _ _ H1) as [due ->].
    rewrite H0 in Hv, Hc, Hr. rewrite H1 in Hv', Hc', Hr'.
    simpl in Hv, Hc, Hr, Hv', Hc', Hr'.
    eapply once_inv_intro; [reflexivity | reflexivity | reflexivity | ..].
    + unfold queried. simpl. by rewrite Hc', Hc.
    + unfold queried. simpl. by rewrite Hc', Hc, Hv', Hv.
    + simpl. rewrite Hr', Hr. by apply Forall_insert_attempt.
  - destruct (queryAPI_settle_files p a o r st)
      as (_ & _ & _ & Hv & Hc & Hr & _).
    destruct (processPrefix_resume_frame p v r st1) as (Hc' & Hv' & Hr' & _).
    rewrite H0 in Hv, Hc, Hr. rewrite H1 in Hv', Hc', Hr'.
    simpl in Hv, Hc, Hr, Hv', Hc', Hr'.
    eapply once_inv_intro; [reflexivity | reflexivity | reflexivity | ..].
    + unfold queried. simpl. by rewrite Hc', Hc.
    + unfold queried. simpl. by rewrite Hc', Hc, Hv', Hv.
    + simpl. rewrite Hr', Hr. by apply Forall_delete.
  - assert (1 ≤ a) as Ha.
    { rewrite Forall_lookup in Hrun. by apply (Hrun _ _ H). }
    eapply once_inv_intro;
      [apply (queried_enter p (a + 1)) | reflexivity | reflexivity | ..].
    + by rewrite decide_False by lia.
    + by rewrite decide_False by lia.
    + apply Forall_insert_attempt; [done | simpl; lia].
  - eapply once_inv_intro; [reflexivity | reflexivity | reflexivity | ..];
      [done | done |]. by apply Forall_delete.
  - destruct (monitorBacklog_files
                (set_monitorDue (now st + MONITOR_PERIOD_MS) st))
      as (_ & _ & _ & Hv & Hc & Hr & _).
    by apply (once_inv_frame st).
  - done.
  - by apply (once_inv_frame st).
  - done.
Qed.

Lemma reachable_once_inv st : reachable st → once_inv st.
Proof.
  revert st. apply reachable_invariant.
  - rewrite extractAllNames_begin_spec. split_and!; [constructor | done | done].
  - intros l st st' _ Hinv Hl%exec_step_of. by eapply step_once_inv.
Qed.

Lemma NoDup_fmap_filter_length {A B} `{EqDecision B} (f : A → B)
    (l : list A) (y : B) :
  NoDup (f <$> l) → (length (filter (λ x, f x = y) l) ≤ 1)%nat.
Proof.
  induction l as [|x l IH]; [intros _; cbn; lia|].
  rewrite fmap_cons, NoDup_cons. intros [Hx Hl].
  destruct (decide (f x = y)) as [Hy|Hy].
  - rewrite filter_cons_True by done.
    assert (filter (λ x, f x = y) l = []) as ->; [|done].
    destruct (filter _ l) as [|z k] eqn:Hf; [done|].
    assert (z ∈ filter (λ x, f x = y) l) as Hz by (rewrite Hf; left).
    apply list_elem_of_filter in Hz as [Hz1 Hz2].
    destruct Hx. rewrite Hy, <- Hz1. by apply list_elem_of_fmap_2.
  - rewrite filter_cons_False by done. by apply IH.
Qed.

(** ** The prefixes of a run and their parents *)

Lemma chars_app s t : chars (s +:+ t) = (chars s ++ chars t)%list.
Proof. induction s as [|a s IH]; [done|]. cbn. by rewrite <- IH. Qed.

Lemma chars_inj s t : chars s = chars t → s = t.
Proof.
  intros H. rewrite <- (String.string_of_list_ascii_of_string s),
    <- (String.string_of_list_ascii_of_string t). by rewrite H.
Qed.

(** A character of the alphabet is one character other than [%], or it is
    [%20]. *)
Lemma VALID_CHARACTERS_shape c :
  c ∈ VALID_CHARACTERS →
  (∃ a, chars c = [a] ∧ a ≠ "%"%char) ∨ chars c = chars "%20".
Proof.
  assert (Forall (λ c, (length (chars c) = 1%nat
                        ∧ last (chars c) ≠ Some "%"%char)
                       ∨ chars c = chars "%20") VALID_CHARACTERS) as Hall.
  { apply (bool_decide_unpack _). by vm_compute. }
  rewrite Forall_forall in Hall. intros [[Hlen Hlast]|H]%Hall; [left|by right].
  destruct (chars c) as [|a [|??]]; simplify_eq/=. exists a. split; [done|].
  intros ->. by apply Hlast.
Qed.

Lemma node_nonempty s : is_node s → chars s ≠ [].
Proof.
  intros [c Hc|p c _ Hc]; [|rewrite chars_app];
    destruct (VALID_CHARACTERS_shape c Hc) as [(a & Ha & _)|Ha];
    rewrite Ha; try done; by intros [_ ?]%app_eq_nil.
Qed.

Lemma node_last s : is_node s → last (chars s) ≠ Some "%"%char.
Proof.
  intros [c Hc|p c _ Hc]; [|rewrite chars_app];
    destruct (VALID_CHARACTERS_shape c Hc) as [(a & Ha & Hne)|Ha];
    rewrite Ha; rewrite ?last_app; simpl; congruence.
Qed.

Lemma node_no_escape s q : is_node s → chars s ≠ (q ++ chars "%2")%list.
Proof.
  intros Hs Heq. destruct Hs as [c Hc|p c Hp Hc].
  - destruct (VALID_CHARACTERS_shape c Hc) as [(a & Ha & Hne)|Ha];
      rewrite Ha in Heq.
    + apply (f_equal length) in Heq. rewrite length_app in Heq. simpl in Heq. lia.
    + apply (f_equal last) in Heq. by rewrite last_app in Heq.
  - rewrite chars_app in Heq.
    destruct (VALID_CHARACTERS_shape c Hc) as [(a & Ha & Hne)|Ha];
      rewrite Ha in Heq.
    + change (chars "%2") with (["%"%char] ++ ["2"%char])%list in Heq.
      rewrite (assoc_L (++)) in Heq.
      apply app_inj_2 in Heq as [Heq _]; [|done].
      apply (node_last p Hp). rewrite Heq. by rewrite last_app.
    + apply (f_equal last) in Heq. by rewrite !last_app in Heq.
Qed.

(** A child has one parent and one last character. *)
Lemma node_parent_unique p p' c c' :
  is_node p → is_node p' → c ∈ VALID_CHARACTERS → c' ∈ VALID_CHARACTERS →
  p +:+ c = p' +:+ c' → p = p' ∧ c = c'.
Proof.
  intros Hp Hp' Hc Hc' Heq%(f_equal chars). rewrite !chars_app in Heq.
  destruct (VALID_CHARACTERS_shape c Hc) as [(a & Ha & Hne)|Ha],
    (VALID_CHARACTERS_shape c' Hc') as [(a' & Ha' & Hne')|Ha'].
  - apply app_inj_2 in Heq as [H1 H2]; [|by rewrite Ha, Ha'].
    split; by apply chars_inj.
  - exfalso. rewrite Ha, Ha' in Heq.
    change (chars "%20") with (chars "%2" ++ ["0"%char])%list in Heq.
    rewrite (assoc_L (++)) in Heq.
    apply app_inj_2 in Heq as [Heq _]; [|done].
    by apply (node_no_escape p (chars p')).
  - exfalso. rewrite Ha, Ha' in Heq.
    change (chars "%20") with (chars "%2" ++ ["0"%char])%list in Heq.
    rewrite (assoc_L (++)) in Heq.
    apply app_inj_2 in Heq as [Heq _]; [|done].
    by apply (node_no_escape p' (chars p)).
  - apply app_inj_2 in Heq as [H1 H2]; [|by rewrite Ha, Ha'].
    split; by apply chars_inj.
Qed.

(** A child is not one of the initial prefixes. *)
Lemma node_child_not_root p c :
  is_node p → c ∈ VALID_CHARACTERS → p +:+ c ∉ VALID_CHARACTERS.
Proof.
  intros Hp Hc Hroot.
  pose proof (node_nonempty p Hp) as Hne.
  destruct (VALID_CHARACTERS_shape _ Hroot) as [(b & Hb & _)|Hb];
    rewrite chars_app in Hb;
    destruct (VALID_CHARACTERS_shape c Hc) as [(a & Ha & _)|Ha];
    rewrite Ha in Hb.
  - destruct (chars p) as [|? [|??]]; simplify_eq/=.
  - destruct (chars p) as [|? [|??]]; simplify_eq/=.
  - change (chars "%20") with (chars "%2" ++ ["0"%char])%list in Hb.
    apply app_inj_2 in Hb as [Hb _]; [|done].
    by apply (node_no_escape p []).
  - change (chars "%20") with ([] ++ chars "%20")%list in Hb at 2.
    apply app_inj_2 in Hb as [Hb _]; done.
Qed.

Lemma omap_lookup_split {A B} (f : A → option B) (l : list A) i x :
  l !! i = Some x →
  omap f l
  = (omap f (take i l) ++ option_list (f x) ++ omap f (drop (S i) l))%list.
Proof.
  intros Hi. rewrite <- (take_drop_middle l i x Hi) at 1.
  rewrite omap_app. simpl. by destruct (f x).
Qed.

Lemma omap_insert_split {A B} (f : A → option B) (l : list A) i x y :
  l !! i = Some x →
  omap f (<[i := y]> l)
  = (omap f (take i l) ++ option_list (f y) ++ omap f (drop (S i) l))%list.
Proof.
  intros Hi. rewrite insert_take_drop by by eapply lookup_lt_Some.
  rewrite omap_app. simpl. by destruct (f y).
Qed.

Lemma omap_delete_split {A B} (f : A → option B) (l : list A) i :
  omap f (delete i l) = (omap f (take i l) ++ omap f (drop (S i) l))%list.
Proof. by rewrite delete_take_drop, omap_app. Qed.

Lemma tree_start_skip p rest rn ans ad vis :
  tree_inv_on (p :: rest) rn ans ad vis → tree_inv_on rest rn ans ad vis.
Proof.
  intros (Hw & Hr & Ha & Hor & Hnd & Hvis).
  apply Forall_cons in Hw as [_ Hw]. by split_and!.
Qed.

Lemma tree_start p rest rn ans ad vis :
  p ∉ vis →
  tree_inv_on (p :: rest) rn ans ad vis →
  tree_inv_on rest (rn ++ [AwaitResponse p 1]) ans ad (vis ++ [p]).
Proof.
  intros Hp (Hw & Hr & Ha & Hor & Hnd & Hvis).
  apply Forall_cons in Hw as [Hnode Hw].
  assert (omap unanswered (rn ++ [AwaitResponse p 1]) ++ ans.*1
          ≡ₚ p :: (omap unanswered rn ++ ans.*1)) as Hperm.
  { rewrite omap_app. simpl. rewrite <- (assoc_L (++)). simpl.
    by rewrite <- Permutation_middle. }
  split_and!; [done | | done | done | |].
  - apply Forall_app. split; [done|]. by apply Forall_singleton.
  - rewrite Hperm. apply NoDup_cons. split; [|done]. intros Hin. by apply Hp, Hvis.
  - intros q. rewrite Hperm. intros [->|Hq]%elem_of_cons; [set_solver|].
    apply elem_of_app. left. by apply Hvis.
Qed.

Lemma tree_update i k k' w rn ans ad vis :
  rn !! i = Some k →
  cont_prefix k' = cont_prefix k → unanswered k' = unanswered k →
  tree_inv_on w rn ans ad vis → tree_inv_on w (<[i := k']> rn) ans ad vis.
Proof.
  intros Hi Hpre Hun (Hw & Hr & Ha & Hor & Hnd & Hvis).
  assert (omap unanswered (<[i := k']> rn) = omap unanswered rn) as Heq.
  { by rewrite (omap_insert_split _ _ _ k), (omap_lookup_split _ rn i k), Hun. }
  rewrite <- Heq in Hnd, Hvis. split_and!; try done.
  apply Forall_insert; [done|]. rewrite Hpre.
  rewrite Forall_lookup in Hr. by apply (Hr _ _ Hi).
Qed.

Lemma tree_finish i p due w rn ans ad vis :
  rn !! i = Some (AwaitFinish p due) →
  tree_inv_on w rn ans ad vis → tree_inv_on w (delete i rn) ans ad vis.
Proof.
  intros Hi (Hw & Hr & Ha & Hor & Hnd & Hvis).
  assert (omap unanswered (delete i rn) = omap unanswered rn) as Heq.
  { by rewrite omap_delete_split, (omap_lookup_split _ rn i _ Hi). }
  rewrite <- Heq in Hnd, Hvis. split_and!; try done. by apply Forall_delete.
Qed.

(** The query of job [i] is answered with [v]: the job goes on without a
    query ([rn'] is [rn] with job [i] finishing or removed) and the
    children [new] join the queue. *)
Lemma tree_answer i p a v new w rn rn' ans ad vis :
  rn !! i = Some (AwaitResponse p a) →
  omap unanswered rn'
  = omap unanswered (take i rn) ++ omap unanswered (drop (S i) rn) →
  Forall (λ k, is_node (cont_prefix k)) rn' →
  new = []
  ∨ (∃ items, v = JArr items
              ∧ Z.of_nat (length items) = MAX_RESULTS_PER_QUERY
              ∧ new = children p vis) →
  tree_inv_on w rn ans ad vis →
  tree_inv_on (w ++ new) rn' ((p, v) :: ans) (reverse new ++ ad) vis.
Proof.
  intros Hi Hrn' Hr' Hnew (Hw & Hr & Ha & Hor & Hnd & Hvis).
  assert (is_node p) as Hp.
  { rewrite Forall_lookup in Hr. apply (Hr _ _ Hi). }
  assert (omap unanswered rn' ++ ((p, v) :: ans).*1
          ≡ₚ omap unanswered rn ++ ans.*1) as Hperm.
  { rewrite Hrn', (omap_lookup_split _ rn i _ Hi). simpl.
    rewrite <- !(assoc_L (++)). simpl.
    by rewrite <- !Permutation_middle. }
  split_and!.
  - apply Forall_app. split; [done|].
    destruct Hnew as [->|(items & _ & _ & ->)]; [done|].
    unfold children. apply Forall_fmap, Forall_forall.
    intros c [_ Hc]%list_elem_of_filter. simpl. by apply node_child.
  - done.
  - by apply Forall_cons.
  - intros q [Hq|Hq]%elem_of_app.
    + destruct Hnew as [->|(items & -> & Hlen & ->)]; [by apply elem_of_nil in Hq|].
      rewrite elem_of_reverse in Hq. unfold children in Hq.
      apply list_elem_of_fmap in Hq as (c & -> & [_ Hc]%list_elem_of_filter).
      right. exists p, c, items. split_and!; [done | done | by left | done].
    + destruct (Hor q Hq) as [?|(p0 & c & items & ? & ? & ? & ?)]; [by left|].
      right. exists p0, c, items. split_and!; [done | done | by right | done].
  - by rewrite Hperm.
  - intros q. rewrite Hperm. apply Hvis.
Qed.

Lemma processPrefix_resume_tree p v r st :
  let st' := (processPrefix_resume p v r st).1 in
  answers st' = (p, v) :: answers st
  ∧ running st' = running st
  ∧ visitedPrefixes st' = visitedPrefixes st
  ∧ ∃ new,
      waiting st' = waiting st ++ new
      ∧ added st' = reverse new ++ added st
      ∧ (new = []
         ∨ ∃ items, v = JArr items
                    ∧ Z.of_nat (length items) = MAX_RESULTS_PER_QUERY
                    ∧ new = children p (visitedPrefixes st)).
Proof.
  assert (∀ v', (∀ items, v' ≠ JArr items) →
            (processPrefix_resume p v' r st).1
            = set_rejected (p :: rejected st)
                (set_answers ((p, v') :: answers st) st)) as Hother.
  { intros v' Hv'. unfold processPrefix_resume.
    destruct v'; try done. by destruct (Hv' items). }
  destruct v as [| | | | |items|];
    try (rewrite Hother by done; simpl; split_and!; try done;
         exists []; by rewrite app_nil_r; split_and!; [| |left]).
  unfold processPrefix_resume. cbv zeta.
  set (st1 := set_discoveredNames _ _).
  destruct (maybeSaveProgress_frame st1)
    as (Hw & Ha & Hv & Hr & _ & Han & _).
  destruct (Z.eqb_spec (Z.of_nat (length items)) MAX_RESULTS_PER_QUERY) as [Hlen|Hlen];
    cbn [fst]; rewrite ?expand_spec; simpl; rewrite ?Hw, ?Ha, ?Hv, ?Hr, ?Han;
    (split_and!; [done | done | done |]).
  - exists (children p (visitedPrefixes st)). split_and!; [done | done |].
    right. by exists items.
  - exists []. rewrite app_nil_r. split_and!; [done | done | by left].
Qed.

Lemma step_tree_inv l st st' : tree_inv st → step_of l st st' → tree_inv st'.
Proof.
  unfold tree_inv. intros Hinv Hstep. destruct Hstep.
  - rewrite H in Hinv. by eapply tree_start_skip.
  - rewrite H in Hinv. by apply (tree_start p).
  - destruct (queryAPI_settle_files p a o r st)
      as (_ & _ & _ & Hv & _ & Hr & _ & Hw & Had & Han).
    rewrite H0 in Hv, Hr, Hw, Had, Han. simpl in Hv, Hr, Hw, Had, Han. simpl.
    rewrite Hv, Hr, Hw, Had, Han. by eapply tree_update.
  - destruct (queryAPI_settle_files p a o r st)
      as (_ & _ & _ & Hv & _ & Hr & _ & Hw & Had & Han).
    rewrite H0 in Hv, Hr, Hw, Had, Han. simpl in Hv, Hr, Hw, Had, Han.
    destruct (processPrefix_resume_tree p v r st1)
      as (Han' & Hr' & Hv' & new & Hw' & Had' & Hnew).
    destruct (processPrefix_resume_cont _ _ _ _ _ _ H1) as [due ->].
    rewrite H1 in Han', Hr', Hv', Hw', Had'.
    simpl in Han', Hr', Hv', Hw', Had'. simpl.
    rewrite Han', Hr', Hv', Hw', Had', Hv, Hr, Hw, Had, Han.
    rewrite Hv in Hnew.
    eapply (tree_answer i p a); try done.
    + by rewrite (omap_insert_split _ _ _ _ _ H).
    + destruct Hinv as (_ & Hnodes & _). apply Forall_insert; [done|]. simpl.
      rewrite Forall_lookup in Hnodes. apply (Hnodes _ _ H).
  - destruct (queryAPI_settle_files p a o r st)
      as (_ & _ & _ & Hv & _ & Hr & _ & Hw & Had & Han).
    rewrite H0 in Hv, Hr, Hw, Had, Han. simpl in Hv, Hr, Hw, Had, Han.
    destruct (processPrefix_resume_tree p v r st1)
      as (Han' & Hr' & Hv' & new & Hw' & Had' & Hnew).
    rewrite H1 in Han', Hr', Hv', Hw', Had'.
    simpl in Han', Hr', Hv', Hw', Had'. simpl.
    rewrite Han', Hr', Hv', Hw', Had', Hv, Hr, Hw, Had, Han.
    rewrite Hv in Hnew.
    eapply (tree_answer i p a); try done.
    + by rewrite omap_delete_split.
    + destruct Hinv as (_ & Hnodes & _). by apply Forall_delete.
  - simpl. by eapply tree_update.
  - simpl. by eapply tree_finish.
  - destruct (monitorBacklog_files
                (set_monitorDue (now st + MONITOR_PERIOD_MS) st))
      as (_ & _ & _ & Hv & _ & Hr & _ & Hw & Had & Han).
    by rewrite Hv, Hr, Hw, Had, Han.
  - done.
  - done.
  - done.
Qed.

Lemma reachable_tree_inv st : reachable st → tree_inv st.
Proof.
  revert st. apply reachable_invariant.
  - unfold tree_inv. rewrite extractAllNames_begin_spec. simpl.
    split_and!; try done.
    + apply Forall_forall. intros c Hc. by apply node_root.
    + intros q Hq. left. apply elem_of_reverse. exact Hq.
    + constructor.
  - intros l st st' _ Hinv Hl%exec_step_of. by eapply step_tree_inv.
Qed.

(** The children of a prefix whose query is still running were never
    handed to the queue. *)
Lemma children_fresh i p a c w rn ans ad vis :
  tree_inv_on w rn ans ad vis →
  rn !! i = Some (AwaitResponse p a) →
  c ∈ VALID_CHARACTERS → p +:+ c ∉ ad.
Proof.
  intros (_ & Hr & Ha & Hor & Hnd & _) Hi Hc Hin.
  assert (is_node p) as Hp.
  { rewrite Forall_lookup in Hr. apply (Hr _ _ Hi). }
  destruct (Hor _ Hin) as [Hroot|(p' & c' & items & Heq & Hc' & Hans & _)].
  - by apply (node_child_not_root p c).
  - rewrite Forall_forall in Ha.
    apply node_parent_unique in Heq as [<- <-];
      [| done | apply (Ha _ Hans) | done | done].
    apply NoDup_app in Hnd as (_ & Hdisj & _). apply (Hdisj p).
    + apply list_elem_of_omap. exists (AwaitResponse p a).
      split; [by eapply list_elem_of_lookup_2 | done].
    + by apply (list_elem_of_fmap_2 fst _ (p, JArr items)).
Qed.

(** In a run no prefix is handed to the queue twice: a child comes from
    its one parent, when the one query of the parent is answered. *)
Lemma step_added_NoDup l st st' :
  tree_inv st → NoDup (added st) → step_of l st st' → NoDup (added st').
Proof.
  intros Hinv Hnd Hstep.
  assert (∀ i p a o r v st1,
            running st !! i = Some (AwaitResponse p a) →
            queryAPI_settle p a o r st = (st1, Return v) →
            NoDup (added (processPrefix_resume p v r st1).1)) as Hanswer.
  { intros i p a o r v st1 Hi Hs.
    destruct (queryAPI_settle_files p a o r st)
      as (_ & _ & _ & Hv & _ & _ & _ & _ & Had & _).
    rewrite Hs in Hv, Had. simpl in Hv, Had.
    destruct (processPrefix_resume_tree p v r st1)
      as (_ & _ & _ & new & _ & Had' & Hnew).
    rewrite Had', Had.
    destruct Hnew as [->|(items & _ & _ & ->)]; [done|].
    apply NoDup_app. split_and!; [|  | done].
    - rewrite reverse_Permutation. apply NoDup_children.
    - intros q Hq. rewrite elem_of_reverse in Hq. unfold children in Hq.
      apply list_elem_of_fmap in Hq as (c & -> & [_ Hc]%list_elem_of_filter).
      by eapply children_fresh. }
  destruct Hstep; try done.
  - destruct (queryAPI_settle_files p a o r st)
      as (_ & _ & _ & _ & _ & _ & _ & _ & Had & _).
    rewrite H0 in Had. simpl in Had. simpl. by rewrite Had.
  - pose proof (Hanswer _ _ _ _ _ _ _ H H0) as Hnd'. by rewrite H1 in Hnd'.
  - pose proof (Hanswer _ _ _ _ _ _ _ H H0) as Hnd'. by rewrite H1 in Hnd'.
  - destruct (monitorBacklog_files
                (set_monitorDue (now st + MONITOR_PERIOD_MS) st))
      as (_ & _ & _ & _ & _ & _ & _ & _ & Had & _).
    by rewrite Had.
Qed.

Lemma reachable_added_NoDup st : reachable st → tree_inv st ∧ NoDup (added st).
Proof.
  revert st. apply reachable_invariant.
  - split; [apply reachable_tree_inv, reachable_begin|].
    rewrite extractAllNames_begin_spec. simpl.
    apply (bool_decide_unpack _). by vm_compute.
  - intros l st st' _ [Hinv Hnd] Hl%exec_step_of. split.
    + by eapply step_tree_inv.
    + by eapply step_added_NoDup.
Qed.

Lemma NoDup_fst_agree {A B} (l : list (A * B)) k v1 v2 :
  NoDup l.*1 → (k, v1) ∈ l → (k, v2) ∈ l → v1 = v2.
Proof.
  induction l as [|[k' v'] l IH]; simpl; [by intros _ ?%elem_of_nil|].
  rewrite NoDup_cons. intros [Hk Hl] [?|H1]%elem_of_cons [?|H2]%elem_of_cons;
    simplify_eq; [done | | | by apply IH].
  - destruct Hk. by apply (list_elem_of_fmap_2 fst _ (k', v2)).
  - destruct Hk. by apply (list_elem_of_fmap_2 fst _ (k', v1)).
Qed.

(** ** One call of [queryAPI] inside a run

    The call of [queryAPI] on its own, above, is what job [i] does in the
    event loop when its requests settle as the script says and its timers
    fire when they are due. *)

Lemma queryAPI_settle_running rn p a o r st :
  queryAPI_settle p a o r (set_running rn st)
  = (set_running rn (queryAPI_settle p a o r st).1,
     (queryAPI_settle p a o r st).2).
Proof.
  unfold queryAPI_settle, queryAPI_catch, error_status.
  destruct o as [data|s|]; [destruct (get_results data)|..]; simpl;
    repeat (case_match; simpl); done.
Qed.

Lemma maybeSaveProgress_running rn st :
  maybeSaveProgress (set_running rn st) = set_running rn (maybeSaveProgress st).
Proof. unfold maybeSaveProgress. simpl. by case_match. Qed.

Lemma processPrefix_resume_running rn p v r st :
  processPrefix_resume p v r (set_running rn st)
  = (set_running rn (processPrefix_resume p v r st).1,
     (processPrefix_resume p v r st).2).
Proof.
  unfold processPrefix_resume. destruct v; try done. cbv zeta.
  change (set_discoveredNames ?n (set_answers ?a (set_running rn st)))
    with (set_running rn (set_discoveredNames n (set_answers a st))).
  rewrite maybeSaveProgress_running.
  destruct (_ =? _); [|done]. by rewrite !expand_spec.
Qed.

Lemma delete_insert_same {A} (l : list A) i x :
  delete i (<[i := x]> l) = delete i l.
Proof.
  revert i. induction l as [|y l IH]; intros [|i]; simpl; [done..|].
  f_equal. apply IH.
Qed.

Lemma queryAPI_catch_delay p a status r st st1 ms :
  0 ≤ a → is_sample r →
  queryAPI_catch p a status r st = (st1, Retry ms) → 0 ≤ ms.
Proof.
  intros Ha Hr. unfold queryAPI_catch.
  destruct (match status with Some s => s =? 429 | None => false end).
  - intros [= _ <-].
    pose proof (delay_bounds RATE_LIMIT_COOLDOWN_MS r Hr).
    unfold RATE_LIMIT_COOLDOWN_MS in *. lia.
  - destruct (a <=? MAX_ATTEMPTS); [|done]. intros [= _ <-].
    pose proof (delay_bounds (BASE_DELAY_MS * 2 ^ a) r Hr).
    pose proof (Z.pow_nonneg 2 a). unfold BASE_DELAY_MS in *. lia.
Qed.

Lemma queryAPI_settle_delay p a o r st st1 ms :
  0 ≤ a → is_sample r →
  queryAPI_settle p a o r st = (st1, Retry ms) → 0 ≤ ms.
Proof.
  intros Ha Hr. unfold queryAPI_settle.
  destruct o as [data|s|]; [destruct (get_results data); [done|]|..];
    by apply queryAPI_catch_delay.
Qed.

(** A call of [queryAPI] that returns is a run of the event loop: job [i]
    goes through the steps of the call and then through lines 153-171. *)
Lemma queryAPI_is_a_run i script p a st v st' rn :
  0 ≤ a →
  Forall (λ x, is_sample x.2) script →
  rn !! i = Some (AwaitResponse p a) →
  queryAPI script p a st = Some (v, st') →
  run (steps_of_call i script p a st) (set_running rn (queryAPI_enter p a st))
  = Some (let '(st2, k) :=
            processPrefix_resume p v (last_sample script p a st) st' in
          set_running (match k with
                       | Some k => <[i := k]> rn
                       | None => delete i rn
                       end) st2).
Proof.
  revert a st rn.
  induction script as [|[o r] script IH]; intros a st rn Ha Hok Hi; [done|].
  apply Forall_cons in Hok as [Hr Hok]. simpl in Hr.
  rewrite queryAPI_cons. cbn [steps_of_call last_sample].
  destruct (queryAPI_settle p a o r (queryAPI_enter p a st))
    as [st1 [v1|ms]] eqn:Hs.
  - intros [= <- <-]. cbn [run]. cbn [exec]. cbn [running set_running].
    rewrite Hi, queryAPI_settle_running, Hs. cbn [fst snd].
    rewrite processPrefix_resume_running.
    destruct (processPrefix_resume p v1 r st1) as [st2 [k|]]; done.
  - intros Hq. pose proof (queryAPI_settle_delay _ _ _ _ _ _ _ Ha Hr Hs) as Hms.
    pose proof (lookup_lt_Some _ _ _ Hi) as Hlt.
    set (due := now st1 + ms).
    assert (exec (LResponse i o r) (set_running rn (queryAPI_enter p a st))
            = Some (set_running (<[i := AwaitRetry p a due]> rn) st1)) as H1.
    { rewrite (exec_response_retry i p a o r ms _ (set_running rn st1));
        [done | done | by rewrite queryAPI_settle_running, Hs]. }
    assert (exec (LTime ms) (set_running (<[i := AwaitRetry p a due]> rn) st1)
            = Some (set_now due
                      (set_running (<[i := AwaitRetry p a due]> rn) st1)))
      as H2.
    { simpl. by destruct (Z.leb_spec 0 ms); [|lia]. }
    assert (exec (LWake i)
              (set_now due (set_running (<[i := AwaitRetry p a due]> rn) st1))
            = Some (set_running (<[i := AwaitResponse p (a + 1)]> rn)
                      (queryAPI_enter p (a + 1) (set_now due st1)))) as H3.
    { rewrite (exec_wake i p a due); [|by apply list_lookup_insert_eq].
      cbn [now set_now set_running].
      destruct (Z.leb_spec due due); [|lia].
      cbn [running set_now set_running]. by rewrite list_insert_insert_eq. }
    change (run ([LResponse i o r; LTime ms; LWake i] ++ ?ls) ?s)
      with (exec (LResponse i o r) s ≫= λ s1,
            exec (LTime ms) s1 ≫= λ s2, exec (LWake i) s2 ≫= run ls).
    rewrite H1. cbn [mbind option_bind]. rewrite H2. cbn [mbind option_bind].
    rewrite H3. cbn [mbind option_bind].
    rewrite (IH (a + 1) (set_now due st1) (<[i := AwaitResponse p (a + 1)]> rn)
               ltac:(lia) Hok (list_lookup_insert_eq _ _ _ Hlt) Hq).
    destruct (processPrefix_resume p v _ st') as [st2 [k|]];
      by rewrite ?list_insert_insert_eq, ?delete_insert_same.
Qed.

(** [queryAPI] changes the counters, the clock and the logs only. *)
Lemma queryAPI_frame script p a st v st' :
  queryAPI script p a st = Some (v, st') →
  waiting st' = waiting st ∧ added st' = added st
  ∧ visitedPrefixes st' = visitedPrefixes st
  ∧ discoveredNames st' = discoveredNames st
  ∧ answers st' = answers st ∧ files st' = files st.
Proof.
  revert a st. induction script as [|[o r] script IH]; intros a st; [done|].
  rewrite queryAPI_cons.
  destruct (queryAPI_settle_files p a o r (queryAPI_enter p a st))
    as (Hf & Hn & _ & Hv & _ & _ & _ & Hw & Had & Han).
  destruct (queryAPI_settle p a o r (queryAPI_enter p a st))
    as [st1 [v1|ms]]; simpl in Hf, Hn, Hv, Hw, Had, Han.
  - intros [= <- <-]. by rewrite Hf, Hn, Hv, Hw, Had, Han.
  - intros (Hw' & Had' & Hv' & Hn' & Han' & Hf')%IH.
    by rewrite Hw', Had', Hv', Hn', Han', Hf'.
Qed.

(** What the job of a call that returns [v] has done in the event loop:
    [v] is the answer recorded for the prefix; when it is an array its
    items are among the names, the job is in its last delay, and the
    children were handed to the queue exactly when there are 15 items;
    otherwise the job is gone. *)
Lemma queryAPI_in_run i script p a st v st' rn :
  0 ≤ a →
  Forall (λ x, is_sample x.2) script →
  rn !! i = Some (AwaitResponse p a) →
  queryAPI script p a st = Some (v, st') →
  ∃ st2,
    run (steps_of_call i script p a st) (set_running rn (queryAPI_enter p a st))
    = Some st2
    ∧ answers st2 = (p, v) :: answers st
    ∧ (∀ items, v = JArr items →
         (∃ due, running st2 = <[i := AwaitFinish p due]> rn)
         ∧ discoveredNames st2 = add_names items (discoveredNames st)
         ∧ waiting st2
           = waiting st
             ++ (if Z.of_nat (length items) =? MAX_RESULTS_PER_QUERY
                 then children p (visitedPrefixes st) else []))
    ∧ ((∀ items, v ≠ JArr items) → running st2 = delete i rn).
Proof.
  intros Ha Hok Hi Hq.
  rewrite (queryAPI_is_a_run i script p a st v st' rn) by done.
  destruct (queryAPI_frame _ _ _ _ _ _ Hq) as (Hw & _ & Hv & Hn & Han & _).
  set (r := last_sample script p a st).
  destruct (processPrefix_resume_tree p v r st') as (Han' & _).
  destruct (processPrefix_resume p v r st') as [st2 k] eqn:Hres.
  simpl in Han'. eexists. split; [done|]. split_and!.
  - simpl. by rewrite Han', Han.
  - intros items ->.
    destruct (processPrefix_resume_queue p items r st') as (Hw' & _ & _ & Hn').
    destruct (processPrefix_resume_array p items r st') as (st3 & due & Hres').
    rewrite Hres in Hw', Hn', Hres'. simpl in Hw', Hn'. simplify_eq.
    split_and!; simpl.
    + by exists due.
    + by rewrite Hn', Hn.
    + by rewrite Hw', Hw, Hv.
  - intros Hv'. unfold processPrefix_resume in Hres.
    destruct v; simplify_eq; try done. by destruct (Hv' items).
Qed.

(** * The claims *)

(** One failed request followed by a success is recovered; after five 429
    the same failure is the sixth attempt and ends the call with the empty
    array: the 429 retries have used up the retries of line 131. *)
Lemma rate_limit_uses_attempts :
  let failed := (RejectedNoResponse, 0%Q) in
  let found := (Fulfilled (JObj [("results", JArr [JStr "ba"])]), 0%Q) in
  fst <$> queryAPI [failed; found] "b" 1 initial = Some (JArr [JStr "ba"])
  ∧ fst <$> queryAPI (rate_limited [0; 0; 0; 0; 0]%Q ++ [failed; found]) "b" 1
              initial
    = Some (JArr [])
  ∧ (λ x, head (console x.2))
      <$> queryAPI (rate_limited [0; 0; 0; 0; 0]%Q ++ [failed; found]) "b" 1
            initial
    = Some (Some (LogFailed "b" 6)).
Proof. vm_compute. done. Qed.

(** C1, as the script has it.  A 429 is retried after the cooldown of
    1000 ms plus the jitter of [delay], in [0, 200), whatever the attempt
    number: after
    any number of 429 in a row the next success is returned as the result
    of the call, one request was made per outcome, nothing but the
    adjustments of the concurrency was logged, and in the event loop the
    job records this one answer for the prefix.  Each 429 advances
    [attempt] like any other retry, so the retries of line 131 are used up
    by them: a failure that is not a 429 ends the call as soon as the
    attempt number exceeds 5. *)
Theorem rate_limited_retry (rs : list Q) (p : string) (a : Z) (st : state)
    (data v : json) (r : Q) :
  Forall is_sample rs →
  is_sample r →
  0 ≤ a →
  get_results data = Some v →
  let n := Z.of_nat (length rs) in
  let script := rate_limited rs ++ [(Fulfilled data, r)] in
  (∀ a' r' s, is_sample r' →
     queryAPI_settle p a' (RejectedStatus 429) r' s
     = (adjustConcurrency (scaled_down (currentConcurrency s)) s,
        Retry (RATE_LIMIT_COOLDOWN_MS + jitter_of r'))
     ∧ 0 ≤ jitter_of r' < JITTER_MS)
  ∧ (∃ st',
       queryAPI script p a st = Some (js_or v (JArr []), st')
       ∧ totalRequests st' = totalRequests st + n + 1
       ∧ (call_attempt <$> calls st')
         = reverse (seqZ a (n + 1)) ++ (call_attempt <$> calls st)
       ∧ now st + RATE_LIMIT_COOLDOWN_MS * n ≤ now st'
           ≤ now st + (RATE_LIMIT_COOLDOWN_MS + JITTER_MS - 1) * n
       ∧ ∃ cs, console st' = (LogAdjusted <$> cs) ++ console st)
  ∧ (∀ i rn, rn !! i = Some (AwaitResponse p a) →
       ∃ st2,
         run (steps_of_call i script p a st)
           (set_running rn (queryAPI_enter p a st)) = Some st2
         ∧ answers st2 = (p, js_or v (JArr [])) :: answers st)
  ∧ (∀ o r' rest, transient o → MAX_ATTEMPTS < a + n →
       ∃ st',
         queryAPI (rate_limited rs ++ (o, r') :: rest) p a st
         = Some (JArr [], st')
         ∧ head (console st') = Some (LogFailed p (a + n))).
Proof.
  intros Hrs Hr Ha Hv n script.
  destruct (after_rate_limits_spec p a rs st Hrs)
    as (Htot & Hnow & [cs Hcon] & Hcalls).
  assert (∃ st', queryAPI script p a st = Some (js_or v (JArr []), st')
                 ∧ st' = adjustConcurrency
                           (currentConcurrency
                              (queryAPI_enter p (a + n)
                                 (after_rate_limits p a rs st))
                            + CONCURRENCY_ADJUSTMENT_UP)
                           (queryAPI_enter p (a + n)
                              (after_rate_limits p a rs st)))
    as (st' & Hq & Hst').
  { unfold script. rewrite queryAPI_rate_limited, queryAPI_cons.
    rewrite (settle_fulfilled _ _ _ v) by done. by eexists. }
  split_and!.
  - intros a' r' s Hr'. split; [apply settle_429 | by apply jitter_bounds].
  - exists st'. split; [done|]. subst st'.
    assert (∀ c s, totalRequests (adjustConcurrency c (queryAPI_enter p (a + n) s))
                   = totalRequests s + 1) as -> by done.
    assert (∀ c s, call_attempt <$> calls (adjustConcurrency c (queryAPI_enter p (a + n) s))
                   = (a + n) :: (call_attempt <$> calls s)) as -> by done.
    assert (∀ c s, now (adjustConcurrency c (queryAPI_enter p (a + n) s)) = now s)
      as -> by done.
    assert (∀ c s, console (adjustConcurrency c (queryAPI_enter p (a + n) s))
                   = LogAdjusted (clamp c) :: console s) as -> by done.
    rewrite Htot, Hcalls, Hcon. subst n. split_and!; [lia | | lia | lia | ].
    + rewrite seqZ_app by lia. rewrite reverse_app. done.
    + by eexists (_ :: cs).
  - intros i rn Hi.
    destruct (queryAPI_in_run i script p a st (js_or v (JArr [])) st' rn)
      as (st2 & Hrun & Hans & _); [done | | done | done | by exists st2].
    unfold script, rate_limited. apply Forall_app. split.
    + by apply Forall_fmap.
    + by apply Forall_singleton.
  - intros o r' rest Ho Ha'.
    rewrite queryAPI_rate_limited, queryAPI_cons, settle_transient by done.
    rewrite catch_transient_fail by done. by eexists.
Qed.

Lemma rate_limited_retry_witness :
  ∃ st',
    queryAPI (rate_limited [0; 1 # 2; 255 # 256]%Q
                ++ [(Fulfilled (JObj [("results", JArr [JStr "ba"])]), 0%Q)])
      "b" 1 (extractAllNames_begin initial)
    = Some (JArr [JStr "ba"], st')
    ∧ totalRequests st' = 4.
Proof.
  assert (Forall is_sample [0; 1 # 2; 255 # 256]%Q) as Hrs.
  { repeat apply Forall_cons_2; try apply Forall_nil_2; sample. }
  assert (is_sample 0) as Hr by sample.
  assert (0 ≤ 1) as Ha by lia.
  destruct (rate_limited_retry [0; 1 # 2; 255 # 256]%Q "b" 1
              (extractAllNames_begin initial)
              (JObj [("results", JArr [JStr "ba"])]) (JArr [JStr "ba"]) 0
              Hrs Hr Ha eq_refl) as (_ & (st' & Hq & Htot & _) & _).
  exists st'. split; [exact Hq | exact Htot].
Defined.

(** With the first 26 jobs started the queue is at its limit of
    concurrency.  Lines 162-166 run twice for the prefix "aa" then put two
    jobs in the queue, and the prefix is not in [visitedPrefixes] after
    either. *)
Lemma enqueue_twice_adds_two_jobs :
  ∃ st,
    run (replicate 26 LStart) (extractAllNames_begin initial) = Some st
    ∧ queue_allows st = false
    ∧ ("aa" ∉ visitedPrefixes (enqueue "aa" st))
    ∧ ("aa" ∉ visitedPrefixes (enqueue "aa" (enqueue "aa" st)))
    ∧ waiting (enqueue "aa" (enqueue "aa" st))
      = (waiting st ++ ["aa"; "aa"])%list.
Proof.
  set (st := default initial
               (run (replicate 26 LStart) (extractAllNames_begin initial))).
  exists st. split_and!.
  - vm_compute. reflexivity.
  - vm_compute. reflexivity.
  - apply (bool_decide_unpack _). vm_compute. reflexivity.
  - apply (bool_decide_unpack _). vm_compute. reflexivity.
  - vm_compute. reflexivity.
Qed.

(** C2, as the script has it.  A prefix enters [visitedPrefixes] when its
    job starts to run (line 150); a job that the queue cannot start yet
    waits, and its prefix is not visited meanwhile.  Handing a visited
    prefix to the queue does nothing (line 163), a job that starts for a
    visited prefix returns at once (line 149).  In every run no prefix is
    handed to the queue twice, since a prefix has one parent and the
    parent is answered once, and [queryAPI(prefix)] is called at most once
    for each prefix, after the prefix has entered [visitedPrefixes]. *)
Theorem at_most_one_query (st : state) (p : string) :
  reachable st →
  NoDup (added st)
  ∧ (length (filter (λ c, call_prefix c = p ∧ call_attempt c = 1%Z) (calls st))
     ≤ 1)%nat
  ∧ (∀ c, c ∈ calls st → call_attempt c = 1 →
       call_prefix c ∈ visitedPrefixes st)
  ∧ (p ∈ visitedPrefixes st →
       enqueue p st = st ∧ processPrefix_begin p st = (st, None))
  ∧ (p ∉ visitedPrefixes st →
       (queue_allows st = false →
          visitedPrefixes (enqueue p st) = visitedPrefixes st
          ∧ waiting (enqueue p st) = waiting st ++ [p])
       ∧ visitedPrefixes (processPrefix_begin p st).1
         = visitedPrefixes st ++ [p]
       ∧ calls (processPrefix_begin p st).1 = mkCall (now st) p 1 :: calls st).
Proof.
  intros Hst. pose proof (reachable_added_NoDup st Hst) as [_ Hadded].
  apply reachable_once_inv in Hst as (Hnd & Hsub & _). split_and!.
  - exact Hadded.
  - unfold queried in Hnd.
    rewrite <- (list_filter_filter (λ c, call_prefix c = p)
                  (λ c, call_attempt c = 1)).
    by apply NoDup_fmap_filter_length.
  - intros c Hc Ha. apply Hsub. unfold queried.
    apply list_elem_of_fmap_2. by apply list_elem_of_filter.
  - intros Hp%has_elem_of. unfold enqueue, processPrefix_begin.
    by rewrite Hp.
  - intros Hp%has_not_elem_of.
    unfold enqueue, processPrefix_begin, JSSet.add. by rewrite Hp.
Qed.

Lemma at_most_one_query_witness :
  ∃ st,
    run [LStart; LStart; LResponse 0 (RejectedStatus 429) 0; LTime 1000;
         LWake 0]
      (extractAllNames_begin initial) = Some st
    ∧ (length (filter (λ c, call_prefix c = "0" ∧ call_attempt c = 1%Z)
                 (calls st)) ≤ 1)%nat.
Proof.
  set (ls := [LStart; LStart; LResponse 0 (RejectedStatus 429) 0; LTime 1000;
              LWake 0]).
  set (st := default initial (run ls (extractAllNames_begin initial))).
  assert (run ls (extractAllNames_begin initial) = Some st) as Hrun
    by (vm_compute; reflexivity).
  assert (reachable st) as Hst
    by (eapply reachable_run; [apply reachable_begin | exact Hrun]).
  exists st. split; [exact Hrun|].
  exact (proj1 (proj2 (at_most_one_query st "0" Hst))).
Defined.

(** C3. A failure that is not a 429 is retried after
    [BASE_DELAY_MS * 2 ^ attempt] ms plus the jitter that [delay] draws,
    as long as [attempt ≤ 5]: for the sample [r] of [Math.random()] the
    jitter is [Math.floor(r * 200)], a whole number from 0 to 199 which is
    the floor of [200 r] or, where the product rounds up to a whole
    double, one more; and the job of the event loop waits until that time
    is over.  On a later attempt the call gives up and returns the empty
    array.  With six failures in a row the prefix is abandoned at
    attempt 6, not before: six requests were made, five retries were
    logged with delays 1000, 2000, 4000, 8000 and 16000, and the event
    loop starts no retry before its delay has elapsed.  The job of the
    abandoned prefix records the empty answer, adds no name and hands no
    child to the queue. *)
Theorem transient_retry_budget (script : list (http_outcome * Q)) (p : string)
    (st : state) :
  length script = 6%nat →
  Forall (λ x, transient x.1 ∧ is_sample x.2) script →
  (∀ a o r s, transient o → is_sample r → a ≤ MAX_ATTEMPTS →
     queryAPI_settle p a o r s
     = (log (LogRetrying p a (BASE_DELAY_MS * 2 ^ a)) s,
        Retry (BASE_DELAY_MS * 2 ^ a + jitter_of r))
     ∧ 0 ≤ jitter_of r < JITTER_MS
     ∧ Qfloor (r * 200) ≤ jitter_of r ≤ Qfloor (r * 200) + 1
     ∧ ∀ i, running s !! i = Some (AwaitResponse p a) →
         ∃ s',
           exec (LResponse i o r) s = Some s'
           ∧ running s'
             = <[i := AwaitRetry p a
                        (now s + BASE_DELAY_MS * 2 ^ a + jitter_of r)]>
                 (running s))
  ∧ (∀ a o r s, transient o → MAX_ATTEMPTS < a →
       queryAPI_settle p a o r s = (log (LogFailed p a) s, Return (JArr [])))
  ∧ (∀ i a due s, running s !! i = Some (AwaitRetry p a due) →
       now s < due → exec (LWake i) s = None)
  ∧ (∀ n, (n < 6)%nat → queryAPI (take n script) p 1 st = None)
  ∧ (∃ st',
       queryAPI script p 1 st = Some (JArr [], st')
       ∧ totalRequests st' = totalRequests st + 6
       ∧ currentConcurrency st' = currentConcurrency st
       ∧ console st'
         = [LogFailed p 6; LogRetrying p 5 16000; LogRetrying p 4 8000;
            LogRetrying p 3 4000; LogRetrying p 2 2000; LogRetrying p 1 1000]
           ++ console st)
  ∧ (∀ i rn, rn !! i = Some (AwaitResponse p 1) →
       ∃ st2,
         run (steps_of_call i script p 1 st)
           (set_running rn (queryAPI_enter p 1 st)) = Some st2
         ∧ answers st2 = (p, JArr []) :: answers st
         ∧ discoveredNames st2 = discoveredNames st
         ∧ waiting st2 = waiting st).
Proof.
  intros Hlen Hscript. split_and!.
  - intros a o r s Ho Hr Ha.
    assert (queryAPI_settle p a o r s
            = (log (LogRetrying p a (BASE_DELAY_MS * 2 ^ a)) s,
               Retry (BASE_DELAY_MS * 2 ^ a + jitter_of r))) as Hs
      by (by rewrite settle_transient, catch_transient_retry).
    split; [done|]. split; [by apply jitter_bounds|]. split.
    + destruct Hr as (_ & H0 & H1). apply (jitter_floor r H0 H1).
    + intros i Hi. eexists. split; [by apply exec_response_retry|].
      simpl. f_equal. f_equal. lia.
  - intros a o r s Ho Ha. by rewrite settle_transient, catch_transient_fail.
  - intros i a due s Hi Hdue. rewrite (exec_wake i p a due) by done.
    by destruct (Z.leb_spec due (now s)); [lia|].
  - intros n Hn. apply eq_None_not_Some. rewrite queryAPI_returns.
    intros (k & o & r & Hk & Hends).
    pose proof (lookup_lt_Some _ _ _ Hk) as Hlt. rewrite length_take in Hlt.
    rewrite lookup_take_Some in Hk. destruct Hk as [Hk _].
    rewrite Forall_lookup in Hscript. destruct (Hscript _ _ Hk) as [Ho _].
    rewrite ends_call_transient in Hends by done.
    apply Z.ltb_lt in Hends. unfold MAX_ATTEMPTS in Hends. lia.
  - destruct (queryAPI_transient_run script p 1 st) as (st' & Hq & Htot & Hcur & Hcon).
    + eapply Forall_impl; [exact Hscript|]. by intros x [? _].
    + by destruct script.
    + rewrite Hlen. done.
    + exists st'. rewrite Hlen in Htot. by split_and!.
  - intros i rn Hi.
    destruct (queryAPI_transient_run script p 1 st) as (st' & Hq & _).
    + eapply Forall_impl; [exact Hscript|]. by intros x [? _].
    + by destruct script.
    + rewrite Hlen. done.
    + destruct (queryAPI_in_run i script p 1 st (JArr []) st' rn)
        as (st2 & Hrun & Hans & Harr & _); [lia | | done | done |].
      { eapply Forall_impl; [exact Hscript|]. by intros x [_ ?]. }
      destruct (Harr [] eq_refl) as (_ & Hn & Hw).
      exists st2. split_and!; [done | done | done |].
      by rewrite app_nil_r in Hw.
Qed.

Lemma transient_retry_budget_witness :
  let script :=
    [(RejectedNoResponse, 0%Q); (RejectedStatus 500, 1 # 2);
     (RejectedStatus 503, 255 # 256); (RejectedNoResponse, 1 # 4);
     (RejectedStatus 404, 0%Q); (RejectedNoResponse, 3 # 4)] in
  (∃ st', queryAPI script "c" 1 (extractAllNames_begin initial)
          = Some (JArr [], st')
          ∧ totalRequests st' = 6)
  ∧ (queryAPI_settle "c" 2 (RejectedStatus 500) (1 # 2)
       (extractAllNames_begin initial)).2
    = Retry 2100
  ∧ (queryAPI_settle "c" 3 (RejectedStatus 503) (255 # 256)
       (extractAllNames_begin initial)).2
    = Retry 4199.
Proof.
  intros script.
  assert (Forall (λ x, transient x.1 ∧ is_sample x.2) script) as Hscript.
  { unfold script. repeat apply Forall_cons_2; try apply Forall_nil_2;
      (split; [simpl; lia || exact I | sample]). }
  destruct (transient_retry_budget script "c" (extractAllNames_begin initial)
              eq_refl Hscript)
    as (Hretry & _ & _ & _ & (st' & Hq & Htot & _) & _).
  split; [exists st'; split; [exact Hq | exact Htot]|].
  split.
  - rewrite (proj1 (Hretry 2 (RejectedStatus 500) (1 # 2)
                      (extractAllNames_begin initial)
                      ltac:(simpl; lia) ltac:(sample) ltac:(by vm_compute))).
    vm_compute. reflexivity.
  - rewrite (proj1 (Hretry 3 (RejectedStatus 503) (255 # 256)
                      (extractAllNames_begin initial)
                      ltac:(simpl; lia) ltac:(sample) ltac:(by vm_compute))).
    vm_compute. reflexivity.
Defined.

(** C4. Correct expansion: when the query for [p] returns exactly
    [MAX_RESULTS_PER_QUERY] = 15 items, line 165 hands to the queue one
    job per character of the alphabet whose child [p + char] is not in
    [visitedPrefixes], in the order of [VALID_CHARACTERS] and each child
    once: 40 minus the number of children already visited.  The visited
    children are skipped.  This is what the step of the event loop does
    in which the request of [p] settles with these items. *)
Theorem correct_expansion (p : string) (items : list json) (r : Q) (st : state) :
  Z.of_nat (length items) = MAX_RESULTS_PER_QUERY →
  let visited := visitedPrefixes st in
  let new :=
    (λ char, p +:+ char)
      <$> filter (λ char, p +:+ char ∉ visited) VALID_CHARACTERS in
  (waiting (processPrefix_resume p (JArr items) r st).1 = waiting st ++ new
   ∧ added (processPrefix_resume p (JArr items) r st).1
     = reverse new ++ added st)
  ∧ (∀ i a o st',
       running st !! i = Some (AwaitResponse p a) →
       (queryAPI_settle p a o r st).2 = Return (JArr items) →
       exec (LResponse i o r) st = Some st' →
       waiting st' = waiting st ++ new ∧ added st' = reverse new ++ added st)
  ∧ NoDup new
  ∧ (length new
     = length VALID_CHARACTERS
       - length (filter (λ char, p +:+ char ∈ visited) VALID_CHARACTERS))%nat
  ∧ length VALID_CHARACTERS = 40%nat
  ∧ (∀ char, char ∈ VALID_CHARACTERS → p +:+ char ∈ visited →
       p +:+ char ∉ new).
Proof.
  intros Hlen visited new.
  assert (∀ s, visitedPrefixes s = visited →
            waiting (processPrefix_resume p (JArr items) r s).1 = waiting s ++ new
            ∧ added (processPrefix_resume p (JArr items) r s).1
              = reverse new ++ added s) as Hresume.
  { intros s Hs.
    destruct (processPrefix_resume_queue p items r s) as (Hw & Ha & _).
    rewrite Hlen, Hs in Hw, Ha. by change (15 =? 15) with true in Hw, Ha. }
  split_and!.
  - by apply Hresume.
  - by apply Hresume.
  - intros i a o st' Hi Hret Hexec. simpl in Hexec. rewrite Hi in Hexec.
    destruct (queryAPI_settle_files p a o r st)
      as (_ & _ & _ & Hv & _ & _ & _ & Hw & Ha & _).
    destruct (queryAPI_settle p a o r st) as [st1 next].
    cbn [fst snd] in Hv, Hw, Ha, Hret, Hexec. subst next.
    destruct (Hresume st1 Hv) as [Hw' Ha'].
    destruct (processPrefix_resume p (JArr items) r st1) as [st2 [k|]];
      cbn [fst] in Hw', Ha'; simplify_eq; simpl; by rewrite Hw', Ha', Hw, Ha.
  - apply NoDup_children.
  - pose proof (length_children p visited). fold (children p visited) in new.
    subst new. lia.
  - done.
  - intros char Hchar Hvis. subst new.
    rewrite list_elem_of_fmap. intros (c & Heq & Hc).
    apply list_elem_of_filter in Hc as [Hc _].
    by apply (inj (String.app p)) in Heq as ->.
Qed.

Lemma correct_expansion_witness :
  let items := replicate 15 (JStr "aa") in
  let st :=
    set_visitedPrefixes ["a"; "ab"; "a%20"] (extractAllNames_begin initial) in
  (length (waiting (processPrefix_resume "a" (JArr items) 0 st).1)
   = 40 + 38)%nat.
Proof.
  intros items st.
  destruct (correct_expansion "a" items 0 st eq_refl) as ((Hw & _) & _).
  rewrite Hw. by vm_compute.
Defined.

(** C5. Leaf pruning: once the query for [p] has returned fewer than 15
    items (none, for instance, or the empty array that [queryAPI] returns
    when it gives up), no child [p + char] is handed to the queue, in the
    whole run: [processPrefix] for [p] adds nothing, and no other prefix
    has these children. *)
Theorem leaf_pruning (st : state) (p : string) (items : list json)
    (char : string) :
  reachable st →
  (p, JArr items) ∈ answers st →
  Z.of_nat (length items) < MAX_RESULTS_PER_QUERY →
  char ∈ VALID_CHARACTERS →
  (p +:+ char ∉ added st)
  ∧ (∀ r s, waiting (processPrefix_resume p (JArr items) r s).1 = waiting s
            ∧ added (processPrefix_resume p (JArr items) r s).1 = added s)
  ∧ (∀ o a r s, transient o → MAX_ATTEMPTS < a →
       (queryAPI_settle p a o r s).2 = Return (JArr [])).
Proof.
  intros Hst Hans Hlen Hchar. split_and!.
  - destruct (reachable_tree_inv st Hst) as (_ & _ & Hnodes & Hor & Hnd & _).
    intros [Hroot|(p' & c' & items' & Heq & Hc' & Hans' & Hlen')]%Hor.
    + rewrite Forall_forall in Hnodes.
      by apply (node_child_not_root p char (Hnodes _ Hans)).
    + rewrite Forall_forall in Hnodes.
      apply node_parent_unique in Heq as [<- <-];
        [| apply (Hnodes _ Hans) | apply (Hnodes _ Hans') | done | done].
      apply NoDup_app in Hnd as (_ & _ & Hnd).
      pose proof (NoDup_fst_agree _ _ _ _ Hnd Hans Hans') as [= <-]. lia.
  - intros r s.
    destruct (processPrefix_resume_queue p items r s) as (Hw & Ha & _).
    destruct (Z.eqb_spec (Z.of_nat (length items)) MAX_RESULTS_PER_QUERY);
      [lia|].
    by rewrite app_nil_r in Hw.
  - intros o a r s Ho Ha. by rewrite settle_transient, catch_transient_fail.
Qed.

Lemma leaf_pruning_witness :
  ∃ st,
    run [LStart; LResponse 0 (Fulfilled (JObj [("results",
                                JArr [JStr "01"; JStr "02"])])) 0]
      (extractAllNames_begin initial) = Some st
    ∧ ("00" ∉ added st).
Proof.
  set (ls := [LStart; LResponse 0 (Fulfilled (JObj [("results",
                                JArr [JStr "01"; JStr "02"])])) 0]).
  set (st := default initial (run ls (extractAllNames_begin initial))).
  assert (run ls (extractAllNames_begin initial) = Some st) as Hrun
    by (vm_compute; reflexivity).
  assert (reachable st) as Hst
    by (eapply reachable_run; [apply reachable_begin | exact Hrun]).
  assert (("0", JArr [JStr "01"; JStr "02"]) ∈ answers st) as Hans
    by (vm_compute; left).
  assert ("0" ∈ VALID_CHARACTERS) as Hchar
    by (apply (bool_decide_unpack _); vm_compute; reflexivity).
  exists st. split; [exact Hrun|].
  exact (proj1 (leaf_pruning st "0" [JStr "01"; JStr "02"] "0" Hst Hans
                  eq_refl Hchar)).
Defined.

(** C6. Concurrency bound invariant: in every state of a run,
    [MIN_CONCURRENCY ≤ currentConcurrency ≤ MAX_CONCURRENCY] (5 and 80),
    and the queue's own bound is this value; the initial value 26 lies in
    the bounds and [adjustConcurrency], the one place that assigns
    [currentConcurrency], clamps whatever it is given, from the outcome of
    a request as from the backlog monitor. *)
Theorem concurrency_bound_invariant (st : state) :
  reachable st →
  (MIN_CONCURRENCY ≤ currentConcurrency st ≤ MAX_CONCURRENCY
   ∧ queueConcurrency st = currentConcurrency st)
  ∧ (∀ n,
       MIN_CONCURRENCY ≤ currentConcurrency (adjustConcurrency n st)
         ≤ MAX_CONCURRENCY)
  ∧ MIN_CONCURRENCY ≤ currentConcurrency initial ≤ MAX_CONCURRENCY.
Proof.
  intros Hst. split; [|split].
  - revert st Hst. apply (reachable_invariant concurrency_ok).
    + rewrite extractAllNames_begin_spec. by split.
    + intros l st st' _. apply exec_concurrency_ok.
  - intros n. apply adjustConcurrency_ok.
  - done.
Qed.

Lemma concurrency_bound_invariant_witness :
  ∃ st,
    run [LStart; LResponse 0 (RejectedStatus 429) 0; LTime 5000; LMonitor]
      (extractAllNames_begin initial) = Some st
    ∧ MIN_CONCURRENCY ≤ currentConcurrency st ≤ MAX_CONCURRENCY.
Proof.
  destruct (run _ _) as [st|] eqn:Hrun; [|by vm_compute in Hrun].
  exists st. split; [reflexivity|].
  apply (concurrency_bound_invariant st).
  eapply reachable_run; [apply reachable_begin | exact Hrun].
Defined.

(** C7. The control law is additive increase, multiplicative decrease.
    With [c] the current concurrency: a fulfilled request sets it to
    [min 80 (c + 1)]; a 429 sets it to [max 5 ⌊c * 0.9⌋], where
    [⌊c * 0.9⌋ < c]; any other failure leaves it alone.  The monitor, which
    runs every 5000 ms, takes the backlog to be the jobs running plus the
    jobs waiting; above 100 it sets the concurrency to [max 5 ⌊c * 0.9⌋],
    below 20 with [c < 80] it sets it to [c + 1], and otherwise leaves it. *)
Theorem aimd_control_law (st : state) (p : string) (a : Z) (r : Q) :
  MIN_CONCURRENCY ≤ currentConcurrency st ≤ MAX_CONCURRENCY →
  let c := currentConcurrency st in
  (∀ data,
     currentConcurrency (queryAPI_settle p a (Fulfilled data) r st).1
     = Z.min MAX_CONCURRENCY (c + CONCURRENCY_ADJUSTMENT_UP))
  ∧ currentConcurrency (queryAPI_settle p a (RejectedStatus 429) r st).1
    = Z.max MIN_CONCURRENCY (c * 9 / 10)
  ∧ (∀ o, error_status o ≠ Some 429 → (∀ data, o ≠ Fulfilled data) →
       currentConcurrency (queryAPI_settle p a o r st).1 = c)
  ∧ (scaled_down c = c * 9 / 10 ∧ c * 9 / 10 < c
     ∧ (CONCURRENCY_ADJUSTMENT_DOWN_FACTOR < 1)%Q)
  ∧ (BACKLOG_HIGH_THRESHOLD < backlog st →
       currentConcurrency (monitorBacklog st)
       = Z.max MIN_CONCURRENCY (c * 9 / 10))
  ∧ (backlog st < BACKLOG_LOW_THRESHOLD → c < MAX_CONCURRENCY →
       currentConcurrency (monitorBacklog st) = c + CONCURRENCY_ADJUSTMENT_UP)
  ∧ (backlog st ≤ BACKLOG_HIGH_THRESHOLD →
     BACKLOG_LOW_THRESHOLD ≤ backlog st ∨ c = MAX_CONCURRENCY →
       currentConcurrency (monitorBacklog st) = c)
  ∧ (∀ st', exec LMonitor st = Some st' →
       monitorDue st ≤ now st
       ∧ monitorDue st' = now st + MONITOR_PERIOD_MS
       ∧ currentConcurrency st' = currentConcurrency (monitorBacklog st)).
Proof.
  intros Hc c. split_and!.
  - intros data. rewrite queryAPI_settle_concurrency. by apply clamp_up.
  - rewrite queryAPI_settle_concurrency. simpl. by apply clamp_down.
  - intros o Ho Hno. rewrite queryAPI_settle_concurrency.
    destruct o as [data|s|]; [by destruct (Hno data) | | done].
    destruct (Z.eqb_spec s 429) as [->|]; [done | done].
  - apply scaled_down_div.
  - rewrite <- scaled_down_div. apply scaled_down_lt.
    unfold c, MIN_CONCURRENCY in *. lia.
  - done.
  - intros Hhigh. rewrite monitorBacklog_concurrency.
    destruct (Z.ltb_spec BACKLOG_HIGH_THRESHOLD (backlog st)); [|lia].
    by apply clamp_down.
  - intros Hlow Hmax. rewrite monitorBacklog_concurrency.
    destruct (Z.ltb_spec BACKLOG_HIGH_THRESHOLD (backlog st)).
    { unfold BACKLOG_HIGH_THRESHOLD, BACKLOG_LOW_THRESHOLD in *. lia. }
    destruct (Z.ltb_spec (backlog st) BACKLOG_LOW_THRESHOLD); [|lia].
    destruct (Z.ltb_spec (currentConcurrency st) MAX_CONCURRENCY);
      [|unfold c in *; lia].
    simpl. rewrite clamp_up by done.
    unfold c, CONCURRENCY_ADJUSTMENT_UP, MAX_CONCURRENCY in *. lia.
  - intros Hhigh Hlow. rewrite monitorBacklog_concurrency.
    destruct (Z.ltb_spec BACKLOG_HIGH_THRESHOLD (backlog st)); [lia|].
    destruct (Z.ltb_spec (backlog st) BACKLOG_LOW_THRESHOLD);
      destruct (Z.ltb_spec (currentConcurrency st) MAX_CONCURRENCY);
      simpl; try done; unfold c in *; lia.
  - intros st' Hl. simpl in Hl.
    destruct (Z.leb_spec (monitorDue st) (now st)); simplify_eq.
    split_and!; [done | |by rewrite !monitorBacklog_concurrency].
    unfold monitorBacklog.
    destruct (_ <? _); [done|]. by destruct (_ && _).
Qed.

Lemma aimd_control_law_witness :
  let st := extractAllNames_begin initial in
  currentConcurrency (queryAPI_settle "a" 1 (Fulfilled JNull) 0 st).1 = 27
  ∧ currentConcurrency (queryAPI_settle "a" 1 (RejectedStatus 429) 0 st).1 = 23
  ∧ currentConcurrency (monitorBacklog st) = 26.
Proof.
  intros st.
  assert (MIN_CONCURRENCY ≤ currentConcurrency st ≤ MAX_CONCURRENCY) as Hc
    by (vm_compute; split; discriminate).
  destruct (aimd_control_law st "a" 1 0 Hc)
    as (Hup & Hdown & _ & _ & _ & _ & Hkeep & _).
  split; [|split].
  - rewrite Hup. reflexivity.
  - rewrite Hdown. reflexivity.
  - apply Hkeep; vm_compute; [discriminate | left; discriminate].
Defined.

(** C8 fails on the script.  The queue counts the jobs it starts, two
    here, while the retries of [queryAPI] are requests it never sees: in
    the first minute of this run 94 requests are sent, against a cap of
    80, and the queue has counted 2.  And when the queue has started its
    80 jobs of the interval and starts no more, the retry of a job that
    is running is sent all the same. *)
Theorem retries_exceed_the_cap :
  (∃ st,
     run two_rate_limited_jobs (extractAllNames_begin initial) = Some st
     ∧ now st < INTERVAL_MS
     ∧ intervalCount st = 2
     ∧ requests_in_window 0 st = 94%nat
     ∧ totalRequests st = 94
     ∧ ¬ (Z.of_nat (requests_in_window 0 st) ≤ INTERVAL_CAP))
  ∧ (∃ st st',
       run eighty_jobs (extractAllNames_begin initial) = Some st
       ∧ intervalCount st = INTERVAL_CAP
       ∧ queue_allows st = false
       ∧ now st < intervalEnd st
       ∧ exec (LWake 0) st = Some st'
       ∧ totalRequests st' = totalRequests st + 1
       ∧ head (calls st') = Some (mkCall (now st) "0%20" 2)).
Proof.
  split.
  - set (st := default initial
                 (run two_rate_limited_jobs (extractAllNames_begin initial))).
    assert (requests_in_window 0 st = 94%nat) as Hreq
      by (vm_compute; reflexivity).
    exists st. split_and!.
    + vm_compute. reflexivity.
    + vm_compute. reflexivity.
    + vm_compute. reflexivity.
    + exact Hreq.
    + vm_compute. reflexivity.
    + rewrite Hreq. vm_compute. intros H. by apply H.
  - set (st := default initial
                 (run eighty_jobs (extractAllNames_begin initial))).
    set (st' := default initial (exec (LWake 0) st)).
    exists st, st'. split_and!; vm_compute; reflexivity.
Qed.

(** C9. Snapshot monotonicity: of two snapshots written to the progress
    file in one run, the earlier has its names among those of the later
    and no more requests.  Each snapshot is the whole of the current
    state, a step of the run never removes a name and never decreases
    the counter of requests. *)
Theorem snapshot_monotonicity (st : state) (i j : nat) (s1 s2 : snapshot) :
  reachable st →
  (i ≤ j)%nat →
  reverse (snapshots st) !! i = Some s1 →
  reverse (snapshots st) !! j = Some s2 →
  (snap_names s1 ⊆ snap_names s2
   ∧ snap_totalRequests s1 ≤ snap_totalRequests s2)
  ∧ (∀ s, head (snapshots (saveProgress s))
          = Some {| snap_totalRequests := totalRequests s;
                    snap_totalNames := JSSet.size (discoveredNames s);
                    snap_names := discoveredNames s;
                    snap_timeElapsed := None |})
  ∧ (∀ l s s', exec l s = Some s' →
       discoveredNames s `prefix_of` discoveredNames s'
       ∧ totalRequests s ≤ totalRequests s').
Proof.
  intros Hst Hij Hi Hj. split; [|split; [done | apply exec_grows]].
  assert (snap_inv st) as [_ Hdesc].
  { clear Hi Hj. revert st Hst. apply (reachable_invariant snap_inv).
    - rewrite extractAllNames_begin_spec. by split.
    - intros l st st' _. apply exec_snap_inv. }
  apply reverse_lookup_Some in Hi as [Hi Hi'], Hj as [Hj Hj'].
  eapply (descending_lookup _ _ _ s2 s1 Hdesc); [|done|done]. lia.
Qed.

Lemma snapshot_monotonicity_witness :
  ∃ st s1 s2,
    run short_run (extractAllNames_begin initial) = Some st
    ∧ reverse (snapshots st) !! 0%nat = Some s1
    ∧ reverse (snapshots st) !! 1%nat = Some s2
    ∧ snap_names s1 ⊆ snap_names s2
    ∧ snap_totalRequests s1 ≤ snap_totalRequests s2.
Proof.
  set (st := default initial (run short_run (extractAllNames_begin initial))).
  assert (run short_run (extractAllNames_begin initial) = Some st) as Hrun
    by (vm_compute; reflexivity).
  set (s1 := default (mkSnapshot 0 0 [] None) (reverse (snapshots st) !! 0%nat)).
  set (s2 := default (mkSnapshot 0 0 [] None) (reverse (snapshots st) !! 1%nat)).
  assert (reverse (snapshots st) !! 0%nat = Some s1) as H1
    by (vm_compute; reflexivity).
  assert (reverse (snapshots st) !! 1%nat = Some s2) as H2
    by (vm_compute; reflexivity).
  assert (reachable st) as Hst
    by (eapply reachable_run; [apply reachable_begin | exact Hrun]).
  exists st, s1, s2.
  destruct (snapshot_monotonicity st 0 1 s1 s2 Hst (le_S _ _ (le_n 0)) H1 H2)
    as [[Hn Ht] _].
  split; [exact Hrun|]. split; [exact H1|]. split; [exact H2|].
  split; [exact Hn | exact Ht].
Defined.

(** C10 fails on the script.  While the API answers 429 the call of
    [queryAPI] resolves to nothing: after a hundred of them it has sent a
    hundred requests, waits to send the next, and [processPrefix] has not
    come back from line 152. *)
Lemma queryAPI_keeps_retrying :
  let script := rate_limited (replicate 100 0%Q) in
  queryAPI script "a" 1 (extractAllNames_begin initial) = None
  ∧ processPrefix script 0 "a" (extractAllNames_begin initial) = None
  ∧ totalRequests
      (after_rate_limits "a" 1 (replicate 100 0%Q)
         (extractAllNames_begin initial))
    = 100.
Proof. vm_compute. done. Qed.

(** Beside the claim: nothing checks that [results] is an array, against
    the [@returns {Promise<Array<string>>}] of line 112.  For a body whose
    [results] is a number [queryAPI] returns the number, line 153 throws,
    and the invocation of [processPrefix] is rejected. *)
Lemma queryAPI_returns_non_array :
  let body := (Fulfilled (JObj [("results", JNum 7)]), 0%Q) in
  fst <$> queryAPI [body] "a" 1 (extractAllNames_begin initial)
  = Some (JNum 7)
  ∧ fst <$> processPrefix [body] 0 "a" (extractAllNames_begin initial)
    = Some false.
Proof. vm_compute. done. Qed.

(** C10, as the script has it.  [queryAPI] has no path that throws: each
    segment ends in a [return] or in a retry.  It returns as soon as a
    request ends the call (a 2xx response with a readable body, or a
    failure other than 429 on an attempt after the fifth), and then, when
    the [results] of the 2xx bodies are arrays or absent, it returns an
    array: the empty one for a body without [results] and for the
    exhausted retries.  [processPrefix] is then fulfilled: in the event
    loop its job reaches the last delay.  Under 429 without end the call
    goes on retrying and does not return. *)
Theorem queryAPI_returns_array (script : list (http_outcome * Q)) (p : string)
    (r : Q) (st : state) :
  Forall (λ x, array_or_absent x.1 ∧ is_sample x.2) script →
  (∃ k o r', script !! k = Some (o, r')
             ∧ ends_call (1 + Z.of_nat k) o = true) →
  (∃ items st', queryAPI script p 1 st = Some (JArr items, st'))
  ∧ (∃ st', processPrefix script r p st = Some (true, st'))
  ∧ (∀ i rn, rn !! i = Some (AwaitResponse p 1) →
       ∃ st2 due,
         run (steps_of_call i script p 1 st)
           (set_running rn (queryAPI_enter p 1 st)) = Some st2
         ∧ running st2 = <[i := AwaitFinish p due]> rn)
  ∧ (∀ data v a r' s, get_results data = Some v → truthy v = false →
       (queryAPI_settle p a (Fulfilled data) r' s).2 = Return (JArr []))
  ∧ (∀ o a r' s, transient o → MAX_ATTEMPTS < a →
       (queryAPI_settle p a o r' s).2 = Return (JArr []))
  ∧ (∀ a r' s,
       ∃ ms, (queryAPI_settle p a (RejectedStatus 429) r' s).2 = Retry ms)
  ∧ (∀ rs, queryAPI (rate_limited rs) p 1 st = None).
Proof.
  intros Hboth Hends.
  assert (Forall (λ x, array_or_absent x.1) script) as Hok.
  { eapply Forall_impl; [exact Hboth|]. by intros x [? _]. }
  assert (Forall (λ x, is_sample x.2) script) as Hsamples.
  { eapply Forall_impl; [exact Hboth|]. by intros x [_ ?]. }
  assert (∀ s, ∃ items s', queryAPI script p 1 s = Some (JArr items, s'))
    as Hq.
  { intros s. destruct (proj2 (queryAPI_returns script p 1 s) Hends) as [[v s'] Hv].
    destruct (queryAPI_array _ _ _ _ _ _ Hok Hv) as [items ->]. by eexists _, _. }
  split_and!.
  - apply Hq.
  - unfold processPrefix.
    destruct (JSSet.has String.eqb p (visitedPrefixes st)); [by eexists|].
    cbv zeta.
    destruct (Hq (set_visitedPrefixes
                    (JSSet.add String.eqb p (visitedPrefixes st)) st))
      as (items & st2 & ->). cbn -[processPrefix_resume].
    destruct (processPrefix_resume_array p items r st2) as (st3 & due & ->).
    by eexists.
  - intros i rn Hi. destruct (Hq st) as (items & st' & Hq').
    destruct (queryAPI_in_run i script p 1 st (JArr items) st' rn)
      as (st2 & Hrun & _ & Harr & _); [lia | done | done | done |].
    destruct (Harr items eq_refl) as ([due Hdue] & _). by exists st2, due.
  - intros data v a r' s Hv Hfalsy.
    rewrite (settle_fulfilled _ _ _ v) by done. unfold js_or. by rewrite Hfalsy.
  - intros o a r' s Ho Ha. by rewrite settle_transient, catch_transient_fail.
  - intros a r' s. rewrite settle_429. by eexists.
  - intros rs. rewrite <- (app_nil_r (rate_limited rs)).
    by rewrite queryAPI_rate_limited.
Qed.

Lemma queryAPI_returns_array_witness :
  let script :=
    [(RejectedStatus 429, 0%Q); (Fulfilled JNull, 0%Q);
     (Fulfilled (JObj [("count", JNum 0)]), 0%Q)] in
  (∃ items st', queryAPI script "a" 1 (extractAllNames_begin initial)
                = Some (JArr items, st'))
  ∧ ∃ st', processPrefix script 0 "a" (extractAllNames_begin initial)
           = Some (true, st').
Proof.
  intros script.
  assert (Forall (λ x, array_or_absent x.1 ∧ is_sample x.2) script) as Hok.
  { unfold script. repeat apply Forall_cons_2; try apply Forall_nil_2;
      (split; [simpl; auto | sample]). }
  assert (∃ k o r', script !! k = Some (o, r')
                    ∧ ends_call (1 + Z.of_nat k) o = true) as Hends.
  { by exists 2%nat, (Fulfilled (JObj [("count", JNum 0)])), 0%Q. }
  destruct (queryAPI_returns_array script "a" 0 (extractAllNames_begin initial)
              Hok Hends) as (Hq & Hp & _).
  split; [exact Hq | exact Hp].
Defined.

(** * Further invariants of a run *)

(** ** What the segments leave alone *)

Lemma queryAPI_settle_rest p a o r st :
  let st' := (queryAPI_settle p a o r st).1 in
  lastSavedCount st' = lastSavedCount st ∧ finished st' = finished st
  ∧ monitorDue st' = monitorDue st ∧ intervalCount st' = intervalCount st
  ∧ intervalEnd st' = intervalEnd st ∧ rejected st' = rejected st.
Proof.
  unfold queryAPI_settle, queryAPI_catch, error_status.
  destruct o as [data|s|]; [destruct (get_results data)|..];
    repeat case_match; done.
Qed.

Lemma monitorBacklog_rest st :
  let st' := monitorBacklog st in
  lastSavedCount st' = lastSavedCount st ∧ finished st' = finished st
  ∧ monitorDue st' = monitorDue st ∧ intervalCount st' = intervalCount st
  ∧ intervalEnd st' = intervalEnd st ∧ rejected st' = rejected st.
Proof. unfold monitorBacklog. repeat case_match; done. Qed.

Lemma maybeSaveProgress_effect st :
  let st' := maybeSaveProgress st in
  let n := JSSet.size (discoveredNames st) in
  finished st' = finished st ∧ monitorDue st' = monitorDue st
  ∧ if lastSavedCount st + SAVE_INCREMENT <=? n then
      lastSavedCount st' = n
      ∧ files st'
        = (PROGRESS_FILE,
           ProgressData {| snap_totalRequests := totalRequests st;
                           snap_totalNames := n;
                           snap_names := discoveredNames st;
                           snap_timeElapsed := None |}) :: files st
    else lastSavedCount st' = lastSavedCount st ∧ files st' = files st.
Proof.
  unfold maybeSaveProgress. cbv zeta. destruct (_ <=? _); done.
Qed.

Lemma processPrefix_resume_effect p v r st :
  let st' := (processPrefix_resume p v r st).1 in
  finished st' = finished st ∧ monitorDue st' = monitorDue st
  ∧ match v with
    | JArr items =>
        let names := add_names items (discoveredNames st) in
        let n := JSSet.size names in
        discoveredNames st' = names
        ∧ rejected st' = rejected st
        ∧ if lastSavedCount st + SAVE_INCREMENT <=? n then
            lastSavedCount st' = n
            ∧ files st'
              = (PROGRESS_FILE,
                 ProgressData {| snap_totalRequests := totalRequests st;
                                 snap_totalNames := n;
                                 snap_names := names;
                                 snap_timeElapsed := None |}) :: files st
          else lastSavedCount st' = lastSavedCount st ∧ files st' = files st
    | _ =>
        discoveredNames st' = discoveredNames st
        ∧ files st' = files st ∧ lastSavedCount st' = lastSavedCount st
        ∧ waiting st' = waiting st ∧ added st' = added st
        ∧ rejected st' = p :: rejected st
    end.
Proof.
  unfold processPrefix_resume. destruct v; try done. cbv zeta.
  set (st1 := set_discoveredNames _ _).
  destruct (maybeSaveProgress_frame st1) as (_ & _ & _ & _ & _ & _ & Hn & _).
  pose proof (maybeSaveProgress_effect st1) as (Hf & Hm & Hsave).
  cbv zeta in Hsave.
  change (discoveredNames st1) with (add_names items (discoveredNames st)) in *.
  change (lastSavedCount st1) with (lastSavedCount st) in *.
  change (totalRequests st1) with (totalRequests st) in *.
  change (files st1) with (files st) in *.
  assert (rejected (maybeSaveProgress st1) = rejected st) as Hrej.
  { unfold maybeSaveProgress. by destruct (_ <=? _). }
  destruct (Z.of_nat (length items) =? MAX_RESULTS_PER_QUERY);
    cbn [fst]; rewrite ?expand_spec; simpl; split_and!; try done.
Qed.

(** ** The ledger of the queue *)

Ltac settle_frames Hs :=
  lazymatch type of Hs with
  | queryAPI_settle ?p ?a ?o ?r ?st = _ =>
      let F := fresh "F" in
      let G := fresh "G" in
      pose proof (queryAPI_settle_files p a o r st) as F;
      pose proof (queryAPI_settle_rest p a o r st) as G;
      rewrite Hs in F, G; cbv zeta in F, G; cbn [fst] in F, G;
      destruct F as (Ffiles & Fnames & Ftotal & Fvisited & Fcalls & Frunning
                     & Fnow & Fwaiting & Fadded & Fanswers);
      destruct G as (Gsaved & Gfinished & Gmonitor & Gcount & Gend & Grejected)
  end.

Ltac resume_frames Hr :=
  lazymatch type of Hr with
  | processPrefix_resume ?p ?v ?r ?st = _ =>
      let F := fresh "F" in
      let G := fresh "G" in
      let E := fresh "E" in
      pose proof (processPrefix_resume_frame p v r st) as F;
      pose proof (processPrefix_resume_tree p v r st) as G;
      pose proof (processPrefix_resume_effect p v r st) as E;
      rewrite Hr in F, G, E; cbv zeta in F, G; cbn [fst] in F, G, E;
      destruct F as (Rcalls & Rvisited & Rrunning & Rtotal & Rnow);
      destruct G as (Ranswers & _ & _ & new & Rwaiting & Radded & Rnew);
      destruct E as (Rfinished & Rmonitor & Reffect)
  end.

Lemma ledger_perm {A} (ad w vis new : list A) :
  ad ≡ₚ w ++ vis → reverse new ++ ad ≡ₚ (w ++ new) ++ vis.
Proof.
  intros ->. rewrite reverse_Permutation, (assoc_L (++)).
  by rewrite (Permutation_app_comm new w).
Qed.

(** Whatever was handed to the queue is waiting there or has been
    started, and then visited. *)
Lemma step_conservation l st st' :
  NoDup (added st) →
  added st ≡ₚ waiting st ++ visitedPrefixes st →
  step_of l st st' →
  added st' ≡ₚ waiting st' ++ visitedPrefixes st'.
Proof.
  intros Hnd Hperm Hstep.
  destruct Hstep as [p rest st Hw Hq Hp | p rest st Hw Hq Hp
    | i p a o r ms st st1 Hi Hs | i p a o r v k st st1 st2 Hi Hs Hr
    | i p a o r v st st1 st2 Hi Hs Hr | i p a due st Hi Hd | i p due st Hi Hd
    | st Hd | st Hd | st Hw Hr Hf | dt st Hdt].
  - exfalso. rewrite Hperm, Hw in Hnd.
    apply NoDup_app in Hnd as (_ & Hdisj & _). apply (Hdisj p); [left | done].
  - unfold queryAPI_enter. simpl. rewrite Hperm, Hw. simpl.
    rewrite (Permutation_app_comm (visitedPrefixes st) [p]). simpl.
    by rewrite Permutation_middle.
  - settle_frames Hs. simpl. by rewrite Fadded, Fwaiting, Fvisited.
  - settle_frames Hs. resume_frames Hr. simpl.
    rewrite Radded, Rwaiting, Rvisited, Fadded, Fwaiting, Fvisited.
    by apply ledger_perm.
  - settle_frames Hs. resume_frames Hr. simpl.
    rewrite Radded, Rwaiting, Rvisited, Fadded, Fwaiting, Fvisited.
    by apply ledger_perm.
  - done.
  - done.
  - destruct (monitorBacklog_files
                (set_monitorDue (now st + MONITOR_PERIOD_MS) st))
      as (_ & _ & _ & Hv & _ & _ & _ & Hwt & Had & _).
    by rewrite Had, Hwt, Hv.
  - done.
  - done.
  - done.
Qed.

Lemma reachable_conservation st :
  reachable st → added st ≡ₚ waiting st ++ visitedPrefixes st.
Proof.
  revert st. apply reachable_invariant.
  - rewrite extractAllNames_begin_spec.
    by apply (ledger_perm [] [] [] VALID_CHARACTERS).
  - intros l st st' Hst Hinv Hl%exec_step_of.
    destruct (reachable_added_NoDup st Hst) as [_ Hnd].
    by eapply step_conservation.
Qed.

Lemma perm_answered {A} (vis t d ans : list A) (p : A) :
  vis ≡ₚ (t ++ [p] ++ d) ++ ans → vis ≡ₚ (t ++ d) ++ p :: ans.
Proof.
  intros ->. rewrite <- !(assoc_L (++)). simpl.
  by rewrite <- !Permutation_middle.
Qed.

(** A visited prefix is being queried, or has its answer. *)
Lemma step_accounted l st st' :
  visitedPrefixes st ≡ₚ omap unanswered (running st) ++ (answers st).*1 →
  step_of l st st' →
  visitedPrefixes st' ≡ₚ omap unanswered (running st') ++ (answers st').*1.
Proof.
  intros Hperm Hstep.
  destruct Hstep as [p rest st Hw Hq Hp | p rest st Hw Hq Hp
    | i p a o r ms st st1 Hi Hs | i p a o r v k st st1 st2 Hi Hs Hr
    | i p a o r v st st1 st2 Hi Hs Hr | i p a due st Hi Hd | i p due st Hi Hd
    | st Hd | st Hd | st Hw Hr Hf | dt st Hdt].
  - done.
  - unfold queryAPI_enter. simpl. rewrite omap_app. simpl.
    rewrite Hperm, <- !(assoc_L (++)).
    by rewrite (Permutation_app_comm (answers st).*1 [p]).
  - settle_frames Hs. simpl. rewrite Frunning, Fvisited, Fanswers.
    rewrite (omap_insert_split _ _ _ _ _ Hi).
    by rewrite (omap_lookup_split _ _ _ _ Hi) in Hperm.
  - settle_frames Hs. resume_frames Hr.
    destruct (processPrefix_resume_cont _ _ _ _ _ _ Hr) as [due ->].
    simpl. rewrite Rrunning, Frunning, Rvisited, Fvisited, Ranswers, Fanswers.
    rewrite (omap_insert_split _ _ _ _ _ Hi). simpl.
    rewrite (omap_lookup_split _ _ _ _ Hi) in Hperm.
    by apply perm_answered.
  - settle_frames Hs. resume_frames Hr.
    simpl. rewrite Rrunning, Frunning, Rvisited, Fvisited, Ranswers, Fanswers.
    rewrite omap_delete_split. simpl.
    rewrite (omap_lookup_split _ _ _ _ Hi) in Hperm.
    by apply perm_answered.
  - unfold queryAPI_enter. simpl.
    rewrite (omap_insert_split _ _ _ _ _ Hi).
    by rewrite (omap_lookup_split _ _ _ _ Hi) in Hperm.
  - simpl. rewrite omap_delete_split.
    by rewrite (omap_lookup_split _ _ _ _ Hi) in Hperm.
  - destruct (monitorBacklog_files
                (set_monitorDue (now st + MONITOR_PERIOD_MS) st))
      as (_ & _ & _ & Hv & _ & Hrn & _ & _ & _ & Hans).
    by rewrite Hv, Hrn, Hans.
  - done.
  - done.
  - done.
Qed.

Lemma reachable_accounted st :
  reachable st →
  visitedPrefixes st ≡ₚ omap unanswered (running st) ++ (answers st).*1.
Proof.
  revert st. apply reachable_invariant.
  - by rewrite extractAllNames_begin_spec.
  - intros l st st' _ Hinv Hl%exec_step_of. by eapply step_accounted.
Qed.

(** ** Every request is counted *)

Lemma step_counted l st st' :
  once_inv st → tree_inv st →
  totalRequests st = Z.of_nat (length (calls st))
  ∧ visitedPrefixes st = reverse (queried st)
  ∧ Forall (λ c, 1 ≤ call_attempt c ∧ call_prefix c ∈ visitedPrefixes st)
      (calls st) →
  step_of l st st' →
  totalRequests st' = Z.of_nat (length (calls st'))
  ∧ visitedPrefixes st' = reverse (queried st')
  ∧ Forall (λ c, 1 ≤ call_attempt c ∧ call_prefix c ∈ visitedPrefixes st')
      (calls st').
Proof.
  intros (_ & _ & Hattempts) (_ & _ & _ & _ & _ & Hvis) (Htot & Hord & Hcalls)
    Hstep.
  destruct Hstep as [p rest st Hw Hq Hp | p rest st Hw Hq Hp
    | i p a o r ms st st1 Hi Hs | i p a o r v k st st1 st2 Hi Hs Hr
    | i p a o r v st st1 st2 Hi Hs Hr | i p a due st Hi Hd | i p due st Hi Hd
    | st Hd | st Hd | st Hw Hr Hf | dt st Hdt].
  - done.
  - unfold queryAPI_enter, queried. simpl. split_and!.
    + rewrite Htot. lia.
    + by rewrite reverse_cons, Hord.
    + constructor; [split; [done | set_solver]|].
      eapply Forall_impl; [exact Hcalls|]. intros c [? ?]. split; [done|].
      set_solver.
  - settle_frames Hs. unfold queried. simpl.
    by rewrite Ftotal, Fcalls, Fvisited.
  - settle_frames Hs. resume_frames Hr. unfold queried. simpl.
    by rewrite Rtotal, Rcalls, Rvisited, Ftotal, Fcalls, Fvisited.
  - settle_frames Hs. resume_frames Hr. unfold queried. simpl.
    by rewrite Rtotal, Rcalls, Rvisited, Ftotal, Fcalls, Fvisited.
  - assert (1 ≤ a) as Ha.
    { rewrite Forall_lookup in Hattempts. by apply (Hattempts _ _ Hi). }
    assert (p ∈ visitedPrefixes st) as Hp.
    { apply Hvis, elem_of_app. left. apply list_elem_of_omap.
      exists (AwaitRetry p a due). split; [|done].
      by eapply list_elem_of_lookup_2. }
    unfold queryAPI_enter, queried. simpl. split_and!.
    + rewrite Htot. lia.
    + rewrite filter_cons_False by (simpl; lia). done.
    + constructor; [split; [simpl; lia | done] | done].
  - done.
  - destruct (monitorBacklog_files
                (set_monitorDue (now st + MONITOR_PERIOD_MS) st))
      as (_ & _ & Ht & Hv & Hc & _).
    unfold queried. by rewrite Ht, Hv, Hc.
  - done.
  - done.
  - done.
Qed.

Lemma reachable_counted st :
  reachable st →
  totalRequests st = Z.of_nat (length (calls st))
  ∧ visitedPrefixes st = reverse (queried st)
  ∧ Forall (λ c, 1 ≤ call_attempt c ∧ call_prefix c ∈ visitedPrefixes st)
      (calls st).
Proof.
  revert st. apply reachable_invariant.
  - by rewrite extractAllNames_begin_spec.
  - intros l st st' Hst Hinv Hl%exec_step_of.
    eapply step_counted; [| | exact Hinv | exact Hl].
    + by apply reachable_once_inv.
    + by apply reachable_tree_inv.
Qed.

(** ** The children of a full page *)

Lemma step_offspring l st st' :
  added st ≡ₚ waiting st ++ visitedPrefixes st →
  (∀ p items c,
     (p, JArr items) ∈ answers st →
     Z.of_nat (length items) = MAX_RESULTS_PER_QUERY →
     c ∈ VALID_CHARACTERS → p +:+ c ∈ added st) →
  step_of l st st' →
  added st ⊆ added st'
  ∧ ∀ p items c,
      (p, JArr items) ∈ answers st' →
      Z.of_nat (length items) = MAX_RESULTS_PER_QUERY →
      c ∈ VALID_CHARACTERS → p +:+ c ∈ added st'.
Proof.
  intros Hperm Hinv Hstep.
  assert (∀ p a o r v st1,
            queryAPI_settle p a o r st = (st1, Return v) →
            let st2 := (processPrefix_resume p v r st1).1 in
            added st ⊆ added st2
            ∧ ∀ q items c,
                (q, JArr items) ∈ answers st2 →
                Z.of_nat (length items) = MAX_RESULTS_PER_QUERY →
                c ∈ VALID_CHARACTERS → q +:+ c ∈ added st2) as Hanswer.
  { intros p a o r v st1 Hs st2. settle_frames Hs.
    destruct (processPrefix_resume_tree p v r st1)
      as (Hans & _ & _ & new & _ & Had & _).
    fold st2 in Hans, Had.
    assert (added st ⊆ added st2) as Hsub.
    { rewrite Had, Fadded. set_solver. }
    split; [done|]. intros q items c Hq Hlen Hc.
    rewrite Hans, Fanswers in Hq. apply elem_of_cons in Hq as [[= -> <-]|Hq];
      [|by eapply Hsub, Hinv].
    destruct (processPrefix_resume_queue p items r st1) as (_ & Had' & _).
    fold st2 in Had'. apply Z.eqb_eq in Hlen. rewrite Hlen in Had'.
    rewrite Had', Fadded, Fvisited.
    destruct (decide (p +:+ c ∈ visitedPrefixes st)) as [Hv|Hv].
    - apply elem_of_app. right. rewrite Hperm. apply elem_of_app. by right.
    - apply elem_of_app. left. apply elem_of_reverse. unfold children.
      apply list_elem_of_fmap_2. by apply list_elem_of_filter. }
  destruct Hstep as [p rest st Hw Hq Hp | p rest st Hw Hq Hp
    | i p a o r ms st st1 Hi Hs | i p a o r v k st st1 st2 Hi Hs Hr
    | i p a o r v st st1 st2 Hi Hs Hr | i p a due st Hi Hd | i p due st Hi Hd
    | st Hd | st Hd | st Hw Hr Hf | dt st Hdt]; try done.
  - settle_frames Hs. simpl. by rewrite Fadded, Fanswers.
  - specialize (Hanswer p a o r v st1 Hs). by rewrite Hr in Hanswer.
  - specialize (Hanswer p a o r v st1 Hs). by rewrite Hr in Hanswer.
  - destruct (monitorBacklog_files
                (set_monitorDue (now st + MONITOR_PERIOD_MS) st))
      as (_ & _ & _ & _ & _ & _ & _ & _ & Had & Hans).
    by rewrite Had, Hans.
Qed.

Lemma reachable_offspring st :
  reachable st →
  VALID_CHARACTERS ⊆ added st
  ∧ ∀ p items c,
      (p, JArr items) ∈ answers st →
      Z.of_nat (length items) = MAX_RESULTS_PER_QUERY →
      c ∈ VALID_CHARACTERS → p +:+ c ∈ added st.
Proof.
  revert st. apply reachable_invariant.
  - rewrite extractAllNames_begin_spec. split.
    + intros c Hc. change (c ∈ reverse VALID_CHARACTERS ++ []).
      apply elem_of_app. left. by apply elem_of_reverse.
    + intros p items c Hp. by apply elem_of_nil in Hp.
  - intros l st st' Hst [Hroots Hinv] Hl%exec_step_of.
    destruct (step_offspring l st st' (reachable_conservation st Hst) Hinv Hl)
      as [Hsub Hinv'].
    split; [|done]. by etrans.
Qed.

(** ** After the last job *)

Lemma step_finished l st st' :
  finished st = true → waiting st = [] → running st = [] →
  step_of l st st' →
  (l = LMonitor ∨ l = LInterval ∨ ∃ dt, 0 ≤ dt ∧ l = LTime dt)
  ∧ finished st' = true ∧ waiting st' = [] ∧ running st' = []
  ∧ files st' = files st ∧ discoveredNames st' = discoveredNames st
  ∧ totalRequests st' = totalRequests st ∧ calls st' = calls st
  ∧ answers st' = answers st ∧ visitedPrefixes st' = visitedPrefixes st
  ∧ now st ≤ now st'.
Proof.
  intros Hfin Hwait Hrun Hstep.
  destruct Hstep as [p rest st Hw Hq Hp | p rest st Hw Hq Hp
    | i p a o r ms st st1 Hi Hs | i p a o r v k st st1 st2 Hi Hs Hr
    | i p a o r v st st1 st2 Hi Hs Hr | i p a due st Hi Hd | i p due st Hi Hd
    | st Hd | st Hd | st Hw Hr Hf | dt st Hdt];
    try (by rewrite Hwait in Hw); try (by rewrite Hrun in Hi);
    try congruence.
  - destruct (monitorBacklog_files
                (set_monitorDue (now st + MONITOR_PERIOD_MS) st))
      as (Hf & Hn & Ht & Hv & Hc & Hrn & Hnow & Hwt & _ & Hans).
    destruct (monitorBacklog_rest
                (set_monitorDue (now st + MONITOR_PERIOD_MS) st))
      as (_ & Hfi & _).
    rewrite Hf, Hn, Ht, Hv, Hc, Hrn, Hnow, Hwt, Hans, Hfi. simpl.
    split_and!; try done. by left.
  - simpl. split_and!; try done. right. by left.
  - simpl. split_and!; try done; [|lia]. right. right. by exists dt.
Qed.

Lemma step_unfinished l st st' :
  finished st = false → step_of l st st' → finished st' = true →
  l = LIdle ∧ st' = extractAllNames_end st
  ∧ waiting st = [] ∧ running st = [].
Proof.
  intros Hfin Hstep.
  destruct Hstep as [p rest st Hw Hq Hp | p rest st Hw Hq Hp
    | i p a o r ms st st1 Hi Hs | i p a o r v k st st1 st2 Hi Hs Hr
    | i p a o r v st st1 st2 Hi Hs Hr | i p a due st Hi Hd | i p due st Hi Hd
    | st Hd | st Hd | st Hw Hr Hf | dt st Hdt]; try (simpl; congruence).
  - settle_frames Hs. simpl. congruence.
  - settle_frames Hs. resume_frames Hr. simpl. congruence.
  - settle_frames Hs. resume_frames Hr. simpl. congruence.
  - destruct (monitorBacklog_rest
                (set_monitorDue (now st + MONITOR_PERIOD_MS) st))
      as (_ & Hfi & _).
    rewrite Hfi. simpl. congruence.
  - done.
Qed.

Lemma reachable_finished st :
  reachable st → finished st = true →
  waiting st = [] ∧ running st = []
  ∧ ∃ elapsed older,
      0 ≤ elapsed ≤ now st
      ∧ files st
        = (NAMES_FILE, NamesOnly (discoveredNames st))
          :: (PROGRESS_FILE,
              ProgressData {| snap_totalRequests := totalRequests st;
                              snap_totalNames := JSSet.size (discoveredNames st);
                              snap_names := discoveredNames st;
                              snap_timeElapsed :=
                                Some (seconds_elapsed elapsed) |})
          :: (PROGRESS_FILE,
              ProgressData {| snap_totalRequests := totalRequests st;
                              snap_totalNames := JSSet.size (discoveredNames st);
                              snap_names := discoveredNames st;
                              snap_timeElapsed := None |})
          :: older.
Proof.
  intros Hst. cut (0 ≤ now st ∧ (finished st = true →
    waiting st = [] ∧ running st = []
    ∧ ∃ elapsed older,
        0 ≤ elapsed ≤ now st
        ∧ files st
          = (NAMES_FILE, NamesOnly (discoveredNames st))
            :: (PROGRESS_FILE,
                ProgressData {| snap_totalRequests := totalRequests st;
                                snap_totalNames := JSSet.size (discoveredNames st);
                                snap_names := discoveredNames st;
                                snap_timeElapsed :=
                                  Some (seconds_elapsed elapsed) |})
            :: (PROGRESS_FILE,
                ProgressData {| snap_totalRequests := totalRequests st;
                                snap_totalNames := JSSet.size (discoveredNames st);
                                snap_names := discoveredNames st;
                                snap_timeElapsed := None |})
            :: older)); [tauto|].
  revert st Hst. apply reachable_invariant.
  - by rewrite extractAllNames_begin_spec.
  - intros l st st' _ [Hnow Hinv] Hl%exec_step_of. split.
    { pose proof (proj2 (exec_step_of l st st') Hl) as Hexec.
      assert (now st ≤ now st'); [|lia]. clear Hinv.
      destruct Hl as [p rest st Hw Hq Hp | p rest st Hw Hq Hp
        | i p a o r ms st st1 Hi Hs | i p a o r v k st st1 st2 Hi Hs Hr
        | i p a o r v st st1 st2 Hi Hs Hr | i p a due st Hi Hd | i p due st Hi Hd
        | st Hd | st Hd | st Hw Hr Hf | dt st Hdt]; try (simpl; lia).
      - settle_frames Hs. simpl. lia.
      - settle_frames Hs. resume_frames Hr. simpl. lia.
      - settle_frames Hs. resume_frames Hr. simpl. lia.
      - destruct (monitorBacklog_files
                    (set_monitorDue (now st + MONITOR_PERIOD_MS) st))
          as (_ & _ & _ & _ & _ & _ & Hn & _).
        rewrite Hn. simpl. lia. }
    intros Hfin'. destruct (finished st) eqn:Hfin.
    + destruct (Hinv eq_refl) as (Hw & Hr & elapsed & older & Hel & Hfiles).
      destruct (step_finished l st st' Hfin Hw Hr Hl)
        as (_ & _ & Hw' & Hr' & Hf' & Hn' & Ht' & _ & _ & _ & Hnow').
      split_and!; [done | done |]. exists elapsed, older.
      rewrite Hf', Hn', Ht'. split; [lia | done].
    + destruct (step_unfinished l st st' Hfin Hl Hfin') as (_ & -> & Hw & Hr).
      split_and!; [done | done |]. exists (now st), (files st).
      split; [simpl; lia | done].
Qed.

(** ** Names not yet saved *)

Lemma add_names_size (items names : list json) :
  JSSet.size names ≤ JSSet.size (add_names items names).
Proof.
  destruct (add_names_prefix_of items names) as [k ->].
  unfold JSSet.size. rewrite length_app. lia.
Qed.

Lemma step_saved l st st' :
  (finished st = true → running st = []) →
  saved_names st ≤ JSSet.size (discoveredNames st)
    < saved_names st + SAVE_INCREMENT
  ∧ (finished st = false → lastSavedCount st = saved_names st) →
  step_of l st st' →
  saved_names st' ≤ JSSet.size (discoveredNames st')
    < saved_names st' + SAVE_INCREMENT
  ∧ (finished st' = false → lastSavedCount st' = saved_names st').
Proof.
  intros Hdone [Hbound Hlast] Hstep.
  assert (∀ i p a o r v st1,
            running st !! i = Some (AwaitResponse p a) →
            queryAPI_settle p a o r st = (st1, Return v) →
            let st2 := (processPrefix_resume p v r st1).1 in
            saved_names st2 ≤ JSSet.size (discoveredNames st2)
              < saved_names st2 + SAVE_INCREMENT
            ∧ (finished st2 = false → lastSavedCount st2 = saved_names st2))
    as Hanswer.
  { intros i p a o r v st1 Hi Hs st2. settle_frames Hs.
    assert (finished st = false) as Hfin.
    { destruct (finished st); [|done]. by rewrite Hdone in Hi. }
    specialize (Hlast Hfin).
    destruct (processPrefix_resume_effect p v r st1) as (Hf & _ & Heff).
    fold st2 in Hf, Heff.
    destruct v as [| | | | |items|];
      try (destruct Heff as (Hn & Hfl & Hl & _);
           unfold saved_names, snapshots;
           rewrite Hn, Hfl, Hl, Hf, Fnames, Ffiles, Gsaved, Gfinished;
           done).
    cbv zeta in Heff. destruct Heff as (Hn & _ & Hsave).
    rewrite Fnames, Gsaved, Ftotal, Ffiles in *.
    pose proof (add_names_size items (discoveredNames st)) as Hgrow.
    destruct (_ <=? _) eqn:Htest.
    - destruct Hsave as [Hl Hfl].
      assert (saved_names st2 = JSSet.size (add_names items (discoveredNames st)))
        as Hsaved.
      { unfold saved_names, snapshots. by rewrite Hfl. }
      rewrite Hsaved, Hn, Hl. unfold SAVE_INCREMENT. split; [lia | done].
    - destruct Hsave as [Hl Hfl].
      assert (saved_names st2 = saved_names st) as Hsaved.
      { unfold saved_names, snapshots. by rewrite Hfl. }
      apply Z.leb_gt in Htest.
      rewrite Hsaved, Hn, Hl. split; [lia | done]. }
  destruct Hstep as [p rest st Hw Hq Hp | p rest st Hw Hq Hp
    | i p a o r ms st st1 Hi Hs | i p a o r v k st st1 st2 Hi Hs Hr
    | i p a o r v st st1 st2 Hi Hs Hr | i p a due st Hi Hd | i p due st Hi Hd
    | st Hd | st Hd | st Hw Hr Hf | dt st Hdt]; try done.
  - settle_frames Hs. unfold saved_names, snapshots. simpl.
    by rewrite Ffiles, Fnames, Gsaved, Gfinished.
  - specialize (Hanswer i p a o r v st1 Hi Hs). by rewrite Hr in Hanswer.
  - specialize (Hanswer i p a o r v st1 Hi Hs). by rewrite Hr in Hanswer.
  - destruct (monitorBacklog_files
                (set_monitorDue (now st + MONITOR_PERIOD_MS) st))
      as (Hf & Hn & _).
    destruct (monitorBacklog_rest
                (set_monitorDue (now st + MONITOR_PERIOD_MS) st))
      as (Hl & Hfi & _).
    unfold saved_names, snapshots. by rewrite Hf, Hn, Hl, Hfi.
  - split; [|done].
    change (saved_names (extractAllNames_end st))
      with (JSSet.size (discoveredNames st)).
    change (discoveredNames (extractAllNames_end st))
      with (discoveredNames st).
    unfold SAVE_INCREMENT. lia.
Qed.

Lemma reachable_saved st :
  reachable st →
  saved_names st ≤ JSSet.size (discoveredNames st)
    < saved_names st + SAVE_INCREMENT
  ∧ (finished st = false → lastSavedCount st = saved_names st).
Proof.
  revert st. apply reachable_invariant.
  - by rewrite extractAllNames_begin_spec.
  - intros l st st' Hst Hinv Hl%exec_step_of.
    eapply step_saved; [|exact Hinv|exact Hl].
    intros Hfin. by destruct (reachable_finished st Hst Hfin) as (_ & ? & _).
Qed.

(** ** Jobs at a time *)

Lemma reachable_concurrency st : reachable st → concurrency_ok st.
Proof.
  revert st. apply (reachable_invariant concurrency_ok).
  - rewrite extractAllNames_begin_spec. by split.
  - intros l st st' _. apply exec_concurrency_ok.
Qed.

Lemma length_delete_le {A} (l : list A) (i : nat) :
  (length (delete i l) ≤ length l)%nat.
Proof.
  revert i. induction l as [|x l IH]; intros [|i]; simpl; try lia.
  specialize (IH i). lia.
Qed.

Lemma reachable_running st :
  reachable st → Z.of_nat (length (running st)) ≤ MAX_CONCURRENCY.
Proof.
  revert st. apply reachable_invariant.
  - by rewrite extractAllNames_begin_spec.
  - intros l st st' Hst Hinv Hl%exec_step_of.
    destruct (reachable_concurrency st Hst) as [[_ Hmax] Hqueue].
    destruct Hl as [p rest st Hw Hq Hp | p rest st Hw Hq Hp
      | i p a o r ms st st1 Hi Hs | i p a o r v k st st1 st2 Hi Hs Hr
      | i p a o r v st st1 st2 Hi Hs Hr | i p a due st Hi Hd | i p due st Hi Hd
      | st Hd | st Hd | st Hw Hr Hf | dt st Hdt]; try done.
    + unfold queue_allows in Hq. apply andb_prop in Hq as [_ Hq%Z.ltb_lt].
      unfold queryAPI_enter. simpl. rewrite length_app. simpl. lia.
    + settle_frames Hs. simpl. by rewrite length_insert, Frunning.
    + settle_frames Hs. resume_frames Hr. simpl.
      by rewrite length_insert, Rrunning, Frunning.
    + settle_frames Hs. resume_frames Hr. simpl.
      pose proof (length_delete_le (running st2) i) as Hlen.
      rewrite Rrunning, Frunning in *. lia.
    + unfold queryAPI_enter. simpl. by rewrite length_insert.
    + simpl. pose proof (length_delete_le (running st) i) as Hlen. lia.
    + destruct (monitorBacklog_files
                  (set_monitorDue (now st + MONITOR_PERIOD_MS) st))
        as (_ & _ & _ & _ & _ & Hrn & _).
      by rewrite Hrn.
Qed.

(** ** The timer of the monitor *)

Lemma reachable_monitor st :
  reachable st → monitorDue st ≤ now st + MONITOR_PERIOD_MS.
Proof.
  revert st. apply reachable_invariant.
  - by rewrite extractAllNames_begin_spec.
  - intros l st st' Hst Hinv Hl%exec_step_of.
    destruct Hl as [p rest st Hw Hq Hp | p rest st Hw Hq Hp
      | i p a o r ms st st1 Hi Hs | i p a o r v k st st1 st2 Hi Hs Hr
      | i p a o r v st st1 st2 Hi Hs Hr | i p a due st Hi Hd | i p due st Hi Hd
      | st Hd | st Hd | st Hw Hr Hf | dt st Hdt]; try done.
    + settle_frames Hs. simpl. by rewrite Fnow, Gmonitor.
    + settle_frames Hs. resume_frames Hr. simpl.
      by rewrite Rnow, Rmonitor, Fnow, Gmonitor.
    + settle_frames Hs. resume_frames Hr. simpl.
      by rewrite Rnow, Rmonitor, Fnow, Gmonitor.
    + destruct (monitorBacklog_files
                  (set_monitorDue (now st + MONITOR_PERIOD_MS) st))
        as (_ & _ & _ & _ & _ & _ & Hn & _).
      destruct (monitorBacklog_rest
                  (set_monitorDue (now st + MONITOR_PERIOD_MS) st))
        as (_ & _ & Hm & _).
      rewrite Hn, Hm. simpl. lia.
    + simpl. lia.
Qed.

(** ** The names *)

Lemma has_true {A} (eqb : A → A → bool) (x : A) (s : list A) :
  JSSet.has eqb x s = true ↔ ∃ y, y ∈ s ∧ eqb x y = true.
Proof.
  unfold JSSet.has. rewrite existsb_exists.
  split; intros (y & Hy & Hxy); exists y; by rewrite list_elem_of_In in *.
Qed.

Lemma same_value_zero_sym (x y : json) :
  same_value_zero x y = same_value_zero y x.
Proof.
  destruct x, y; simpl; try done.
  - by destruct b, b0.
  - apply eq_true_iff_eq. rewrite !Qeq_bool_iff. split; intros H; by symmetry.
  - apply String.eqb_sym.
Qed.

Lemma same_value_zero_str (s : string) (y : json) :
  same_value_zero (JStr s) y = true ↔ y = JStr s.
Proof.
  destruct y; simpl; try (split; [done | intros [=]]).
  rewrite String.eqb_eq. split; [by intros -> | by intros [= ->]].
Qed.

Lemma add_names_snoc (items : list json) (x : json) (names : list json) :
  add_names (items ++ [x]) names
  = JSSet.add same_value_zero x (add_names items names).
Proof. unfold add_names. by rewrite foldl_app. Qed.

Lemma add_names_elem (x : json) (items names : list json) :
  x ∈ add_names items names → x ∈ names ∨ x ∈ items.
Proof.
  induction items as [|y items IH] using rev_ind; [by left|].
  rewrite add_names_snoc. unfold JSSet.add. destruct (JSSet.has _ _ _).
  - intros [?|?]%IH; [by left | right; set_solver].
  - intros [[?|?]%IH | ->%list_elem_of_singleton]%elem_of_app;
      [by left | right; set_solver | right; set_solver].
Qed.

Lemma add_names_str (s : string) (items names : list json) :
  JStr s ∈ items → JStr s ∈ add_names items names.
Proof.
  induction items as [|y items IH] using rev_ind; [by intros ?%elem_of_nil|].
  rewrite add_names_snoc. unfold JSSet.add.
  intros [Hs | Hy%list_elem_of_singleton]%elem_of_app.
  - destruct (JSSet.has _ _ _); [by apply IH | set_solver].
  - subst y. destruct (JSSet.has _ _ _) eqn:Hhas; [|set_solver].
    apply has_true in Hhas as (z & Hz & Hxz).
    by apply same_value_zero_str in Hxz as ->.
Qed.

Lemma add_distinct (x : json) (s : list json) :
  (∀ i j y z, s !! i = Some y → s !! j = Some z →
     same_value_zero y z = true → i = j) →
  ∀ i j y z,
    JSSet.add same_value_zero x s !! i = Some y →
    JSSet.add same_value_zero x s !! j = Some z →
    same_value_zero y z = true → i = j.
Proof.
  intros Hs. unfold JSSet.add. destruct (JSSet.has _ _ _) eqn:Hhas; [done|].
  assert (∀ y, y ∈ s → same_value_zero x y = false) as Hnew.
  { intros y Hy. destruct (same_value_zero x y) eqn:Hxy; [|done].
    assert (JSSet.has same_value_zero x s = true) as Hh
      by (apply has_true; by exists y).
    congruence. }
  intros i j y z Hi Hj Hyz.
  apply lookup_snoc_Some in Hi as [[Hi Hy]|[-> <-]];
    apply lookup_snoc_Some in Hj as [[Hj Hz]|[-> <-]].
  - by eapply Hs.
  - rewrite same_value_zero_sym, Hnew in Hyz; [done|].
    by eapply list_elem_of_lookup_2.
  - rewrite Hnew in Hyz; [done|]. by eapply list_elem_of_lookup_2.
  - done.
Qed.

Lemma add_names_distinct (items names : list json) :
  (∀ i j y z, names !! i = Some y → names !! j = Some z →
     same_value_zero y z = true → i = j) →
  ∀ i j y z,
    add_names items names !! i = Some y →
    add_names items names !! j = Some z →
    same_value_zero y z = true → i = j.
Proof.
  induction items as [|x items IH] using rev_ind; [done|].
  intros Hs. rewrite add_names_snoc. by apply add_distinct, IH.
Qed.

Lemma step_names l st st' :
  ((∀ n, n ∈ discoveredNames st →
      ∃ p items, (p, JArr items) ∈ answers st ∧ n ∈ items)
   ∧ (∀ p items s, (p, JArr items) ∈ answers st → JStr s ∈ items →
        JStr s ∈ discoveredNames st)
   ∧ (∀ i j y z, discoveredNames st !! i = Some y →
        discoveredNames st !! j = Some z →
        same_value_zero y z = true → i = j)) →
  step_of l st st' →
  (∀ n, n ∈ discoveredNames st' →
     ∃ p items, (p, JArr items) ∈ answers st' ∧ n ∈ items)
  ∧ (∀ p items s, (p, JArr items) ∈ answers st' → JStr s ∈ items →
       JStr s ∈ discoveredNames st')
  ∧ (∀ i j y z, discoveredNames st' !! i = Some y →
       discoveredNames st' !! j = Some z →
       same_value_zero y z = true → i = j).
Proof.
  intros (Hsound & Hcomplete & Hdistinct) Hstep.
  assert (∀ p a o r v st1,
            queryAPI_settle p a o r st = (st1, Return v) →
            let st2 := (processPrefix_resume p v r st1).1 in
            (∀ n, n ∈ discoveredNames st2 →
               ∃ q items, (q, JArr items) ∈ answers st2 ∧ n ∈ items)
            ∧ (∀ q items s, (q, JArr items) ∈ answers st2 → JStr s ∈ items →
                 JStr s ∈ discoveredNames st2)
            ∧ (∀ i j y z, discoveredNames st2 !! i = Some y →
                 discoveredNames st2 !! j = Some z →
                 same_value_zero y z = true → i = j)) as Hanswer.
  { intros p a o r v st1 Hs st2. settle_frames Hs.
    destruct (processPrefix_resume_tree p v r st1) as (Hans & _).
    destruct (processPrefix_resume_effect p v r st1) as (_ & _ & Heff).
    fold st2 in Hans, Heff. rewrite Hans, Fanswers.
    destruct v as [| | | | |items|];
      try (destruct Heff as (-> & _); rewrite Fnames; split_and!;
           [ intros n' (p' & items' & Hp' & Hn')%Hsound; exists p', items';
             split; [by right | done]
           | intros p' items' s' [[=]|Hp']%elem_of_cons; by eapply Hcomplete
           | done ]).
    cbv zeta in Heff. destruct Heff as (-> & _). rewrite Fnames. split_and!.
    - intros n [(q & items' & Hq & Hn)%Hsound | Hn]%add_names_elem.
      + exists q, items'. split; [by right | done].
      + exists p, items. split; [by left | done].
    - intros q items' s [[= -> ->]|Hq]%elem_of_cons Hs'.
      + by apply add_names_str.
      + eapply prefix_of_subseteq; [apply add_names_prefix_of|].
        by eapply Hcomplete.
    - by apply add_names_distinct. }
  destruct Hstep as [p rest st Hw Hq Hp | p rest st Hw Hq Hp
    | i p a o r ms st st1 Hi Hs | i p a o r v k st st1 st2 Hi Hs Hr
    | i p a o r v st st1 st2 Hi Hs Hr | i p a due st Hi Hd | i p due st Hi Hd
    | st Hd | st Hd | st Hw Hr Hf | dt st Hdt]; try done.
  - settle_frames Hs. simpl. by rewrite Fnames, Fanswers.
  - specialize (Hanswer p a o r v st1 Hs). by rewrite Hr in Hanswer.
  - specialize (Hanswer p a o r v st1 Hs). by rewrite Hr in Hanswer.
  - destruct (monitorBacklog_files
                (set_monitorDue (now st + MONITOR_PERIOD_MS) st))
      as (_ & Hn & _ & _ & _ & _ & _ & _ & _ & Hans).
    by rewrite Hn, Hans.
Qed.

Lemma reachable_names st :
  reachable st →
  (∀ n, n ∈ discoveredNames st →
     ∃ p items, (p, JArr items) ∈ answers st ∧ n ∈ items)
  ∧ (∀ p items s, (p, JArr items) ∈ answers st → JStr s ∈ items →
       JStr s ∈ discoveredNames st)
  ∧ (∀ i j y z, discoveredNames st !! i = Some y →
       discoveredNames st !! j = Some z →
       same_value_zero y z = true → i = j).
Proof.
  revert st. apply reachable_invariant.
  - rewrite extractAllNames_begin_spec. split_and!.
    + by intros n ?%elem_of_nil.
    + by intros p items s ?%elem_of_nil.
    + done.
  - intros l st st' _ Hinv Hl%exec_step_of. by eapply step_names.
Qed.

(** ** The query string *)

Lemma percent_decode_encode_char (c : ascii) (l : list ascii) :
  percent_decode (encode_char c ++ l) = cons c <$> percent_decode l.
Proof.
  destruct c as [[] [] [] [] [] [] [] []]; reflexivity.
Qed.

Lemma percent_decode_bind (l : list ascii) :
  percent_decode (l ≫= encode_char) = Some l.
Proof.
  induction l as [|c l IH]; [done|].
  change ((c :: l) ≫= encode_char) with (encode_char c ++ (l ≫= encode_char)).
  by rewrite percent_decode_encode_char, IH.
Qed.

Lemma chars_of_chars (l : list ascii) :
  chars (String.string_of_list_ascii l) = l.
Proof. apply String.list_ascii_of_string_of_list_ascii. Qed.

Lemma chars_encodeURIComponent (s : string) :
  chars (encodeURIComponent s) = chars s ≫= encode_char.
Proof. apply chars_of_chars. Qed.

Lemma encodeURIComponent_app (s t : string) :
  encodeURIComponent (s +:+ t) = encodeURIComponent s +:+ encodeURIComponent t.
Proof.
  apply chars_inj.
  by rewrite chars_app, !chars_encodeURIComponent, chars_app, bind_app.
Qed.

Lemma has_encoded_space_skip (c : ascii) (l : list ascii) :
  c ≠ "%"%char → has_encoded_space (c :: l) = has_encoded_space l.
Proof.
  intros Hc. apply Ascii.eqb_neq in Hc.
  destruct l as [|c1 [|c2 l]]; simpl; [done | done |].
  by rewrite Hc.
Qed.

Lemma has_encoded_space_escape (c1 c2 : ascii) (l : list ascii) :
  Ascii.eqb c1 "2" && Ascii.eqb c2 "0" = false →
  has_encoded_space ("%"%char :: c1 :: c2 :: l)
  = has_encoded_space (c1 :: c2 :: l).
Proof.
  intros Hc.
  change (has_encoded_space ("%"%char :: c1 :: c2 :: l))
    with ((Ascii.eqb "%" "%" && Ascii.eqb c1 "2" && Ascii.eqb c2 "0")
          || has_encoded_space (c1 :: c2 :: l)).
  by rewrite <- andb_assoc, Hc, andb_false_r.
Qed.

(** No token of the alphabet is encoded with the characters [%20], and
    none is a space. *)
Lemma VALID_CHARACTERS_encoded :
  Forall (λ c, (∀ l, has_encoded_space (chars (encodeURIComponent c) ++ l)
                     = has_encoded_space l)
               ∧ " "%char ∉ chars c) VALID_CHARACTERS.
Proof.
  unfold VALID_CHARACTERS, spread. simpl.
  repeat (constructor;
    [split;
      [intros l;
       match goal with
       | |- context [chars (encodeURIComponent ?c)] =>
           let t := eval vm_compute in (chars (encodeURIComponent c)) in
           change (chars (encodeURIComponent c)) with t
       end;
       cbn [app];
       rewrite ?has_encoded_space_escape by done;
       by rewrite !has_encoded_space_skip by done
      |apply (bool_decide_unpack _); by vm_compute]|]).
  constructor.
Qed.

Lemma node_encoded (p : string) :
  is_node p →
  (∀ l, has_encoded_space (chars (encodeURIComponent p) ++ l)
        = has_encoded_space l)
  ∧ " "%char ∉ chars p.
Proof.
  pose proof VALID_CHARACTERS_encoded as Hall. rewrite Forall_forall in Hall.
  induction 1 as [c Hc | p c Hp [IH1 IH2] Hc]; [by apply Hall|].
  destruct (Hall c Hc) as [Hc1 Hc2]. split.
  - intros l. rewrite encodeURIComponent_app, chars_app, <- (assoc_L (++)).
    by rewrite IH1, Hc1.
  - rewrite chars_app. intros [?|?]%elem_of_app; [by apply IH2 | by apply Hc2].
Qed.

Lemma reachable_visited_nodes st p :
  reachable st → p ∈ visitedPrefixes st → is_node p.
Proof.
  intros Hst Hp.
  destruct (reachable_tree_inv st Hst) as (_ & Hrun & Hans & _).
  rewrite (reachable_accounted st Hst) in Hp.
  apply elem_of_app in Hp as [Hp|Hp].
  - apply list_elem_of_omap in Hp as (k & Hk & Hu).
    rewrite Forall_forall in Hrun. specialize (Hrun k Hk).
    by destruct k; simplify_eq/=.
  - apply list_elem_of_fmap in Hp as ([q v] & -> & Hq).
    rewrite Forall_forall in Hans. by apply (Hans _ Hq).
Qed.

(** ** Tools for the properties below *)

Lemma processPrefix_resume_due p v r st st' k :
  processPrefix_resume p v r st = (st', Some k) →
  k = AwaitFinish p (now st + delay BASE_DELAY_MS r).
Proof.
  intros Hr. destruct (processPrefix_resume_frame p v r st) as (_ & _ & _ & _ & Hn).
  rewrite Hr in Hn. simpl in Hn. revert Hr.
  unfold processPrefix_resume. destruct v; try done.
  intros [= <- <-]. by rewrite <- Hn.
Qed.

Lemma filter_all {A} (P : A → Prop) `{∀ x, Decision (P x)} (l : list A) :
  Forall P l → filter P l = l.
Proof.
  induction 1 as [|x l Hx _ IH]; [done|].
  by rewrite filter_cons_True, IH.
Qed.

Lemma filter_split_length {A} (P Q : A → Prop)
    `{∀ x, Decision (P x)} `{∀ x, Decision (Q x)} (l : list A) :
  Forall (λ x, (P x ∨ Q x) ∧ ¬ (P x ∧ Q x)) l →
  length l = (length (filter P l) + length (filter Q l))%nat.
Proof.
  induction 1 as [|x l [Hx Hnx] _ IH]; [done|].
  rewrite !filter_cons.
  destruct (decide (P x)), (decide (Q x)); simpl; try lia; tauto.
Qed.

(** ** The time between two requests for a prefix *)

Lemma run_snoc (ls : list label) (l : label) (st : state) :
  run (ls ++ [l]) st = run ls st ≫= exec l.
Proof.
  revert st. induction ls as [|l' ls IH]; intros st; simpl.
  - by destruct (exec l st).
  - destruct (exec l' st); [apply IH | done].
Qed.

Lemma retry_delay p a o r st st1 ms :
  1 ≤ a → is_sample r →
  queryAPI_settle p a o r st = (st1, Retry ms) → min_retry_ms ≤ ms.
Proof.
  intros Ha Hr. pose proof (delay_bounds RATE_LIMIT_COOLDOWN_MS r Hr) as H1.
  pose proof (delay_bounds (BASE_DELAY_MS * 2 ^ a) r Hr) as H2.
  assert (2 ^ 1 ≤ 2 ^ a) as Hpow by (apply Z.pow_le_mono_r; lia).
  change (2 ^ 1) with 2 in Hpow.
  assert (min_retry_ms ≤ BASE_DELAY_MS * 2 ^ a) as Hbase.
  { unfold min_retry_ms, BASE_DELAY_MS. lia. }
  unfold queryAPI_settle, queryAPI_catch.
  destruct o as [data|s|]; [destruct (get_results data)|..]; simpl;
    repeat case_match; intros [= _ <-];
    unfold min_retry_ms, RATE_LIMIT_COOLDOWN_MS in *; lia.
Qed.

Lemma pending_unique (rn : list cont) (i j : nat) (k1 k2 : cont) (p : string) :
  NoDup (omap unanswered rn) →
  rn !! i = Some k1 → rn !! j = Some k2 →
  unanswered k1 = Some p → unanswered k2 = Some p → i = j.
Proof.
  revert i j. induction rn as [|k rn IH]; intros i j Hnd Hi Hj H1 H2; [done|].
  assert (∀ n k', rn !! n = Some k' → unanswered k' = Some p →
            p ∈ omap unanswered rn) as Hin.
  { intros n k' Hn Hk'. apply list_elem_of_omap. exists k'.
    split; [by eapply list_elem_of_lookup_2 | done]. }
  destruct i as [|i], j as [|j]; simpl in *; simplify_eq; try done.
  - rewrite H1 in Hnd. apply NoDup_cons in Hnd as [Hp _].
    destruct Hp. by eapply Hin.
  - rewrite H2 in Hnd. apply NoDup_cons in Hnd as [Hp _].
    destruct Hp. by eapply Hin.
  - f_equal. apply IH; try done.
    destruct (unanswered k); [by apply NoDup_cons in Hnd as [_ ?] | done].
Qed.

Lemma step_spaced l st st' :
  once_inv st → tree_inv st →
  Forall (λ c, call_prefix c ∈ visitedPrefixes st) (calls st) →
  samples_ok l →
  spaced st → step_of l st st' → spaced st'.
Proof.
  intros (_ & _ & Hattempts) (_ & _ & _ & _ & Hnd & Hvis) Hcalls Hl
    (Hpast & Hjobs & Hgap) Hstep.
  apply NoDup_app in Hnd as (Hnd & _ & _).
  rewrite Forall_forall in Hcalls.
  assert (∀ k p, k ∈ running st → unanswered k = Some p →
            p ∈ visitedPrefixes st) as Hpending.
  { intros k p Hk Hu. apply Hvis, elem_of_app. left.
    apply list_elem_of_omap. by exists k. }
  assert (∀ new,
            (∀ c, c ∈ calls st → call_prefix c = call_prefix new →
                  call_time c + min_retry_ms ≤ call_time new) →
            ∀ i j c1 c2,
              (i < j)%nat →
              (new :: calls st) !! i = Some c1 →
              (new :: calls st) !! j = Some c2 →
              call_prefix c1 = call_prefix c2 →
              call_time c2 + min_retry_ms ≤ call_time c1) as Hgap'.
  { intros new Hnew i j c1 c2 Hij H1 H2 Hpre.
    destruct j as [|j]; [lia|]. destruct i as [|i]; simpl in *.
    - injection H1 as <-. apply Hnew; [|done].
      by eapply list_elem_of_lookup_2.
    - apply (Hgap i j); [lia | done..]. }
  destruct Hstep as [p rest st Hw Hq Hp | p rest st Hw Hq Hp
    | i p a o r ms st st1 Hi Hs | i p a o r v k st st1 st2 Hi Hs Hr
    | i p a o r v st st1 st2 Hi Hs Hr | i p a due st Hi Hd | i p due st Hi Hd
    | st Hd | st Hd | st Hw Hr Hf | dt st Hdt].
  - done.
  - assert (∀ c, c ∈ calls st → call_prefix c ≠ p) as Hfresh.
    { intros c Hc <-. by apply Hp, Hcalls. }
    unfold queryAPI_enter. split_and!; simpl.
    + by constructor.
    + apply Forall_app. split; [|by apply Forall_singleton].
      rewrite Forall_forall in Hjobs |- *. intros k Hk.
      specialize (Hjobs k Hk). destruct k as [| q b due |]; try done.
      intros c [->|Hc]%elem_of_cons Hpre; [|by apply Hjobs].
      simpl in Hpre. subst q. destruct Hp. by eapply Hpending.
    + apply Hgap'. intros c Hc Hpre. by destruct (Hfresh c Hc).
  - settle_frames Hs.
    assert (1 ≤ a) as Ha.
    { rewrite Forall_lookup in Hattempts. by apply (Hattempts _ _ Hi). }
    pose proof (retry_delay _ _ _ _ _ _ _ Ha Hl Hs) as Hms.
    split_and!; simpl; rewrite ?Fcalls, ?Fnow, ?Frunning; [done | | done].
    apply Forall_insert; [done|]. intros c Hc _.
    rewrite Forall_forall in Hpast. specialize (Hpast c Hc). simpl in Hpast. lia.
  - settle_frames Hs. resume_frames Hr.
    destruct (processPrefix_resume_cont _ _ _ _ _ _ Hr) as [due ->].
    split_and!; simpl;
      rewrite ?Rcalls, ?Fcalls, ?Rnow, ?Fnow, ?Rrunning, ?Frunning;
      [done | | done].
    by apply Forall_insert.
  - settle_frames Hs. resume_frames Hr.
    split_and!; simpl;
      rewrite ?Rcalls, ?Fcalls, ?Rnow, ?Fnow, ?Rrunning, ?Frunning;
      [done | | done].
    by apply Forall_delete.
  - rewrite Forall_lookup in Hjobs.
    pose proof (Hjobs _ _ Hi) as Hjob. simpl in Hjob.
    unfold queryAPI_enter. split_and!; simpl.
    + by constructor.
    + apply Forall_lookup. intros j k' Hj.
      destruct (decide (i = j)) as [<-|Hij].
      * rewrite list_lookup_insert_eq in Hj by (by eapply lookup_lt_Some).
        by injection Hj as <-.
      * rewrite list_lookup_insert_ne in Hj by done.
        pose proof (Hjobs _ _ Hj) as Hk'.
        destruct k' as [| q b due' |]; try done.
        intros c [->|Hc]%elem_of_cons Hpre; [|by apply Hk'].
        simpl in Hpre. subst q. destruct Hij.
        by eapply (pending_unique (running st) i j _ _ p Hnd Hi Hj).
    + apply Hgap'. intros c Hc Hpre. simpl in *.
      specialize (Hjob c Hc Hpre). lia.
  - split_and!; simpl; [done | by apply Forall_delete | done].
  - destruct (monitorBacklog_files
                (set_monitorDue (now st + MONITOR_PERIOD_MS) st))
      as (_ & _ & _ & _ & Hc & Hrn & Hn & _).
    unfold spaced. by rewrite Hc, Hrn, Hn.
  - done.
  - done.
  - split_and!; simpl; [|done|done].
    eapply Forall_impl; [exact Hpast|]. intros c Hc. simpl in *. lia.
Qed.

Lemma run_spaced (ls : list label) (st : state) :
  Forall samples_ok ls →
  run ls (extractAllNames_begin initial) = Some st →
  spaced st.
Proof.
  revert st. induction ls as [|l ls IH] using rev_ind; intros st Hls Hrun.
  - injection Hrun as <-. rewrite extractAllNames_begin_spec.
    split_and!; [constructor | constructor | by intros i j c1 c2 _ ?].
  - apply Forall_app in Hls as [Hls Hl]. rewrite Forall_singleton in Hl.
    rewrite run_snoc in Hrun.
    destruct (run ls _) as [st0|] eqn:Hrun0; [|done]. simpl in Hrun.
    assert (reachable st0) as Hst0
      by (eapply reachable_run; [apply reachable_begin | exact Hrun0]).
    eapply (step_spaced l st0).
    + by apply reachable_once_inv.
    + by apply reachable_tree_inv.
    + destruct (reachable_counted st0 Hst0) as (_ & _ & Hcalls).
      eapply Forall_impl; [exact Hcalls|]. by intros c [_ ?].
    + done.
    + by apply IH.
    + by apply exec_step_of.
Qed.

(** ** The concurrency in the log *)

Lemma logged_adjust (n : Z) (st : state) :
  currentConcurrency (adjustConcurrency n st)
  = default INITIAL_CONCURRENCY
      (last_adjusted (console (adjustConcurrency n st))).
Proof. done. Qed.

Lemma logged_log (l : log_line) (st : state) :
  (∀ c, l ≠ LogAdjusted c) →
  currentConcurrency st
  = default INITIAL_CONCURRENCY (last_adjusted (console st)) →
  currentConcurrency (log l st)
  = default INITIAL_CONCURRENCY (last_adjusted (console (log l st))).
Proof. intros Hl Hst. destruct l; try done. by destruct (Hl concurrency). Qed.

Lemma exec_logged l st st' :
  currentConcurrency st
  = default INITIAL_CONCURRENCY (last_adjusted (console st)) →
  exec l st = Some st' →
  currentConcurrency st'
  = default INITIAL_CONCURRENCY (last_adjusted (console st')).
Proof.
  apply (exec_preserves
           (λ s, currentConcurrency s
                 = default INITIAL_CONCURRENCY (last_adjusted (console s))));
    try done.
  - intros p s Hs. unfold processPrefix_begin. by case_match.
  - intros p a o r s Hs. unfold queryAPI_settle, queryAPI_catch.
    destruct o as [data|status|]; [destruct (get_results data)|..];
      repeat case_match; simpl; done.
  - intros p v r s Hs. unfold processPrefix_resume.
    destruct v; try done. cbv zeta. cbn [fst].
    assert (∀ s', currentConcurrency s'
                  = default INITIAL_CONCURRENCY (last_adjusted (console s')) →
                  currentConcurrency (maybeSaveProgress s')
                  = default INITIAL_CONCURRENCY
                      (last_adjusted (console (maybeSaveProgress s')))) as Hsave.
    { intros s' Hs'. unfold maybeSaveProgress. by case_match. }
    case_match; rewrite ?expand_spec; by apply Hsave.
  - intros s Hs. unfold monitorBacklog. cbv zeta.
    repeat case_match; first [apply logged_adjust | by apply logged_log].
Qed.

(** ** The attempts of a prefix *)

Ltac step_cases H :=
  destruct H as [p rest st Hw Hq Hp | p rest st Hw Hq Hp
    | i p a o r ms st st1 Hi Hs | i p a o r v k st st1 st2 Hi Hs Hr
    | i p a o r v st st1 st2 Hi Hs Hr | i p a due st Hi Hd | i p due st Hi Hd
    | st Hd | st Hd | st Hw Hr Hf | dt st Hdt].

Lemma seqZ_snoc (n : nat) :
  reverse (seqZ 1 (Z.of_nat (S n)))
  = Z.of_nat (S n) :: reverse (seqZ 1 (Z.of_nat n)).
Proof.
  rewrite Nat2Z.inj_succ, <- Z.add_1_r, seqZ_app by lia.
  rewrite reverse_app. simpl. f_equal. lia.
Qed.

(** The calls for [q] after a call for [p] has been made. *)
Lemma calls_for_enter (q p : string) (a : Z) (st : state) :
  calls_for q (queryAPI_enter p a st)
  = if decide (p = q) then mkCall (now st) p a :: calls_for q st
    else calls_for q st.
Proof. unfold calls_for, queryAPI_enter. simpl. by rewrite filter_cons. Qed.

Lemma calls_for_frame (q : string) (st st' : state) :
  calls st' = calls st → calls_for q st' = calls_for q st.
Proof. unfold calls_for. by intros ->. Qed.

Lemma calls_for_visited (p : string) (st : state) :
  Forall (λ c, call_prefix c ∈ visitedPrefixes st) (calls st) →
  p ∉ visitedPrefixes st → calls_for p st = [].
Proof.
  intros Hcalls Hp. unfold calls_for.
  induction Hcalls as [|c cs Hc _ IH]; [done|].
  rewrite filter_cons_False; [done|]. by intros <-.
Qed.

Lemma attempts_inv_frame (st st' : state) :
  calls st' = calls st →
  Forall (job_counted st) (running st') →
  attempts_inv st → attempts_inv st'.
Proof.
  intros Hc Hjobs [Hseq _].
  assert (∀ q, calls_for q st' = calls_for q st) as Hsame
    by (intros q; by apply calls_for_frame).
  split.
  - intros q. by rewrite Hsame.
  - eapply Forall_impl; [exact Hjobs|]. intros k Hk q Hu. rewrite Hsame.
    by apply Hk.
Qed.

(** The same after a call [queryAPI(p, a)], the [a]-th for [p], where
    [p] is the prefix of no job of [rn] but those that are at attempt
    [a]. *)
Lemma attempts_inv_enter (p : string) (a : Z) (rn : list cont) (st : state) :
  Z.of_nat (length (calls_for p st)) + 1 = a →
  Forall (λ k, if decide (unanswered k = Some p)
               then cont_attempt k = a else job_counted st k) rn →
  attempts_inv st →
  attempts_inv (set_running rn (queryAPI_enter p a st)).
Proof.
  intros Ha Hrn [Hseq _].
  assert (∀ q, calls_for q (set_running rn (queryAPI_enter p a st))
               = if decide (p = q)
                 then mkCall (now st) p a :: calls_for q st
                 else calls_for q st) as Hnew
    by (intros q; apply calls_for_enter).
  split.
  - intros q. rewrite Hnew. destruct (decide (p = q)) as [<-|Hpq]; [|done].
    rewrite fmap_cons. cbn [length]. rewrite seqZ_snoc, Hseq.
    f_equal. simpl. lia.
  - change (Forall (job_counted (set_running rn (queryAPI_enter p a st))) rn).
    eapply Forall_impl; [exact Hrn|]. intros k Hk q Hu. rewrite Hnew.
    cbv beta in Hk.
    destruct (decide (p = q)) as [<-|Hpq];
      destruct (decide (unanswered k = Some p)) as [Hkp|Hkp].
    + cbn [length]. lia.
    + done.
    + congruence.
    + by apply Hk.
Qed.

Lemma step_attempts l st st' :
  tree_inv st →
  Forall (λ c, call_prefix c ∈ visitedPrefixes st) (calls st) →
  attempts_inv st → step_of l st st' → attempts_inv st'.
Proof.
  intros (_ & _ & _ & _ & Hnd & Hvis) Hcalls Hinv Hstep.
  pose proof Hinv as [Hseq Hjobs].
  apply NoDup_app in Hnd as (Hnd & _ & _).
  assert (∀ k q, k ∈ running st → unanswered k = Some q →
            q ∈ visitedPrefixes st) as Hpending.
  { intros k q Hk Hu. apply Hvis, elem_of_app. left.
    apply list_elem_of_omap. by exists k. }
  step_cases Hstep.
  - by apply (attempts_inv_frame st).
  - pose proof (calls_for_visited p st Hcalls Hp) as Hnone.
    apply (attempts_inv_enter p 1 (running st ++ [AwaitResponse p 1])
             (set_visitedPrefixes (visitedPrefixes st ++ [p])
                (set_intervalCount (intervalCount st + 1)
                   (set_waiting rest st)))).
    + change (Z.of_nat (length (calls_for p st)) + 1 = 1). by rewrite Hnone.
    + apply Forall_app.
      split; [|apply Forall_singleton; by rewrite decide_True].
      rewrite Forall_forall in Hjobs |- *. intros k Hk.
      rewrite decide_False; [by apply Hjobs|].
      intros Hu. apply Hp. by eapply Hpending.
    + by apply (attempts_inv_frame st).
  - settle_frames Hs. apply (attempts_inv_frame st); [done | | done].
    change (Forall (job_counted st)
              (<[i:=AwaitRetry p a (now st1 + ms)]> (running st1))).
    rewrite Frunning. apply Forall_insert; [done|].
    rewrite Forall_lookup in Hjobs. by apply (Hjobs _ _ Hi).
  - settle_frames Hs. resume_frames Hr.
    destruct (processPrefix_resume_cont _ _ _ _ _ _ Hr) as [due ->].
    apply (attempts_inv_frame st); [simpl; congruence | | done].
    change (Forall (job_counted st) (<[i:=AwaitFinish p due]> (running st2))).
    rewrite Rrunning, Frunning. by apply Forall_insert.
  - settle_frames Hs. resume_frames Hr.
    apply (attempts_inv_frame st); [simpl; congruence | | done].
    change (Forall (job_counted st) (delete i (running st2))).
    rewrite Rrunning, Frunning. by apply Forall_delete.
  - rewrite Forall_lookup in Hjobs.
    pose proof (Hjobs _ _ Hi p eq_refl) as Hlen. simpl in Hlen.
    apply attempts_inv_enter; [lia | | done].
    apply Forall_lookup. intros j k' Hj.
    destruct (decide (i = j)) as [<-|Hij].
    + rewrite list_lookup_insert_eq in Hj by (by eapply lookup_lt_Some).
      injection Hj as <-. by rewrite decide_True.
    + rewrite list_lookup_insert_ne in Hj by done.
      rewrite decide_False; [by apply (Hjobs _ _ Hj)|].
      intros Hu. destruct Hij.
      by eapply (pending_unique (running st) i j _ _ p Hnd Hi Hj).
  - apply (attempts_inv_frame st); [done | | done].
    by apply Forall_delete.
  - destruct (monitorBacklog_files
                (set_monitorDue (now st + MONITOR_PERIOD_MS) st))
      as (_ & _ & _ & _ & Hc & Hrn & _).
    apply (attempts_inv_frame st); [done | by rewrite Hrn | done].
  - by apply (attempts_inv_frame st).
  - by apply (attempts_inv_frame st).
  - by apply (attempts_inv_frame st).
Qed.

Lemma reachable_attempts st : reachable st → attempts_inv st.
Proof.
  revert st. apply reachable_invariant.
  - rewrite extractAllNames_begin_spec. split; [done | constructor].
  - intros l st st' Hst Hinv Hl%exec_step_of.
    eapply step_attempts; [| | exact Hinv | exact Hl].
    + by apply reachable_tree_inv.
    + destruct (reachable_counted st Hst) as (_ & _ & Hcalls).
      eapply Forall_impl; [exact Hcalls|]. by intros c [_ ?].
Qed.

(** ** The lines of [queryAPI] in the log *)

Lemma quiet_ok st l : quiet l → line_ok st l.
Proof. by destruct l. Qed.

Lemma quiet_backoffs p qs : Forall quiet qs → omap (backoff_of p) qs = [].
Proof.
  induction qs as [|l qs IH]; [done|]. intros [Hl Hqs]%Forall_cons.
  destruct l; try done; simpl; by apply IH.
Qed.

Lemma maybeSaveProgress_console st :
  ∃ qs, console (maybeSaveProgress st) = qs ++ console st ∧ Forall quiet qs.
Proof.
  unfold maybeSaveProgress. case_match.
  - eexists [_]. split; [done|]. by apply Forall_singleton.
  - by exists [].
Qed.

Lemma processPrefix_resume_console p v r st :
  ∃ qs, console (processPrefix_resume p v r st).1 = qs ++ console st
        ∧ Forall quiet qs.
Proof.
  unfold processPrefix_resume. destruct v; try by exists [].
  cbv zeta. set (st1 := set_discoveredNames _ _).
  destruct (maybeSaveProgress_console st1) as (qs & Hqs & Hq).
  exists qs. split; [|done].
  destruct (_ =? _); cbn [fst]; rewrite ?expand_spec; simpl; by rewrite Hqs.
Qed.

Lemma monitorBacklog_console st :
  ∃ qs, console (monitorBacklog st) = qs ++ console st ∧ Forall quiet qs.
Proof.
  unfold monitorBacklog. cbv zeta. repeat case_match.
  - eexists [_; _]. split; [done|]. by repeat constructor.
  - eexists [_; _]. split; [done|]. by repeat constructor.
  - eexists [_]. split; [done|]. by repeat constructor.
Qed.

Lemma extractAllNames_end_console st :
  ∃ qs, console (extractAllNames_end st) = qs ++ console st ∧ Forall quiet qs.
Proof.
  eexists [_; _; _; _]. split; [done|]. by repeat constructor.
Qed.

Lemma extractAllNames_end_frame st :
  calls (extractAllNames_end st) = calls st
  ∧ answers (extractAllNames_end st) = answers st
  ∧ running (extractAllNames_end st) = running st.
Proof. done. Qed.

(** The lines of one settlement: at most one line of [queryAPI], first,
    which tells how the call goes on. *)
Lemma queryAPI_settle_console p a o r st st' nx :
  queryAPI_settle p a o r st = (st', nx) →
  ∃ hd qs,
    console st' = hd ++ qs ++ console st ∧ Forall quiet qs
    ∧ (hd = []
       ∨ (hd = [LogRetrying p a (BASE_DELAY_MS * 2 ^ a)]
          ∧ a ≤ MAX_ATTEMPTS ∧ ∃ ms, nx = Retry ms)
       ∨ (hd = [LogFailed p a] ∧ MAX_ATTEMPTS < a ∧ nx = Return (JArr []))).
Proof.
  assert (∀ status s s' qs,
            console s = qs ++ console st → Forall quiet qs →
            queryAPI_catch p a status r s = (s', nx) →
            ∃ hd qs,
              console s' = hd ++ qs ++ console st ∧ Forall quiet qs
              ∧ (hd = []
                 ∨ (hd = [LogRetrying p a (BASE_DELAY_MS * 2 ^ a)]
                    ∧ a ≤ MAX_ATTEMPTS ∧ ∃ ms, nx = Retry ms)
                 ∨ (hd = [LogFailed p a] ∧ MAX_ATTEMPTS < a
                    ∧ nx = Return (JArr [])))) as Hcatch.
  { intros status s s' qs Hs Hq. unfold queryAPI_catch.
    destruct (match status with Some s0 => s0 =? 429 | None => false end).
    - intros [= <- <-]. exists [], (LogAdjusted (clamp (scaled_down
                                     (currentConcurrency s))) :: qs).
      split_and!; [ | by constructor | by left].
      unfold adjustConcurrency, log. simpl. by rewrite Hs.
    - destruct (a <=? MAX_ATTEMPTS) eqn:Ha.
      + intros [= <- <-]. eexists [_], qs. split_and!; [ | done | ].
        * unfold log. simpl. by rewrite Hs.
        * right. left. split_and!; [done | lia | by eexists].
      + intros [= <- <-]. eexists [_], qs. split_and!; [ | done | ].
        * unfold log. simpl. by rewrite Hs.
        * right. right. split_and!; [done | lia | done]. }
  unfold queryAPI_settle. destruct o as [data|s|].
  - cbv zeta. destruct (get_results data).
    + intros [= <- <-]. exists [], [LogAdjusted (clamp
                 (currentConcurrency st + CONCURRENCY_ADJUSTMENT_UP))].
      split_and!; [done | by repeat constructor | by left].
    + apply (Hcatch _ _ _ [LogAdjusted (clamp
                 (currentConcurrency st + CONCURRENCY_ADJUSTMENT_UP))]);
        [done | by repeat constructor].
  - by apply (Hcatch _ _ _ []).
  - by apply (Hcatch _ _ _ []).
Qed.

Lemma elem_of_insert_inv {A} (l : list A) (i : nat) (x y : A) :
  y ∈ <[i:=x]> l → y = x ∨ y ∈ l.
Proof.
  revert i. induction l as [|z l IH]; intros [|i]; simpl;
    rewrite ?elem_of_cons; try tauto.
  intros [->|H]; [tauto|]. destruct (IH _ H); tauto.
Qed.

Lemma elem_of_delete_inv {A} (l : list A) (i : nat) (y : A) :
  y ∈ delete i l → y ∈ l.
Proof.
  revert i. induction l as [|z l IH]; intros [|i]; simpl;
    rewrite ?elem_of_cons; try tauto.
  intros [->|H]; [tauto|]. right. by eapply IH.
Qed.

Lemma progress_frame st st' :
  calls st' = calls st → answers st' = answers st →
  (∀ p a, AwaitResponse p a ∈ running st' → AwaitResponse p a ∈ running st) →
  progress st st'.
Proof.
  intros Hc Ha Hr.
  assert (∀ q, calls_for q st' = calls_for q st) as Hsame
    by (intros q; by apply calls_for_frame).
  split_and!.
  - intros q. by rewrite Hsame.
  - intros q _. apply Hsame.
  - by rewrite Ha.
  - intros q a Hq. left. by apply Hr.
Qed.

(** Each step keeps the requests for the answered prefixes and the
    answers, and a new request has the next attempt of its prefix. *)
Lemma step_progress l st st' :
  tree_inv st →
  Forall (λ c, call_prefix c ∈ visitedPrefixes st) (calls st) →
  attempts_inv st → step_of l st st' → progress st st'.
Proof.
  intros (_ & _ & _ & _ & Hnd & Hvis) Hcalls [Hseq Hjobs] Hstep.
  step_cases Hstep.
  - by apply progress_frame.
  - pose proof (calls_for_visited p st Hcalls Hp) as Hnone.
    assert (∀ q, calls_for q
                   (set_running (running st ++ [AwaitResponse p 1])
                      (queryAPI_enter p 1
                         (set_visitedPrefixes (visitedPrefixes st ++ [p])
                            (set_intervalCount (intervalCount st + 1)
                               (set_waiting rest st)))))
                 = if decide (p = q)
                   then mkCall (now st) p 1 :: calls_for q st
                   else calls_for q st) as Hnew
      by (intros q;
          exact (calls_for_enter q p 1
                   (set_visitedPrefixes (visitedPrefixes st ++ [p])
                      (set_intervalCount (intervalCount st + 1)
                         (set_waiting rest st))))).
    split_and!.
    + intros q. rewrite Hnew. destruct (decide (p = q)); cbn [length]; lia.
    + intros q Hin. rewrite Hnew. rewrite decide_False; [done|].
      intros <-. apply Hp, Hvis, elem_of_app. by right.
    + done.
    + intros q a [Hin|Hin]%elem_of_app; [by left|].
      apply list_elem_of_singleton in Hin as [= -> ->]. right.
      rewrite Hnone. simpl. lia.
  - settle_frames Hs. apply progress_frame; [done | done |].
    intros q b Hq. simpl in Hq. rewrite Frunning in Hq.
    by apply elem_of_insert_inv in Hq as [?|?].
  - settle_frames Hs. resume_frames Hr.
    destruct (processPrefix_resume_cont _ _ _ _ _ _ Hr) as [due ->].
    assert (∀ q, calls_for q (set_running (<[i:=AwaitFinish p due]>
                                             (running st2)) st2)
                 = calls_for q st) as Hsame.
    { intros q. apply calls_for_frame. simpl. congruence. }
    split_and!.
    + intros q. by rewrite Hsame.
    + intros q _. apply Hsame.
    + simpl. rewrite Ranswers, Fanswers. intros x Hx. apply elem_of_cons.
      by right.
    + intros q b Hq. simpl in Hq. rewrite Rrunning, Frunning in Hq.
      left. by apply elem_of_insert_inv in Hq as [?|?].
  - settle_frames Hs. resume_frames Hr.
    assert (∀ q, calls_for q (set_running (delete i (running st2)) st2)
                 = calls_for q st) as Hsame.
    { intros q. apply calls_for_frame. simpl. congruence. }
    split_and!.
    + intros q. by rewrite Hsame.
    + intros q _. apply Hsame.
    + simpl. rewrite Ranswers, Fanswers. intros x Hx. apply elem_of_cons.
      by right.
    + intros q b Hq. simpl in Hq. rewrite Rrunning, Frunning in Hq.
      left. by eapply elem_of_delete_inv.
  - rewrite Forall_lookup in Hjobs.
    pose proof (Hjobs _ _ Hi p eq_refl) as Hlen. simpl in Hlen.
    assert (∀ q, calls_for q
                   (set_running (<[i:=AwaitResponse p (a + 1)]> (running st))
                      (queryAPI_enter p (a + 1) st))
                 = if decide (p = q)
                   then mkCall (now st) p (a + 1) :: calls_for q st
                   else calls_for q st) as Hnew
      by (intros q; apply calls_for_enter).
    split_and!.
    + intros q. rewrite Hnew. destruct (decide (p = q)); cbn [length]; lia.
    + intros q Hin. rewrite Hnew. rewrite decide_False; [done|].
      intros <-. apply NoDup_app in Hnd as (_ & Hnd & _).
      apply (Hnd p); [|done].
      apply list_elem_of_omap. exists (AwaitRetry p a due).
      split; [by eapply list_elem_of_lookup_2 | done].
    + done.
    + intros q b Hq. simpl in Hq.
      apply elem_of_insert_inv in Hq as [[= -> ->]|Hq]; [|by left].
      right. lia.
  - apply progress_frame; [done | done |].
    intros q b Hq. simpl in Hq. by eapply elem_of_delete_inv.
  - destruct (monitorBacklog_files
                (set_monitorDue (now st + MONITOR_PERIOD_MS) st))
      as (_ & _ & _ & _ & Hc & Hrn & _ & _ & _ & Ha).
    apply progress_frame; [done | done |]. intros q b. by rewrite Hrn.
  - by apply progress_frame.
  - by apply progress_frame.
  - by apply progress_frame.
Qed.

Lemma line_ok_progress st st' l :
  progress st st' → line_ok st l → line_ok st' l.
Proof.
  intros (Hlen & Hsame & Hans & Hrn).
  destruct l as [| | |p a d|p a| |]; try done.
  - intros ([Ha1 Ha2] & Hd & Hreq & Hway). split_and!; [done | done | done | |].
    + pose proof (Hlen p). lia.
    + intros a' [Hin|Hnew]%Hrn; [by apply Hway | lia].
  - intros (Ha & Hreq & Hin). split_and!; [done | | by apply Hans].
    rewrite Hsame; [done|]. by apply (list_elem_of_fmap_2 fst _ (p, JArr [])).
Qed.

Lemma log_inv_quiet st st' qs :
  console st' = qs ++ console st → Forall quiet qs →
  progress st st' → log_inv st → log_inv st'.
Proof.
  intros Hc Hq Hp [Hlines Hnd]. split.
  - rewrite Hc. apply Forall_app. split.
    + eapply Forall_impl; [exact Hq|]. intros l. apply quiet_ok.
    + eapply Forall_impl; [exact Hlines|]. intros l. by apply line_ok_progress.
  - intros p. unfold backoffs. rewrite Hc, omap_app, quiet_backoffs by done.
    apply Hnd.
Qed.

Lemma backoffs_below st p a :
  Forall (line_ok st) (console st) → a ∈ backoffs p st →
  a ≤ Z.of_nat (length (calls_for p st))
  ∧ ∀ a', AwaitResponse p a' ∈ running st → a < a'.
Proof.
  intros Hlines (l & Hl & Ha)%list_elem_of_omap.
  rewrite Forall_forall in Hlines. specialize (Hlines _ Hl).
  destruct l; try done. simpl in Ha. case_decide; [|done].
  injection Ha as ->. subst. by destruct Hlines as (_ & _ & ? & ?).
Qed.

Lemma step_log_inv l st st' :
  once_inv st → tree_inv st →
  Forall (λ c, call_prefix c ∈ visitedPrefixes st) (calls st) →
  attempts_inv st → log_inv st → step_of l st st' → log_inv st'.
Proof.
  intros (_ & _ & Hattempts) Htree Hcalls Hatt Hinv Hstep.
  pose proof (step_progress _ _ _ Htree Hcalls Hatt Hstep) as Hprog.
  pose proof Hatt as [_ Hjobs].
  pose proof Htree as (_ & _ & _ & _ & Hnd & _).
  apply NoDup_app in Hnd as (Hnd & _ & _).
  step_cases Hstep.
  - by apply (log_inv_quiet st _ []).
  - by apply (log_inv_quiet st _ []).
  - destruct (queryAPI_settle_console _ _ _ _ _ _ _ Hs)
      as (hd & qs & Hc & Hq & [->|[(-> & Ha & _)|(_ & _ & [=])]]).
    + by apply (log_inv_quiet st _ qs).
    + destruct Hinv as [Hlines Hdistinct].
      assert (Z.of_nat (length (calls_for p st)) = a) as Hlen.
      { rewrite Forall_lookup in Hjobs. by apply (Hjobs _ _ Hi p). }
      assert (1 ≤ a) as Hone.
      { rewrite Forall_lookup in Hattempts. by apply (Hattempts _ _ Hi). }
      settle_frames Hs. split.
      * change (Forall (line_ok (set_running (<[i:=AwaitRetry p a
                          (now st1 + ms)]> (running st1)) st1)) (console st1)).
        rewrite Hc. apply Forall_app. split; [|apply Forall_app; split].
        -- apply Forall_singleton. split_and!; [done | done | done | |].
           ++ destruct Hprog as (Hmono & _). pose proof (Hmono p). lia.
           ++ intros a' Hin. simpl in Hin. rewrite Frunning in Hin.
              apply list_elem_of_lookup in Hin as [j Hj].
              destruct (decide (i = j)) as [<-|Hij].
              ** rewrite list_lookup_insert_eq in Hj
                   by (by eapply lookup_lt_Some).
                 done.
              ** rewrite list_lookup_insert_ne in Hj by done. destruct Hij.
                 by eapply (pending_unique (running st) i j _ _ p Hnd Hi Hj).
        -- eapply Forall_impl; [exact Hq|]. intros l. apply quiet_ok.
        -- eapply Forall_impl; [exact Hlines|]. intros l.
           by apply line_ok_progress.
      * intros q. unfold backoffs.
        change (NoDup (omap (backoff_of q) (console st1))).
        rewrite Hc, !omap_app, (quiet_backoffs q qs) by done. simpl.
        destruct (decide (p = q)) as [<-|Hpq]; [|apply Hdistinct].
        simpl. apply NoDup_cons. split; [|apply Hdistinct].
        intros Hin. destruct (backoffs_below st p a Hlines Hin) as [_ Hway].
        specialize (Hway a (list_elem_of_lookup_2 _ _ _ Hi)). lia.
  - destruct (queryAPI_settle_console _ _ _ _ _ _ _ Hs)
      as (hd & qs & Hc & Hq & [->|[(_ & _ & [ms [=]])|(-> & Ha & [= ->])]]).
    + destruct (processPrefix_resume_console p v r st1) as (qs' & Hc' & Hq').
      rewrite Hr in Hc'. cbn [fst] in Hc'.
      apply (log_inv_quiet st _ (qs' ++ qs)); [ | by apply Forall_app_2 | done
                                                | done].
      simpl. rewrite Hc', Hc. simpl. by rewrite (assoc_L (++)).
    + destruct (processPrefix_resume_console p (JArr []) r st1)
        as (qs' & Hc' & Hq').
      rewrite Hr in Hc'. cbn [fst] in Hc'.
      destruct Hinv as [Hlines Hdistinct].
      assert (Z.of_nat (length (calls_for p st)) = a) as Hlen.
      { rewrite Forall_lookup in Hjobs. by apply (Hjobs _ _ Hi p). }
      settle_frames Hs. resume_frames Hr. split.
      * change (Forall (line_ok (set_running (<[i:=k]> (running st2)) st2))
                  (console st2)).
        rewrite Hc', Hc. apply Forall_app. split; [|apply Forall_app; split;
                                                    [|apply Forall_app; split]].
        -- eapply Forall_impl; [exact Hq'|]. intros l. apply quiet_ok.
        -- apply Forall_singleton. split_and!; [done | |].
           ++ rewrite (calls_for_frame p st); [done|]. simpl. congruence.
           ++ simpl. rewrite Ranswers. by left.
        -- eapply Forall_impl; [exact Hq|]. intros l. apply quiet_ok.
        -- eapply Forall_impl; [exact Hlines|]. intros l.
           by apply line_ok_progress.
      * intros q. unfold backoffs.
        change (NoDup (omap (backoff_of q) (console st2))).
        rewrite Hc', Hc, !omap_app, (quiet_backoffs q qs),
          (quiet_backoffs q qs') by done.
        apply Hdistinct.
  - destruct (queryAPI_settle_console _ _ _ _ _ _ _ Hs)
      as (hd & qs & Hc & Hq & [->|[(_ & _ & [ms [=]])|(-> & Ha & [= ->])]]).
    + destruct (processPrefix_resume_console p v r st1) as (qs' & Hc' & Hq').
      rewrite Hr in Hc'. cbn [fst] in Hc'.
      apply (log_inv_quiet st _ (qs' ++ qs)); [ | by apply Forall_app_2 | done
                                                | done].
      simpl. rewrite Hc', Hc. simpl. by rewrite (assoc_L (++)).
    + destruct (processPrefix_resume_array p [] r st1) as (s' & due & Heq).
      by rewrite Heq in Hr.
  - by apply (log_inv_quiet st _ []).
  - by apply (log_inv_quiet st _ []).
  - destruct (monitorBacklog_console
                (set_monitorDue (now st + MONITOR_PERIOD_MS) st))
      as (qs & Hc & Hq).
    by apply (log_inv_quiet st _ qs).
  - by apply (log_inv_quiet st _ []).
  - destruct (extractAllNames_end_console st) as (qs & Hc & Hq).
    by apply (log_inv_quiet st _ qs).
  - by apply (log_inv_quiet st _ []).
Qed.

Lemma reachable_log_inv st : reachable st → log_inv st.
Proof.
  revert st. apply reachable_invariant.
  - rewrite extractAllNames_begin_spec. split; [constructor|].
    intros p. constructor.
  - intros l st st' Hst Hinv Hl%exec_step_of.
    eapply step_log_inv; [ | | | | exact Hinv | exact Hl].
    + by apply reachable_once_inv.
    + by apply reachable_tree_inv.
    + destruct (reachable_counted st Hst) as (_ & _ & Hcalls).
      eapply Forall_impl; [exact Hcalls|]. by intros c [_ ?].
    + by apply reachable_attempts.
Qed.

(** * Further properties of the script *)

(** ** [delay] and the last delay of a job *)

(** X1. [delay] (lines 50-53).  With a sample [r] of [Math.random()], a
    double in [0, 1), the timer of [delay(ms)] lasts between [ms] and
    [ms + 199] milliseconds, a whole number of them.  The jitter is the
    floor of [200 r], or one more: the product of line 51 is rounded to a
    double before the floor is taken, and it can round up to a whole
    number.  The timer lasts exactly [ms] when [r < 1/200] and only then,
    it does not get shorter when the sample grows, and each of the 200
    lengths is the one of some sample. *)
Theorem delay_within_jitter (ms : Z) (r : Q) :
  is_sample r →
  ms ≤ delay ms r ≤ ms + (JITTER_MS - 1)
  ∧ ms + Qfloor (r * 200) ≤ delay ms r ≤ ms + Qfloor (r * 200) + 1
  ∧ (delay ms r = ms ↔ (r < 1 # 200)%Q)
  ∧ (∀ r', (r <= r')%Q → delay ms r ≤ delay ms r')
  ∧ (∀ j, 0 ≤ j < JITTER_MS → ∃ r', is_sample r' ∧ delay ms r' = ms + j).
Proof.
  intros Hr. pose proof (delay_bounds ms r Hr) as Hb.
  pose proof (jitter_zero r Hr) as Hzero. pose proof Hr as (_ & H0 & H1).
  pose proof (jitter_floor r H0 H1) as Hfl.
  change (inject_Z JITTER_MS) with 200%Q in Hfl. unfold delay in *.
  split_and!; try lia.
  - rewrite <- Hzero. lia.
  - intros r' Hle. pose proof (jitter_mono r r' H0 Hle). lia.
  - intros j Hj. destruct (jitter_reached j Hj) as (r' & Hr' & <-).
    by exists r'.
Qed.

(** At the double 0.11499999999999999 the product of line 51 is the
    double 23, while [200 r] is below 23. *)
Lemma delay_within_jitter_witness :
  let r := (517913957147607 # 4503599627370496)%Q in
  is_sample r
  ∧ 500 ≤ delay 500 r ≤ 500 + (JITTER_MS - 1)
  ∧ delay 500 r = 523
  ∧ Qfloor (r * 200) = 22.
Proof.
  intros r.
  assert (is_sample r) as Hr by (apply (dyadic_sample _ 52); by vm_compute).
  split; [exact Hr|]. split; [exact (proj1 (delay_within_jitter 500 r Hr))|].
  split; vm_compute; reflexivity.
Defined.

(** X2. [processPrefix], line 171.  When [queryAPI] has returned an array,
    the job does not settle at once: it stays among the running jobs of the
    queue for 500 to 699 ms more, and the event loop cannot end it before. *)
Theorem job_holds_its_slot (i : nat) (p : string) (a : Z) (o : http_outcome)
    (r : Q) (items : list json) (st : state) :
  is_sample r →
  running st !! i = Some (AwaitResponse p a) →
  (queryAPI_settle p a o r st).2 = Return (JArr items) →
  ∃ st' due,
    exec (LResponse i o r) st = Some st'
    ∧ running st' = <[i := AwaitFinish p due]> (running st)
    ∧ now st' = now st
    ∧ now st + BASE_DELAY_MS ≤ due < now st + BASE_DELAY_MS + JITTER_MS
    ∧ (∀ dt, 0 ≤ dt →
         is_Some (exec (LFinish i) (set_now (now st' + dt) st'))
         ↔ due ≤ now st' + dt).
Proof.
  intros Hr Hi Hs.
  destruct (queryAPI_settle p a o r st) as [st1 v] eqn:Hsettle.
  simpl in Hs. subst v. settle_frames Hsettle.
  destruct (processPrefix_resume_array p items r st1) as (st2 & due & Hres).
  pose proof (processPrefix_resume_due _ _ _ _ _ _ Hres) as [= ->].
  resume_frames Hres.
  assert (exec (LResponse i o r) st
          = Some (set_running
                    (<[i := AwaitFinish p (now st1 + delay BASE_DELAY_MS r)]>
                       (running st2)) st2)) as Hexec.
  { apply exec_step_of. by eapply step_return. }
  eexists _, _. split; [exact Hexec|].
  pose proof (delay_bounds BASE_DELAY_MS r Hr) as Hd.
  split_and!.
  - simpl. by rewrite Rrunning, Frunning.
  - simpl. by rewrite Rnow, Fnow.
  - lia.
  - lia.
  - intros dt Hdt. simpl.
    assert (i < length (running st2))%nat as Hlen.
    { rewrite Rrunning, Frunning. by eapply lookup_lt_Some. }
    rewrite (list_lookup_insert_eq _ _ _ Hlen).
    destruct (now st1 + delay BASE_DELAY_MS r <=? now st2 + dt) eqn:Hdue.
    + apply Z.leb_le in Hdue. split; [intros _; lia | by eexists].
    + apply Z.leb_gt in Hdue. split; [by intros [? ?] | lia].
Qed.

Lemma job_holds_its_slot_witness :
  ∃ st st' due,
    run [LStart] (extractAllNames_begin initial) = Some st
    ∧ exec (LResponse 0 (Fulfilled (JObj [("results", JArr [])])) 0) st
      = Some st'
    ∧ running st' = [AwaitFinish "0" due]
    ∧ 500 ≤ due < 700.
Proof.
  set (st := default initial (run [LStart] (extractAllNames_begin initial))).
  assert (run [LStart] (extractAllNames_begin initial) = Some st) as Hrun
    by (vm_compute; reflexivity).
  assert (is_sample 0) as Hr by sample.
  destruct (job_holds_its_slot 0 "0" 1
              (Fulfilled (JObj [("results", JArr [])])) 0 [] st Hr
              eq_refl eq_refl)
    as (st' & due & Hexec & Hrn & _ & Hdue & _).
  exists st, st', due. split; [exact Hrun|]. split; [exact Hexec|].
  split; [exact Hrn | exact Hdue].
Defined.

(** ** The counter of requests and the visited set *)

(** X3. [totalRequests] (lines 33, 115).  In every state of a run the
    counter is the number of requests sent so far, retries included: one
    for each visited prefix, plus one for each call of [queryAPI] with an
    attempt number above 1. *)
Theorem requests_are_counted (st : state) :
  reachable st →
  totalRequests st = Z.of_nat (length (calls st))
  ∧ totalRequests st
    = Z.of_nat (length (visitedPrefixes st))
      + Z.of_nat (length (filter (λ c, 1 < call_attempt c) (calls st))).
Proof.
  intros (Htot & Hord & Hcalls)%reachable_counted. split; [done|].
  rewrite Htot, Hord, length_reverse. unfold queried. rewrite length_fmap.
  rewrite (filter_split_length (λ c, call_attempt c = 1)
             (λ c, 1 < call_attempt c) (calls st)); [lia|].
  eapply Forall_impl; [exact Hcalls|]. intros c [Hc _]. simpl. lia.
Qed.

Lemma requests_are_counted_witness :
  ∃ st,
    run one_retry (extractAllNames_begin initial) = Some st
    ∧ totalRequests st = 3
    ∧ length (visitedPrefixes st) = 2%nat
    ∧ totalRequests st
      = Z.of_nat (length (visitedPrefixes st))
        + Z.of_nat (length (filter (λ c, 1 < call_attempt c) (calls st))).
Proof.
  set (st := default initial (run one_retry (extractAllNames_begin initial))).
  assert (run one_retry (extractAllNames_begin initial) = Some st) as Hrun
    by (vm_compute; reflexivity).
  assert (reachable st) as Hst
    by (eapply reachable_run; [apply reachable_begin | exact Hrun]).
  exists st. split; [exact Hrun|]. split; [vm_compute; reflexivity|].
  split; [vm_compute; reflexivity|].
  exact (proj2 (requests_are_counted st Hst)).
Defined.

(** X4. [processPrefix], lines 149-152.  The visited prefixes are, in the
    order of their insertion, the prefixes of the first requests in the
    order in which they were sent: a prefix is visited exactly when
    [queryAPI(prefix)] has been called for it, and it has been called once.
    A retry is a request for a visited prefix. *)
Theorem visited_in_query_order (st : state) (p : string) :
  reachable st →
  visitedPrefixes st = reverse (queried st)
  ∧ length (filter (λ c, call_prefix c = p ∧ call_attempt c = 1) (calls st))
    = (if decide (p ∈ visitedPrefixes st) then 1 else 0)%nat
  ∧ (∀ c, c ∈ calls st → call_prefix c ∈ visitedPrefixes st).
Proof.
  intros Hst. destruct (reachable_counted st Hst) as (_ & Hord & Hcalls).
  destruct (reachable_once_inv st Hst) as (Hnd & _).
  split_and!; [done | |].
  - pose proof (NoDup_fmap_filter_length call_prefix
                  (filter (λ c, call_attempt c = 1) (calls st)) p Hnd) as Hle.
    rewrite list_filter_filter in Hle.
    destruct (decide (p ∈ visitedPrefixes st)) as [Hp|Hp].
    + rewrite Hord, elem_of_reverse in Hp.
      apply list_elem_of_fmap in Hp as (c & -> & [Ha Hc]%list_elem_of_filter).
      assert (c ∈ filter (λ c', call_prefix c' = call_prefix c
                                ∧ call_attempt c' = 1) (calls st)) as Hin
        by (by apply list_elem_of_filter).
      destruct (filter _ (calls st)); [by apply elem_of_nil in Hin|].
      simpl in *. lia.
    + destruct (filter _ (calls st)) as [|c l] eqn:Hf; [done|].
      assert (c ∈ filter (λ c', call_prefix c' = p ∧ call_attempt c' = 1)
                    (calls st)) as Hin by (rewrite Hf; left).
      apply list_elem_of_filter in Hin as [[<- Ha] Hc]. destruct Hp.
      rewrite Forall_forall in Hcalls. by apply Hcalls.
  - intros c Hc. rewrite Forall_forall in Hcalls. by apply Hcalls.
Qed.

Lemma visited_in_query_order_witness :
  ∃ st,
    run one_retry (extractAllNames_begin initial) = Some st
    ∧ visitedPrefixes st = ["0"; "1"]
    ∧ length (filter (λ c, call_prefix c = "0" ∧ call_attempt c = 1) (calls st))
      = 1%nat.
Proof.
  set (st := default initial (run one_retry (extractAllNames_begin initial))).
  assert (run one_retry (extractAllNames_begin initial) = Some st) as Hrun
    by (vm_compute; reflexivity).
  assert (reachable st) as Hst
    by (eapply reachable_run; [apply reachable_begin | exact Hrun]).
  exists st. split; [exact Hrun|]. split; [vm_compute; reflexivity|].
  destruct (visited_in_query_order st "0" Hst) as (_ & Hone & _).
  rewrite Hone. apply decide_True.
  apply (bool_decide_unpack _). vm_compute. reflexivity.
Defined.

(** ** The queue and the frontier *)

(** X5. [queue.add] and [processPrefix] (lines 149-150, 161-167, 185-187).
    No job is lost and none is doubled: the prefixes handed to the queue
    so far are those still waiting in it together with the visited ones,
    each of them once. *)
Theorem no_job_is_lost (st : state) :
  reachable st →
  added st ≡ₚ waiting st ++ visitedPrefixes st
  ∧ NoDup (waiting st ++ visitedPrefixes st).
Proof.
  intros Hst. pose proof (reachable_conservation st Hst) as Hperm.
  split; [done|]. rewrite <- Hperm. by apply reachable_added_NoDup.
Qed.

Lemma no_job_is_lost_witness :
  ∃ st,
    run one_full_page (extractAllNames_begin initial) = Some st
    ∧ length (added st) = 80%nat
    ∧ length (waiting st) = 79%nat
    ∧ visitedPrefixes st = ["0"]
    ∧ added st ≡ₚ waiting st ++ visitedPrefixes st.
Proof.
  set (st := default initial (run one_full_page (extractAllNames_begin initial))).
  assert (run one_full_page (extractAllNames_begin initial) = Some st) as Hrun
    by (vm_compute; reflexivity).
  assert (reachable st) as Hst
    by (eapply reachable_run; [apply reachable_begin | exact Hrun]).
  exists st. split; [exact Hrun|]. split; [vm_compute; reflexivity|].
  split; [vm_compute; reflexivity|]. split; [vm_compute; reflexivity|].
  exact (proj1 (no_job_is_lost st Hst)).
Defined.

(** X6. [processPrefix], line 149.  In a run the check of line 149 never
    finds the prefix visited: every job that the queue starts marks its
    prefix visited and sends the first request for it. *)
Theorem every_start_sends_a_request (st st' : state) :
  reachable st →
  exec LStart st = Some st' →
  ∃ p rest,
    waiting st = p :: rest
    ∧ (p ∉ visitedPrefixes st)
    ∧ waiting st' = rest
    ∧ visitedPrefixes st' = visitedPrefixes st ++ [p]
    ∧ running st' = running st ++ [AwaitResponse p 1]
    ∧ totalRequests st' = totalRequests st + 1
    ∧ head (calls st') = Some (mkCall (now st) p 1).
Proof.
  intros Hst Hexec%exec_step_of.
  pose proof (reachable_conservation st Hst) as Hperm.
  destruct (reachable_added_NoDup st Hst) as [_ Hnd].
  inversion Hexec as [p rest s Hw Hq Hp | p rest s Hw Hq Hp | | | | | | | | |];
    subst.
  - exfalso. rewrite Hperm, Hw in Hnd.
    apply NoDup_app in Hnd as (_ & Hdisj & _). apply (Hdisj p); [left | done].
  - by exists p, rest.
Qed.

Lemma every_start_sends_a_request_witness :
  ∃ st',
    exec LStart (extractAllNames_begin initial) = Some st'
    ∧ visitedPrefixes st' = ["0"]
    ∧ totalRequests st' = 1.
Proof.
  set (st' := default initial (exec LStart (extractAllNames_begin initial))).
  assert (exec LStart (extractAllNames_begin initial) = Some st') as Hexec
    by (vm_compute; reflexivity).
  destruct (every_start_sends_a_request _ _ reachable_begin Hexec)
    as (p & rest & Hw & _ & _ & Hv & _ & Ht & _).
  exists st'. split; [exact Hexec|]. split; [|exact Ht].
  rewrite Hv. by injection Hw as <- _.
Defined.

(** X7. [processPrefix], lines 159-167.  In a run the check of line 163
    never finds a child visited: when the query for a prefix returns 15
    items, all 40 children join the queue, in the order of the alphabet. *)
Theorem full_page_enqueues_all (i : nat) (p : string) (a : Z)
    (o : http_outcome) (r : Q) (items : list json) (st : state) :
  reachable st →
  running st !! i = Some (AwaitResponse p a) →
  (queryAPI_settle p a o r st).2 = Return (JArr items) →
  Z.of_nat (length items) = MAX_RESULTS_PER_QUERY →
  ∃ st',
    exec (LResponse i o r) st = Some st'
    ∧ waiting st' = waiting st ++ ((λ char, p +:+ char) <$> VALID_CHARACTERS)
    ∧ (∀ char, char ∈ VALID_CHARACTERS →
         (p +:+ char ∉ visitedPrefixes st) ∧ (p +:+ char ∉ added st)).
Proof.
  intros Hst Hi Hs Hlen.
  pose proof (reachable_conservation st Hst) as Hperm.
  pose proof (reachable_tree_inv st Hst) as Htree.
  assert (∀ char, char ∈ VALID_CHARACTERS →
            (p +:+ char ∉ visitedPrefixes st) ∧ (p +:+ char ∉ added st)) as Hfresh.
  { intros char Hchar.
    assert (p +:+ char ∉ added st) as Hadd by (by eapply children_fresh).
    split; [|done]. intros Hv. apply Hadd. rewrite Hperm.
    apply elem_of_app. by right. }
  destruct (queryAPI_settle p a o r st) as [st1 v] eqn:Hsettle.
  simpl in Hs. subst v. settle_frames Hsettle.
  destruct (processPrefix_resume_array p items r st1) as (st2 & due & Hres).
  destruct (processPrefix_resume_queue p items r st1) as (Hwait & _).
  rewrite Hres in Hwait. simpl in Hwait.
  apply Z.eqb_eq in Hlen. rewrite Hlen, Fwaiting, Fvisited in Hwait.
  exists (set_running (<[i := AwaitFinish p due]> (running st2)) st2).
  split; [|split; [|exact Hfresh]].
  - apply exec_step_of. by eapply step_return.
  - change (waiting st2
            = waiting st ++ ((λ char, p +:+ char) <$> VALID_CHARACTERS)).
    rewrite Hwait. unfold children. rewrite filter_all; [done|].
    apply Forall_forall. intros char Hchar. by apply Hfresh.
Qed.

Lemma full_page_enqueues_all_witness :
  ∃ st st',
    run [LStart] (extractAllNames_begin initial) = Some st
    ∧ exec (LResponse 0 (Fulfilled full_page) 0) st = Some st'
    ∧ waiting st' = waiting st ++ ((λ char, "0" +:+ char) <$> VALID_CHARACTERS).
Proof.
  set (st := default initial (run [LStart] (extractAllNames_begin initial))).
  assert (run [LStart] (extractAllNames_begin initial) = Some st) as Hrun
    by (vm_compute; reflexivity).
  assert (reachable st) as Hst
    by (eapply reachable_run; [apply reachable_begin | exact Hrun]).
  destruct (full_page_enqueues_all 0 "0" 1 (Fulfilled full_page) 0
              ((λ c, JStr ("0" +:+ c)) <$> take 15 VALID_CHARACTERS) st
              Hst eq_refl eq_refl eq_refl) as (st' & Hexec & Hw & _).
  exists st, st'. split; [exact Hrun|]. split; [exact Hexec | exact Hw].
Defined.

(** ** The exploration *)

(** X8. [processPrefix] and [extractAllNames] (lines 159-167, 185-187).  A
    prefix is queried only if it is one of the 40 initial prefixes, or the
    child of a prefix whose own query returned 15 items; each visited
    prefix is a sequence of characters of the alphabet. *)
Theorem visited_have_full_parents (st : state) (q : string) :
  reachable st →
  q ∈ visitedPrefixes st →
  is_node q
  ∧ (q ∈ VALID_CHARACTERS
     ∨ ∃ p c items,
         q = p +:+ c ∧ c ∈ VALID_CHARACTERS
         ∧ (p, JArr items) ∈ answers st
         ∧ Z.of_nat (length items) = MAX_RESULTS_PER_QUERY).
Proof.
  intros Hst Hq. split; [by eapply reachable_visited_nodes|].
  destruct (reachable_tree_inv st Hst) as (_ & _ & _ & Horigin & _).
  apply Horigin. rewrite (reachable_conservation st Hst).
  apply elem_of_app. by right.
Qed.

Lemma visited_have_full_parents_witness :
  ∃ st,
    run eighty_jobs (extractAllNames_begin initial) = Some st
    ∧ "00" ∈ visitedPrefixes st
    ∧ is_node "00".
Proof.
  set (st := default initial (run eighty_jobs (extractAllNames_begin initial))).
  assert (run eighty_jobs (extractAllNames_begin initial) = Some st) as Hrun
    by (vm_compute; reflexivity).
  assert (reachable st) as Hst
    by (eapply reachable_run; [apply reachable_begin | exact Hrun]).
  assert ("00" ∈ visitedPrefixes st) as Hq
    by (apply (bool_decide_unpack _); vm_compute; reflexivity).
  exists st. split; [exact Hrun|]. split; [exact Hq|].
  exact (proj1 (visited_have_full_parents st "00" Hst Hq)).
Defined.

(** X9. [extractAllNames] (lines 185-193).  The exploration is complete:
    once [queue.onIdle()] has resolved, [queryAPI] has returned for each of
    the 40 initial prefixes and for every child of every prefix whose query
    returned 15 items; it has returned once for each visited prefix, and
    nothing is left in the queue. *)
Theorem exploration_is_complete (st : state) :
  reachable st →
  finished st = true →
  (∀ c, c ∈ VALID_CHARACTERS → c ∈ (answers st).*1)
  ∧ (∀ p items c,
       (p, JArr items) ∈ answers st →
       Z.of_nat (length items) = MAX_RESULTS_PER_QUERY →
       c ∈ VALID_CHARACTERS → p +:+ c ∈ (answers st).*1)
  ∧ NoDup (answers st).*1
  ∧ (answers st).*1 ≡ₚ visitedPrefixes st
  ∧ waiting st = [] ∧ running st = [].
Proof.
  intros Hst Hfin.
  destruct (reachable_finished st Hst Hfin) as (Hw & Hr & _).
  pose proof (reachable_conservation st Hst) as Hadded.
  pose proof (reachable_accounted st Hst) as Hvisited.
  destruct (reachable_offspring st Hst) as [Hroots Hchildren].
  destruct (reachable_tree_inv st Hst) as (_ & _ & _ & _ & Hnd & _).
  rewrite Hw in Hadded. rewrite Hr in Hvisited, Hnd. simpl in *.
  split_and!; try done.
  - intros c Hc. rewrite <- Hvisited, <- Hadded. by apply Hroots.
  - intros p items c Hp Hlen Hc. rewrite <- Hvisited, <- Hadded.
    by eapply Hchildren.
Qed.

Lemma exploration_is_complete_witness :
  ∃ st,
    run short_run (extractAllNames_begin initial) = Some st
    ∧ finished st = true
    ∧ (answers st).*1 ≡ₚ visitedPrefixes st
    ∧ length (answers st) = 40%nat.
Proof.
  set (st := default initial (run short_run (extractAllNames_begin initial))).
  assert (run short_run (extractAllNames_begin initial) = Some st) as Hrun
    by (vm_compute; reflexivity).
  assert (reachable st) as Hst
    by (eapply reachable_run; [apply reachable_begin | exact Hrun]).
  assert (finished st = true) as Hfin by (vm_compute; reflexivity).
  destruct (exploration_is_complete st Hst Hfin) as (_ & _ & _ & Hperm & _).
  exists st. split; [exact Hrun|]. split; [exact Hfin|].
  split; [exact Hperm | vm_compute; reflexivity].
Defined.

(** ** The names *)

(** X10. [processPrefix], line 153.  [discoveredNames] holds what the
    queries returned and nothing else: each of its elements is an item of
    an array that [queryAPI] returned for some prefix, and each string
    among the items of such an array is in it. *)
Theorem names_are_the_results (st : state) :
  reachable st →
  (∀ n, n ∈ discoveredNames st →
     ∃ p items, (p, JArr items) ∈ answers st ∧ n ∈ items)
  ∧ (∀ p items s, (p, JArr items) ∈ answers st → JStr s ∈ items →
       JStr s ∈ discoveredNames st).
Proof. intros (Hsound & Hcomplete & _)%reachable_names. by split. Qed.

Lemma names_are_the_results_witness :
  ∃ st,
    run one_full_page (extractAllNames_begin initial) = Some st
    ∧ length (discoveredNames st) = 15%nat
    ∧ JStr "0a" ∈ discoveredNames st.
Proof.
  set (st := default initial (run one_full_page (extractAllNames_begin initial))).
  assert (run one_full_page (extractAllNames_begin initial) = Some st) as Hrun
    by (vm_compute; reflexivity).
  assert (reachable st) as Hst
    by (eapply reachable_run; [apply reachable_begin | exact Hrun]).
  exists st. split; [exact Hrun|]. split; [vm_compute; reflexivity|].
  apply (proj2 (names_are_the_results st Hst) "0"
           ((λ c, JStr ("0" +:+ c)) <$> take 15 VALID_CHARACTERS)).
  - vm_compute. left.
  - apply (list_elem_of_fmap_2 (λ c, JStr ("0" +:+ c)) _ "a").
    apply (bool_decide_unpack _). vm_compute. reflexivity.
Defined.

(** X11. [discoveredNames], a [Set] (lines 35, 153).  No two elements of
    [discoveredNames] are equal as [Set] takes equality: a name returned by
    several queries is counted once in [totalNames]. *)
Theorem names_are_distinct (st : state) (i j : nat) (x y : json) :
  reachable st →
  discoveredNames st !! i = Some x →
  discoveredNames st !! j = Some y →
  same_value_zero x y = true →
  i = j.
Proof. intros (_ & _ & Hdistinct)%reachable_names. apply Hdistinct. Qed.

Lemma names_are_distinct_witness :
  ∃ st,
    run one_full_page (extractAllNames_begin initial) = Some st
    ∧ discoveredNames st !! 3%nat = Some (JStr "03")
    ∧ (∀ j, discoveredNames st !! j = Some (JStr "03") → 3%nat = j).
Proof.
  set (st := default initial (run one_full_page (extractAllNames_begin initial))).
  assert (run one_full_page (extractAllNames_begin initial) = Some st) as Hrun
    by (vm_compute; reflexivity).
  assert (reachable st) as Hst
    by (eapply reachable_run; [apply reachable_begin | exact Hrun]).
  assert (discoveredNames st !! 3%nat = Some (JStr "03")) as H3
    by (vm_compute; reflexivity).
  exists st. split; [exact Hrun|]. split; [exact H3|].
  intros j Hj.
  exact (names_are_distinct st 3 j (JStr "03") (JStr "03") Hst H3 Hj eq_refl).
Defined.

(** ** The files *)

(** X12. [maybeSaveProgress] (lines 71-76).  The progress file is never
    more than 499 names behind: the names discovered are at least those of
    the newest snapshot and fewer than 500 more. *)
Theorem unsaved_names_bound (st : state) :
  reachable st →
  saved_names st ≤ JSSet.size (discoveredNames st)
    < saved_names st + SAVE_INCREMENT.
Proof. intros [Hbound _]%reachable_saved. exact Hbound. Qed.

Lemma unsaved_names_bound_witness :
  ∃ st,
    run one_full_page (extractAllNames_begin initial) = Some st
    ∧ saved_names st = 0
    ∧ 0 ≤ JSSet.size (discoveredNames st) < 500.
Proof.
  set (st := default initial (run one_full_page (extractAllNames_begin initial))).
  assert (run one_full_page (extractAllNames_begin initial) = Some st) as Hrun
    by (vm_compute; reflexivity).
  assert (reachable st) as Hst
    by (eapply reachable_run; [apply reachable_begin | exact Hrun]).
  assert (saved_names st = 0) as Hsaved by (vm_compute; reflexivity).
  pose proof (unsaved_names_bound st Hst) as Hbound.
  rewrite Hsaved in Hbound.
  exists st. split; [exact Hrun|]. split; [exact Hsaved | exact Hbound].
Defined.



(** X14. [monitorBacklog] and [extractAllNames] (lines 91-106, 190-206).
    After the run is complete no request is sent, no name is added and no
    file is written; but the timer of [monitorBacklog] is never cleared: it
    still fires every 5000 ms, finds no backlog and raises the concurrency
    by one until it is 80. *)
Theorem after_completion (st : state) :
  reachable st →
  finished st = true →
  (∀ l st', exec l st = Some st' →
     (l = LMonitor ∨ l = LInterval ∨ ∃ dt, 0 ≤ dt ∧ l = LTime dt)
     ∧ finished st' = true
     ∧ files st' = files st
     ∧ calls st' = calls st
     ∧ discoveredNames st' = discoveredNames st)
  ∧ ∃ st1 st2,
      exec (LTime MONITOR_PERIOD_MS) st = Some st1
      ∧ exec LMonitor st1 = Some st2
      ∧ currentConcurrency st2
        = Z.min MAX_CONCURRENCY (currentConcurrency st + CONCURRENCY_ADJUSTMENT_UP).
Proof.
  intros Hst Hfin.
  destruct (reachable_finished st Hst Hfin) as (Hw & Hr & _).
  split.
  - intros l st' Hexec%exec_step_of.
    by destruct (step_finished l st st' Hfin Hw Hr Hexec)
      as (? & ? & _ & _ & ? & ? & _ & ? & _).
  - pose proof (reachable_monitor st Hst) as Hdue.
    destruct (reachable_concurrency st Hst) as [Hc _].
    set (st1 := set_now (now st + MONITOR_PERIOD_MS) st).
    exists st1, (monitorBacklog (set_monitorDue (now st1 + MONITOR_PERIOD_MS) st1)).
    split; [done|]. split.
    { apply exec_step_of, step_monitor. simpl. lia. }
    set (st2 := set_monitorDue _ st1).
    assert (backlog st2 = 0) as Hback.
    { unfold backlog. simpl. by rewrite Hw, Hr. }
    rewrite monitorBacklog_concurrency, Hback. simpl.
    change (currentConcurrency st2) with (currentConcurrency st).
    destruct (currentConcurrency st <? MAX_CONCURRENCY) eqn:Hlt.
    + apply Z.ltb_lt in Hlt. rewrite clamp_up by done.
      unfold CONCURRENCY_ADJUSTMENT_UP. done.
    + apply Z.ltb_ge in Hlt.
      unfold MAX_CONCURRENCY, CONCURRENCY_ADJUSTMENT_UP in *. lia.
Qed.

Lemma after_completion_witness :
  ∃ st st1 st2,
    run short_run (extractAllNames_begin initial) = Some st
    ∧ exec (LTime MONITOR_PERIOD_MS) st = Some st1
    ∧ exec LMonitor st1 = Some st2
    ∧ currentConcurrency st2 = currentConcurrency st + 1.
Proof.
  set (st := default initial (run short_run (extractAllNames_begin initial))).
  assert (run short_run (extractAllNames_begin initial) = Some st) as Hrun
    by (vm_compute; reflexivity).
  assert (reachable st) as Hst
    by (eapply reachable_run; [apply reachable_begin | exact Hrun]).
  assert (finished st = true) as Hfin by (vm_compute; reflexivity).
  destruct (after_completion st Hst Hfin)
    as (_ & st1 & st2 & H1 & H2 & Hc).
  exists st, st1, st2. split; [exact Hrun|]. split; [exact H1|].
  split; [exact H2|]. rewrite Hc. vm_compute. reflexivity.
Defined.

(** ** Jobs at a time *)

(** X15. The queue and [adjustConcurrency] (lines 39-43, 82-86).  Whatever
    the controller does, at most 80 jobs are running at any time of a run,
    and so at most 80 requests are awaiting their response. *)
Theorem jobs_at_a_time (st : state) :
  reachable st →
  Z.of_nat (in_flight st) ≤ Z.of_nat (length (running st))
  ∧ Z.of_nat (length (running st)) ≤ MAX_CONCURRENCY.
Proof.
  intros Hst. split; [|by apply reachable_running].
  unfold in_flight. pose proof (length_filter (λ k, awaits_response k = true)
                                  (running st)). lia.
Qed.

Lemma jobs_at_a_time_witness :
  ∃ st,
    run one_retry (extractAllNames_begin initial) = Some st
    ∧ in_flight st = 2%nat
    ∧ Z.of_nat (length (running st)) ≤ MAX_CONCURRENCY.
Proof.
  set (st := default initial (run one_retry (extractAllNames_begin initial))).
  assert (run one_retry (extractAllNames_begin initial) = Some st) as Hrun
    by (vm_compute; reflexivity).
  assert (reachable st) as Hst
    by (eapply reachable_run; [apply reachable_begin | exact Hrun]).
  exists st. split; [exact Hrun|]. split; [vm_compute; reflexivity|].
  exact (proj2 (jobs_at_a_time st Hst)).
Defined.

(** ** The URL of a request *)

(** X16. [encodeURIComponent] in line 117.  The query string loses nothing:
    reading the escapes of the encoded prefix gives the prefix back, so two
    prefixes have the same URL only if they are equal.  The encoding of a
    child extends that of its parent. *)
Theorem encoded_prefix_round_trip (s t : string) :
  percent_decode (chars (encodeURIComponent s)) = Some (chars s)
  ∧ (request_url s = request_url t → s = t)
  ∧ encodeURIComponent (s +:+ t) = encodeURIComponent s +:+ encodeURIComponent t.
Proof.
  assert (∀ u, percent_decode (chars (encodeURIComponent u)) = Some (chars u))
    as Hround.
  { intros u. rewrite chars_encodeURIComponent. apply percent_decode_bind. }
  split_and!; [done | | apply encodeURIComponent_app].
  unfold request_url. intros Hurl.
  apply (f_equal chars) in Hurl. rewrite !chars_app in Hurl.
  do 2 apply (inj (app _)) in Hurl.
  apply chars_inj. apply (inj Some). by rewrite <- !Hround, Hurl.
Qed.

(** X17. [VALID_CHARACTERS] and line 117.  Every request of a run is for a
    prefix made of characters of the alphabet.  Such a prefix contains no
    space, and its encoding does not contain [%20] either: the last entry
    of the alphabet is sent as [%2520], which reads as the three characters
    [%20], and [+] is sent as [%2B]. *)
Theorem queries_have_no_space (st : state) (c : call) :
  reachable st →
  c ∈ calls st →
  is_node (call_prefix c)
  ∧ (" "%char ∉ chars (call_prefix c))
  ∧ has_encoded_space (chars (encodeURIComponent (call_prefix c))) = false
  ∧ encodeURIComponent "%20" = "%2520"
  ∧ percent_decode (chars "%2520") = Some (chars "%20")
  ∧ encodeURIComponent "+" = "%2B".
Proof.
  intros Hst Hc. destruct (reachable_counted st Hst) as (_ & _ & Hcalls).
  rewrite Forall_forall in Hcalls. destruct (Hcalls c Hc) as [_ Hv].
  pose proof (reachable_visited_nodes st _ Hst Hv) as Hnode.
  destruct (node_encoded _ Hnode) as [Henc Hspace].
  split_and!; try done.
  by rewrite <- (app_nil_r (chars _)), Henc.
Qed.

Lemma queries_have_no_space_witness :
  ∃ st,
    run short_run (extractAllNames_begin initial) = Some st
    ∧ mkCall 19500 "%20" 1 ∈ calls st
    ∧ request_url "%20"
      = "http://35.200.185.69:8000/v3/autocomplete?query=%2520"
    ∧ has_encoded_space (chars (encodeURIComponent "%20")) = false.
Proof.
  set (st := default initial (run short_run (extractAllNames_begin initial))).
  assert (run short_run (extractAllNames_begin initial) = Some st) as Hrun
    by (vm_compute; reflexivity).
  assert (reachable st) as Hst
    by (eapply reachable_run; [apply reachable_begin | exact Hrun]).
  assert (mkCall 19500 "%20" 1 ∈ calls st) as Hc by (vm_compute; left).
  destruct (queries_have_no_space st _ Hst Hc) as (_ & _ & Henc & _).
  exists st. split; [exact Hrun|]. split; [exact Hc|].
  split; [vm_compute; reflexivity | exact Henc].
Defined.

(** ** The time between requests *)

(** X18. [queryAPI], lines 127-128 and 132-135.  The script never sends two
    requests for one prefix within a second: in a run whose samples are
    those of [Math.random()], of two calls of [queryAPI] for the same
    prefix the later is made at least 1000 ms after the earlier. *)
Theorem requests_are_spaced (ls : list label) (st : state) (i j : nat)
    (c1 c2 : call) :
  Forall samples_ok ls →
  run ls (extractAllNames_begin initial) = Some st →
  (i < j)%nat →
  calls st !! i = Some c1 →
  calls st !! j = Some c2 →
  call_prefix c1 = call_prefix c2 →
  call_time c2 + min_retry_ms ≤ call_time c1.
Proof.
  intros Hls Hrun Hij H1 H2 Hpre.
  destruct (run_spaced ls st Hls Hrun) as (_ & _ & Hgap). by eapply Hgap.
Qed.

Lemma requests_are_spaced_witness :
  ∃ st,
    run one_retry (extractAllNames_begin initial) = Some st
    ∧ calls st !! 0%nat = Some (mkCall 1000 "0" 2)
    ∧ calls st !! 2%nat = Some (mkCall 0 "0" 1)
    ∧ 0 + min_retry_ms ≤ 1000.
Proof.
  set (st := default initial (run one_retry (extractAllNames_begin initial))).
  assert (run one_retry (extractAllNames_begin initial) = Some st) as Hrun
    by (vm_compute; reflexivity).
  assert (Forall samples_ok one_retry) as Hls.
  { assert (is_sample 0) as H0 by sample.
    unfold one_retry.
    repeat (apply Forall_cons_2; [first [exact I | exact H0]|]).
    apply Forall_nil_2. }
  assert (calls st !! 0%nat = Some (mkCall 1000 "0" 2)) as H1
    by (vm_compute; reflexivity).
  assert (calls st !! 2%nat = Some (mkCall 0 "0" 1)) as H2
    by (vm_compute; reflexivity).
  exists st. split; [exact Hrun|]. split; [exact H1|]. split; [exact H2|].
  exact (requests_are_spaced one_retry st 0 2 (mkCall 1000 "0" 2)
           (mkCall 0 "0" 1) Hls Hrun
           (le_S 1 1 (le_n 1)) H1 H2 eq_refl).
Defined.

(** ** The concurrency in the log *)

(** X19. [adjustConcurrency] (lines 82-86).  The console tells the
    concurrency in force: at any time of a run it is the value of the
    newest line [Adjusted concurrency: c], and the initial 26 while there
    is no such line; the queue has the same value. *)
Theorem log_shows_concurrency (st : state) :
  reachable st →
  currentConcurrency st
  = default INITIAL_CONCURRENCY (last_adjusted (console st))
  ∧ queueConcurrency st = currentConcurrency st.
Proof.
  intros Hst. split; [|by apply reachable_concurrency].
  revert st Hst. apply reachable_invariant.
  - by rewrite extractAllNames_begin_spec.
  - intros l st st' _. apply exec_logged.
Qed.

Lemma log_shows_concurrency_witness :
  ∃ st,
    run one_retry (extractAllNames_begin initial) = Some st
    ∧ last_adjusted (console st) = Some 23
    ∧ currentConcurrency st = 23.
Proof.
  set (st := default initial (run one_retry (extractAllNames_begin initial))).
  assert (run one_retry (extractAllNames_begin initial) = Some st) as Hrun
    by (vm_compute; reflexivity).
  assert (reachable st) as Hst
    by (eapply reachable_run; [apply reachable_begin | exact Hrun]).
  assert (last_adjusted (console st) = Some 23) as Hlog
    by (vm_compute; reflexivity).
  exists st. split; [exact Hrun|]. split; [exact Hlog|].
  rewrite (proj1 (log_shows_concurrency st Hst)), Hlog. reflexivity.
Defined.

(** ** The attempts of a prefix *)

(** X23. [queryAPI], lines 114-135, and [processPrefix], line 152.  In
    every state of a run the requests for one prefix carry the attempt
    numbers 1, 2, 3, ... in the order in which they were sent, whatever
    made the script retry, a 429 as much as a failure; and a job whose
    query is not answered yet is at the attempt that counts the requests
    made for its prefix. *)
Theorem attempts_count_requests (st : state) (p : string) :
  reachable st →
  call_attempt <$> calls_for p st
  = reverse (seqZ 1 (Z.of_nat (length (calls_for p st))))
  ∧ ∀ k, k ∈ running st → unanswered k = Some p →
         cont_attempt k = Z.of_nat (length (calls_for p st)).
Proof.
  intros [Hseq Hjobs]%reachable_attempts. split; [done|].
  intros k Hk Hp. rewrite Forall_forall in Hjobs. symmetry.
  by apply (Hjobs k Hk).
Qed.

Lemma attempts_count_requests_witness :
  ∃ st,
    run one_retry (extractAllNames_begin initial) = Some st
    ∧ running st = [AwaitResponse "0" 2; AwaitResponse "1" 1]
    ∧ call_attempt <$> calls_for "0" st = [2; 1]
    ∧ call_attempt <$> calls_for "0" st
      = reverse (seqZ 1 (Z.of_nat (length (calls_for "0" st)))).
Proof.
  set (st := default initial (run one_retry (extractAllNames_begin initial))).
  assert (run one_retry (extractAllNames_begin initial) = Some st) as Hrun
    by (vm_compute; reflexivity).
  assert (reachable st) as Hst
    by (eapply reachable_run; [apply reachable_begin | exact Hrun]).
  exists st. split; [exact Hrun|]. split; [vm_compute; reflexivity|].
  split; [vm_compute; reflexivity|].
  exact (proj1 (attempts_count_requests st "0" Hst)).
Defined.

(** X24. [queryAPI], lines 136-139.  A line "Failed to fetch prefix p
    after a attempts" in the console of a run means what it says: [a] is
    at least 6, exactly [a] requests were sent for [p], none is sent
    after the line, and the answer [processPrefix] got for [p] is the
    empty array. *)
Theorem given_up_after_six (st : state) (p : string) (a : Z) :
  reachable st → LogFailed p a ∈ console st →
  MAX_ATTEMPTS < a
  ∧ Z.of_nat (length (calls_for p st)) = a
  ∧ (p, JArr []) ∈ answers st.
Proof.
  intros [Hlines _]%reachable_log_inv Hin.
  rewrite Forall_forall in Hlines. exact (Hlines _ Hin).
Qed.

Lemma given_up_after_six_witness :
  ∃ st,
    run six_failures (extractAllNames_begin initial) = Some st
    ∧ head (console st) = Some (LogFailed "0" 6)
    ∧ Z.of_nat (length (calls_for "0" st)) = 6
    ∧ ("0", JArr []) ∈ answers st.
Proof.
  set (st := default initial
               (run six_failures (extractAllNames_begin initial))).
  assert (run six_failures (extractAllNames_begin initial) = Some st) as Hrun
    by (vm_compute; reflexivity).
  assert (reachable st) as Hst
    by (eapply reachable_run; [apply reachable_begin | exact Hrun]).
  assert (head (console st) = Some (LogFailed "0" 6)) as Hhead
    by (vm_compute; reflexivity).
  exists st. split; [exact Hrun|]. split; [exact Hhead|].
  apply (given_up_after_six st "0" 6 Hst).
  apply head_Some in Hhead as [rest ->]. left.
Defined.

(** X25. [queryAPI], lines 131-135.  The lines "Error fetching prefix p
    (attempt a) ... Retrying in d ms" of a run: [a] is from 1 to 5, [d] is
    500 * 2^a, the request of attempt [a] for [p] was sent, and no two
    lines for [p] have the same attempt.  So a run retries one prefix
    with backoff at most five times, the retries after a 429 not
    counted. *)
Theorem at_most_five_backoffs (st : state) (p : string) :
  reachable st →
  NoDup (backoffs p st)
  ∧ (length (backoffs p st) ≤ 5)%nat
  ∧ ∀ a d, LogRetrying p a d ∈ console st →
           1 ≤ a ≤ MAX_ATTEMPTS ∧ d = BASE_DELAY_MS * 2 ^ a
           ∧ a ≤ Z.of_nat (length (calls_for p st)).
Proof.
  intros [Hlines Hnd]%reachable_log_inv. rewrite Forall_forall in Hlines.
  split_and!; [done | |].
  - change 5%nat with (length (seqZ 1 5)). apply submseteq_length.
    apply NoDup_submseteq; [done|].
    intros a (l & Hl & Ha)%list_elem_of_omap. specialize (Hlines _ Hl).
    destruct l as [| | |q b d| | |]; try done. simpl in Ha.
    case_decide; [|done]. injection Ha as ->.
    destruct Hlines as ([? ?] & _). apply elem_of_seqZ.
    unfold MAX_ATTEMPTS in *. lia.
  - intros a d Hin. by destruct (Hlines _ Hin) as (? & ? & ? & _).
Qed.

Lemma at_most_five_backoffs_witness :
  ∃ st,
    run six_failures (extractAllNames_begin initial) = Some st
    ∧ backoffs "0" st = [5; 4; 3; 2; 1]
    ∧ (length (backoffs "0" st) ≤ 5)%nat.
Proof.
  set (st := default initial
               (run six_failures (extractAllNames_begin initial))).
  assert (run six_failures (extractAllNames_begin initial) = Some st) as Hrun
    by (vm_compute; reflexivity).
  assert (reachable st) as Hst
    by (eapply reachable_run; [apply reachable_begin | exact Hrun]).
  exists st. split; [exact Hrun|]. split; [vm_compute; reflexivity|].
  exact (proj1 (proj2 (at_most_five_backoffs st "0" Hst))).
Defined.

(** X26. [processPrefix], lines 149-153, and [queryAPI].  Once
    [queryAPI(p)] has returned to [processPrefix], the prefix is settled
    for the rest of the run: whatever happens next, no further request
    is sent for [p], no job is querying [p], and [p] gets no second
    answer. *)
Theorem answered_is_final (ls : list label) (st st' : state) (p : string)
    (v : json) :
  reachable st → run ls st = Some st' → (p, v) ∈ answers st →
  calls_for p st' = calls_for p st
  ∧ (∀ k, k ∈ running st' → unanswered k ≠ Some p)
  ∧ ∀ v', (p, v') ∈ answers st' ↔ v' = v.
Proof.
  revert st. induction ls as [|l ls IH]; intros st Hst Hrun Hin; simpl in Hrun.
  - injection Hrun as <-.
    destruct (reachable_tree_inv st Hst) as (_ & _ & _ & _ & Hnd & _).
    apply NoDup_app in Hnd as (_ & Hdisj & Hnd). split_and!; [done | |].
    + intros k Hk Hp. apply (Hdisj p).
      * apply list_elem_of_omap. by exists k.
      * by apply (list_elem_of_fmap_2 fst _ (p, v)).
    + intros v'. split; [|by intros ->].
      intros Hv'. by apply (NoDup_fst_agree (answers st) p).
  - destruct (exec l st) as [st1|] eqn:Hl; [|done]. simpl in Hrun.
    assert (progress st st1) as (_ & Hsame & Hans & _).
    { apply (step_progress l); [by apply reachable_tree_inv | |
                                by apply reachable_attempts |
                                by apply exec_step_of].
      destruct (reachable_counted st Hst) as (_ & _ & Hcalls).
      eapply Forall_impl; [exact Hcalls|]. by intros c [_ ?]. }
    rewrite <- (Hsame p) by by apply (list_elem_of_fmap_2 fst _ (p, v)).
    apply IH; [by eapply reachable_step | done | by apply Hans].
Qed.

Lemma answered_is_final_witness :
  ∃ st st',
    run one_full_page (extractAllNames_begin initial) = Some st
    ∧ run [LStart; LResponse 1 (Fulfilled (JObj [("results", JArr [])])) 0] st
      = Some st'
    ∧ length (answers st) = 1%nat ∧ length (answers st') = 2%nat
    ∧ calls_for "0" st' = calls_for "0" st.
Proof.
  set (st := default initial
               (run one_full_page (extractAllNames_begin initial))).
  assert (run one_full_page (extractAllNames_begin initial) = Some st) as Hrun
    by (vm_compute; reflexivity).
  assert (reachable st) as Hst
    by (eapply reachable_run; [apply reachable_begin | exact Hrun]).
  set (ls := [LStart; LResponse 1 (Fulfilled (JObj [("results", JArr [])])) 0]).
  set (st' := default initial (run ls st)).
  assert (run ls st = Some st') as Hrun' by (vm_compute; reflexivity).
  assert (answers st = [("0", default (JArr []) (get_results full_page))])
    as Hans by (vm_compute; reflexivity).
  exists st, st'. split; [exact Hrun|]. split; [exact Hrun'|].
  split; [vm_compute; reflexivity|]. split; [vm_compute; reflexivity|].
  apply (answered_is_final ls st st' "0"
           (default (JArr []) (get_results full_page)) Hst Hrun').
  rewrite Hans. left.
Defined.

(** * The probe of the rate limit, api-rate-limit-test.js *)

Lemma probe_loop_cons f fs st :
  RateLimitTest.loop (f :: fs) st
  = match RateLimitTest.turn f st with
    | (st', true) => Some st'
    | (st', false) => RateLimitTest.loop fs st'
    end.
Proof. done. Qed.

(** A turn before the first 429. *)
Lemma probe_turn_unlimited f st :
  RateLimitTest.rateLimited st = false →
  let st' := (RateLimitTest.turn f st).1 in
  (RateLimitTest.turn f st).2 = false
  ∧ RateLimitTest.cooldownDuration st' = RateLimitTest.cooldownDuration st
  ∧ RateLimitTest.requestCount st'
    = RateLimitTest.requestCount st + (if is_response f then 1 else 0)
  ∧ (¬ is_limit f → RateLimitTest.rateLimited st' = false)
  ∧ (∀ time, f = RateLimitTest.Response 429 time →
       RateLimitTest.rateLimited st' = true
       ∧ RateLimitTest.rateLimitStartTime st' = Some time).
Proof.
  intros Hst. unfold RateLimitTest.turn.
  destruct f as [status time|]; rewrite ?Hst; cbv zeta.
  - destruct (status =? 429) eqn:H429; [|destruct (RateLimitTest.ok status)];
      simpl; rewrite ?Hst; simpl; split_and!; try done; try lia;
      try (intros time0 [= -> <-]; try done; by rewrite Z.eqb_refl in H429);
      try (apply Z.eqb_eq in H429; intros Hn; by destruct Hn).
  - simpl. split_and!; try done. lia.
Qed.

(** A turn after the first 429. *)
Lemma probe_turn_limited f st t :
  RateLimitTest.rateLimited st = true →
  RateLimitTest.rateLimitStartTime st = Some t →
  let st' := (RateLimitTest.turn f st).1 in
  RateLimitTest.requestCount st' = RateLimitTest.requestCount st
  ∧ RateLimitTest.rateLimited st' = true
  ∧ RateLimitTest.rateLimitStartTime st' = Some (last_limit t [f])
  ∧ (¬ is_success f →
       (RateLimitTest.turn f st).2 = false
       ∧ RateLimitTest.cooldownDuration st' = RateLimitTest.cooldownDuration st)
  ∧ (∀ status time, f = RateLimitTest.Response status time → is_success f →
       (RateLimitTest.turn f st).2 = true
       ∧ RateLimitTest.cooldownDuration st' = Some (time - t)).
Proof.
  intros Hst Ht. unfold RateLimitTest.turn, last_limit.
  destruct f as [status time|]; rewrite ?Hst; cbv zeta.
  - destruct (status =? 429) eqn:H429;
      [|destruct (RateLimitTest.ok status) eqn:Hok];
      simpl; rewrite ?Hst, ?Ht, ?H429; simpl; split_and!; try done.
    + intros s t' [= -> ->] Hs. simpl in Hs. apply Z.eqb_eq in H429. by subst.
    + by intros s t' [= -> ->] _.
    + intros s t' [= -> ->] Hs. simpl in Hs. congruence.
  - simpl. by split_and!.
Qed.

Lemma last_limit_cons t f fs :
  last_limit t (f :: fs) = last_limit (last_limit t [f]) fs.
Proof. done. Qed.

Lemma probe_before (fs rest : list RateLimitTest.fetched)
    (st : RateLimitTest.state) :
  RateLimitTest.rateLimited st = false →
  Forall (λ f, ¬ is_limit f) fs →
  ∃ st',
    RateLimitTest.loop (fs ++ rest) st = RateLimitTest.loop rest st'
    ∧ RateLimitTest.rateLimited st' = false
    ∧ RateLimitTest.cooldownDuration st' = RateLimitTest.cooldownDuration st
    ∧ RateLimitTest.requestCount st'
      = RateLimitTest.requestCount st
        + Z.of_nat (length (filter (λ f, is_response f = true) fs)).
Proof.
  revert st. induction fs as [|f fs IH]; intros st Hst Hfs.
  - exists st. simpl. split_and!; try done. lia.
  - apply Forall_cons in Hfs as [Hf Hfs].
    destruct (probe_turn_unlimited f st Hst) as (Hb & Hcool & Hcount & Hlim & _).
    specialize (Hlim Hf).
    change ((f :: fs) ++ rest) with (f :: (fs ++ rest)).
    rewrite probe_loop_cons.
    destruct (RateLimitTest.turn f st) as [st1 b]. cbn [fst snd] in *. subst b.
    destruct (IH st1 Hlim Hfs) as (st' & Hloop & Hlim' & Hcool' & Hcount').
    exists st'. split_and!; [done | done | congruence |].
    rewrite Hcount', Hcount, filter_cons.
    destruct (decide (is_response f = true)) as [Hr|Hr].
    + rewrite Hr. simpl. lia.
    + destruct (is_response f); [done | lia].
Qed.

Lemma probe_limited (fs rest : list RateLimitTest.fetched)
    (st : RateLimitTest.state) (t : Z) :
  RateLimitTest.rateLimited st = true →
  RateLimitTest.rateLimitStartTime st = Some t →
  Forall (λ f, ¬ is_success f) fs →
  ∃ st',
    RateLimitTest.loop (fs ++ rest) st = RateLimitTest.loop rest st'
    ∧ RateLimitTest.rateLimited st' = true
    ∧ RateLimitTest.rateLimitStartTime st' = Some (last_limit t fs)
    ∧ RateLimitTest.cooldownDuration st' = RateLimitTest.cooldownDuration st
    ∧ RateLimitTest.requestCount st' = RateLimitTest.requestCount st.
Proof.
  revert st t. induction fs as [|f fs IH]; intros st t Hst Ht Hfs.
  - by exists st.
  - apply Forall_cons in Hfs as [Hf Hfs].
    destruct (probe_turn_limited f st t Hst Ht)
      as (Hcount & Hlim & Hstart & Hfail & _).
    destruct (Hfail Hf) as [Hb Hcool].
    change ((f :: fs) ++ rest) with (f :: (fs ++ rest)).
    rewrite probe_loop_cons.
    destruct (RateLimitTest.turn f st) as [st1 b]. cbn [fst snd] in *. subst b.
    destruct (IH st1 _ Hlim Hstart Hfs)
      as (st' & Hloop & Hlim' & Hstart' & Hcool' & Hcount').
    exists st'. split_and!; [done | done | | congruence | congruence].
    by rewrite last_limit_cons.
Qed.

(** While no success follows a 429 the loop goes on. *)
Lemma probe_goes_on (fs : list RateLimitTest.fetched)
    (st : RateLimitTest.state) :
  (RateLimitTest.rateLimited st = false →
     ∀ j k f g, (j < k)%nat → fs !! j = Some f → fs !! k = Some g →
                is_limit f → ¬ is_success g) →
  (RateLimitTest.rateLimited st = true → Forall (λ f, ¬ is_success f) fs) →
  RateLimitTest.loop fs st = None.
Proof.
  revert st. induction fs as [|f fs IH]; intros st Hun Hlim; [done|].
  rewrite probe_loop_cons.
  destruct (RateLimitTest.rateLimited st) eqn:Hst.
  - specialize (Hlim eq_refl). apply Forall_cons in Hlim as [Hf Hfs].
    destruct (RateLimitTest.rateLimitStartTime st) as [t|] eqn:Ht.
    + destruct (probe_turn_limited f st t Hst Ht) as (_ & Hl & _ & Hfail & _).
      destruct (Hfail Hf) as [Hb _].
      destruct (RateLimitTest.turn f st) as [st1 b]. cbn [fst snd] in *. subst b.
      apply IH; [congruence | done].
    + assert ((RateLimitTest.turn f st).2 = false
              ∧ RateLimitTest.rateLimited (RateLimitTest.turn f st).1 = true)
        as [Hb Hl].
      { unfold RateLimitTest.turn. destruct f as [status time|]; [|done].
        rewrite Hst. cbv zeta. simpl in Hf.
        destruct (status =? 429); [done|].
        destruct (RateLimitTest.ok status); [by destruct Hf | done]. }
      destruct (RateLimitTest.turn f st) as [st1 b]. cbn [fst snd] in *. subst b.
      apply IH; [congruence | done].
  - specialize (Hun eq_refl).
    destruct (probe_turn_unlimited f st Hst) as (Hb & _ & _ & Hno & Hyes).
    destruct (RateLimitTest.turn f st) as [st1 b]. cbn [fst snd] in *. subst b.
    apply IH.
    + intros Hst1 j k f' g Hjk Hj Hk. by apply (Hun (S j) (S k)); [lia|..].
    + intros Hst1. apply Forall_lookup. intros k g Hk.
      assert (is_limit f ∨ ¬ is_limit f) as [Hf|Hf].
      { destruct f as [s ?|]; simpl; [|right; tauto].
        destruct (decide (s = 429)); [by left | by right]. }
      2: by rewrite Hno in Hst1.
      by apply (Hun 0%nat (S k) f g); [lia|..].
Qed.

Lemma probe_run (before middle rest : list RateLimitTest.fetched)
    (t0 status time : Z) :
  Forall (λ f, ¬ is_limit f) before →
  Forall (λ f, ¬ is_success f) middle →
  RateLimitTest.ok status = true →
  ∃ st,
    RateLimitTest.loop
      (before ++ RateLimitTest.Response 429 t0
              :: middle ++ RateLimitTest.Response status time :: rest)
      (RateLimitTest.log RateLimitTest.LogStarting RateLimitTest.initial)
    = Some st
    ∧ RateLimitTest.requestCount st
      = Z.of_nat (length (filter (λ f, is_response f = true) before)) + 1
    ∧ RateLimitTest.cooldownDuration st = Some (time - last_limit t0 middle).
Proof.
  intros Hbefore Hmiddle Hok.
  destruct (probe_before before
              (RateLimitTest.Response 429 t0
               :: middle ++ RateLimitTest.Response status time :: rest)
              (RateLimitTest.log RateLimitTest.LogStarting RateLimitTest.initial)
              eq_refl Hbefore)
    as (st1 & -> & Hlim1 & _ & Hcount1).
  rewrite probe_loop_cons.
  destruct (probe_turn_unlimited (RateLimitTest.Response 429 t0) st1 Hlim1)
    as (Hb & _ & Hcount2 & _ & Hyes).
  destruct (Hyes t0 eq_refl) as [Hlim2 Hstart2].
  destruct (RateLimitTest.turn _ st1) as [st2 b]. cbn [fst snd] in *. subst b.
  destruct (probe_limited middle (RateLimitTest.Response status time :: rest)
              st2 t0 Hlim2 Hstart2 Hmiddle)
    as (st3 & -> & Hlim3 & Hstart3 & _ & Hcount3).
  rewrite probe_loop_cons.
  destruct (probe_turn_limited (RateLimitTest.Response status time) st3 _
              Hlim3 Hstart3)
    as (Hcount4 & _ & _ & _ & Hend).
  destruct (Hend status time eq_refl Hok) as [Hb Hcool].
  destruct (RateLimitTest.turn _ st3) as [st4 b]. cbn [fst snd] in *. subst b.
  exists st4. split; [done|]. split; [|done].
  rewrite Hcount4, Hcount3, Hcount2, Hcount1. simpl. lia.
Qed.

Lemma probe_report (st : RateLimitTest.state) :
  RateLimitTest.requestCount (RateLimitTest.report st)
  = RateLimitTest.requestCount st
  ∧ RateLimitTest.cooldownDuration (RateLimitTest.report st)
    = RateLimitTest.cooldownDuration st
  ∧ RateLimitTest.LogTotal (RateLimitTest.requestCount st)
    ∈ RateLimitTest.console (RateLimitTest.report st)
  ∧ ∀ ms, RateLimitTest.cooldownDuration st = Some ms →
          head (RateLimitTest.console (RateLimitTest.report st))
          = Some (RateLimitTest.LogEstimated ms).
Proof.
  unfold RateLimitTest.report. cbv zeta. simpl.
  destruct (RateLimitTest.cooldownDuration st) as [ms|] eqn:Hcool; simpl.
  - split_and!; [done | done | right; left | by intros ? [= ->]].
  - split_and!; [done | done | left | done].
Qed.

(** X20. [main], lines 24-26 and 54.  The count that the probe prints as
    [Total requests made] is the number of responses received up to the
    first 429, this one included: a request that fails is not counted, and
    neither is any request made once the limit is reached, however long it
    lasts. *)
Theorem probe_counts_until_limit
    (before middle rest : list RateLimitTest.fetched) (t0 status time : Z) :
  Forall (λ f, ¬ is_limit f) before →
  Forall (λ f, ¬ is_success f) middle →
  RateLimitTest.ok status = true →
  ∃ st,
    RateLimitTest.main
      (before ++ RateLimitTest.Response 429 t0
              :: middle ++ RateLimitTest.Response status time :: rest)
    = Some st
    ∧ RateLimitTest.requestCount st
      = Z.of_nat (length (filter (λ f, is_response f = true) before)) + 1
    ∧ RateLimitTest.LogTotal (RateLimitTest.requestCount st)
      ∈ RateLimitTest.console st.
Proof.
  intros Hbefore Hmiddle Hok.
  destruct (probe_run before middle rest t0 status time Hbefore Hmiddle Hok)
    as (st & Hloop & Hcount & _).
  destruct (probe_report st) as (Hcount' & _ & Hlog & _).
  exists (RateLimitTest.report st). unfold RateLimitTest.main.
  rewrite Hloop. split; [done|]. rewrite Hcount'. by split.
Qed.

Lemma probe_counts_until_limit_witness :
  ∃ st,
    RateLimitTest.main
      [RateLimitTest.Response 200 10; RateLimitTest.Failed;
       RateLimitTest.Response 429 30; RateLimitTest.Response 429 40;
       RateLimitTest.Response 500 50; RateLimitTest.Response 200 60]
    = Some st
    ∧ RateLimitTest.requestCount st = 2.
Proof.
  destruct (probe_counts_until_limit
              [RateLimitTest.Response 200 10; RateLimitTest.Failed]
              [RateLimitTest.Response 429 40; RateLimitTest.Response 500 50]
              [] 30 200 60) as (st & Hmain & Hcount & _).
  - repeat (apply Forall_cons_2;
              [intros H; vm_compute in H; first [discriminate H | exact H]|]).
    apply Forall_nil_2.
  - repeat (apply Forall_cons_2;
              [intros H; vm_compute in H; first [discriminate H | exact H]|]).
    apply Forall_nil_2.
  - reflexivity.
  - exists st. split; [exact Hmain | exact Hcount].
Defined.

(** X21. [main], lines 28-40.  The cooldown that the probe reports is the
    time from the last 429 to the first success after it:
    [rateLimitStartTime] is set again at every 429, so the time since the
    limit was reached is not what is measured. *)
Theorem probe_times_last_limit
    (before middle rest : list RateLimitTest.fetched) (t0 status time : Z) :
  Forall (λ f, ¬ is_limit f) before →
  Forall (λ f, ¬ is_success f) middle →
  RateLimitTest.ok status = true →
  ∃ st,
    RateLimitTest.main
      (before ++ RateLimitTest.Response 429 t0
              :: middle ++ RateLimitTest.Response status time :: rest)
    = Some st
    ∧ RateLimitTest.cooldownDuration st = Some (time - last_limit t0 middle)
    ∧ head (RateLimitTest.console st)
      = Some (RateLimitTest.LogEstimated (time - last_limit t0 middle))
    ∧ (∀ middle' t1, middle = middle' ++ [RateLimitTest.Response 429 t1] →
         last_limit t0 middle = t1).
Proof.
  intros Hbefore Hmiddle Hok.
  destruct (probe_run before middle rest t0 status time Hbefore Hmiddle Hok)
    as (st & Hloop & _ & Hcool).
  destruct (probe_report st) as (_ & Hcool' & _ & Hlog).
  exists (RateLimitTest.report st). unfold RateLimitTest.main.
  rewrite Hloop. split; [done|]. rewrite Hcool', Hcool.
  split; [done|]. split; [by apply Hlog|].
  intros middle' t1 ->. unfold last_limit. by rewrite foldl_app.
Qed.

Lemma probe_times_last_limit_witness :
  ∃ st,
    RateLimitTest.main
      [RateLimitTest.Response 200 10; RateLimitTest.Failed;
       RateLimitTest.Response 429 30; RateLimitTest.Response 500 50;
       RateLimitTest.Response 429 2000; RateLimitTest.Response 200 2100]
    = Some st
    ∧ RateLimitTest.cooldownDuration st = Some 100.
Proof.
  destruct (probe_times_last_limit
              [RateLimitTest.Response 200 10; RateLimitTest.Failed]
              [RateLimitTest.Response 500 50; RateLimitTest.Response 429 2000]
              [] 30 200 2100) as (st & Hmain & Hcool & _).
  - repeat (apply Forall_cons_2;
              [intros H; vm_compute in H; first [discriminate H | exact H]|]).
    apply Forall_nil_2.
  - repeat (apply Forall_cons_2;
              [intros H; vm_compute in H; first [discriminate H | exact H]|]).
    apply Forall_nil_2.
  - reflexivity.
  - exists st. split; [exact Hmain | exact Hcool].
Defined.

(** X22. [main], lines 21-51.  The loop ends only at a success that follows
    a 429: as long as the outcomes hold no such pair (no 429 at all, for
    instance, or nothing but failures after it) the probe keeps sending
    requests. *)
Theorem probe_runs_on (fs : list RateLimitTest.fetched) :
  (∀ j k f g, (j < k)%nat → fs !! j = Some f → fs !! k = Some g →
              is_limit f → ¬ is_success g) →
  RateLimitTest.main fs = None.
Proof.
  intros Hfs. unfold RateLimitTest.main.
  rewrite probe_goes_on; [done | by intros _ | done].
Qed.

Lemma probe_runs_on_witness :
  RateLimitTest.main (replicate 100 (RateLimitTest.Response 200 0)) = None.
Proof.
  apply probe_runs_on. intros j k f g _ Hj _ Hf.
  apply lookup_replicate in Hj as [-> _]. simpl in Hf. discriminate Hf.
Defined.
